(** * mips_to_c: operand parser, block builder, flow analysis, stack-frame
      analysis and instruction lifting of [main.py], embedded in Rocq.

    Conventions of the embedding.
    - A Python [str] is a [string]; [list(arg)] is the [list ascii] of its
      characters (code points below 256).
    - A Python [int] is a [Z]; list positions and block indices, which the
      program only ever counts upwards from 0, are [nat].
    - A Python [float] has no counterpart: where [ast.literal_eval] gives
      one, the embedding stops with [FloatLiteral], and a result [Ok] of the
      parser stands for a run of the code in which every number is an int.
    - A [dict] keyed by [Register] is a [gmap] keyed by the register name.
    - Exceptions and [sys.exit] are the [Err] results of the [result] monad;
      recursion that Python performs on its call stack takes a [fuel]
      argument and answers [OutOfFuel] when the fuel is exhausted. A run
      that is [OutOfFuel] for every fuel is one that Python abandons with
      [RecursionError] once its stack limit is reached.
    - [print] calls are not modelled; what they print at the end of
      [translate_block_body] and [translate_to_ast] is the value returned. *)

From Stdlib Require Import ZArith List String Ascii Bool Lia HexString Sorted.
From stdpp Require Import gmap strings list fin_maps.

Local Open Scope string_scope.
Local Open Scope list_scope.

(** ** Results of fallible code *)

Inductive error : Type :=
| SysExit                      (* sys.exit(1) *)
| AssertionError               (* a failed [assert] *)
| IndexError                   (* list index or pop out of range *)
| KeyError                     (* missing dict key *)
| AttributeError               (* attribute of an object that lacks it *)
| StopIteration                (* next() on an exhausted iterator *)
| LiteralError                 (* ast.literal_eval rejected its input *)
| FloatLiteral                 (* no exception: ast.literal_eval gave a float,
                                  and the code goes on with a NumberLiteral
                                  that holds it; the embedding, whose
                                  numbers are integers, stops there *)
| UnknownMnemonic (mnemonic : string).
                               (* assert False, "I don't know how to handle …" *)

Inductive result (A : Type) : Type :=
| Ok (a : A)
| Err (e : error)
| OutOfFuel.

Arguments Ok {A} a.
Arguments Err {A} e.
Arguments OutOfFuel {A}.

#[global] Instance result_ret : MRet result := fun A a => Ok a.
#[global] Instance result_bind : MBind result := fun A B f r =>
  match r with
  | Ok a => f a
  | Err e => Err e
  | OutOfFuel => OutOfFuel
  end.

Definition py_assert (b : bool) : result unit :=
  if b then Ok tt else Err AssertionError.

Definition from_option {A} (e : error) (o : option A) : result A :=
  match o with
  | Some a => Ok a
  | None => Err e
  end.

(** ** Characters and the [string] module constants *)

Fixpoint char_in (c : ascii) (s : string) : bool :=
  match s with
  | EmptyString => false
  | String d s' => Ascii.eqb c d || char_in c s'
  end.

Definition ascii_letters : string :=
  "abcdefghijklmnopqrstuvwxyzABCDEFGHIJKLMNOPQRSTUVWXYZ".
Definition digits : string := "0123456789".
Definition hexdigits : string := "0123456789abcdefABCDEF".

Definition valid_word : string := ascii_letters +:+ digits +:+ "_".
Definition valid_number : string := "-x" +:+ hexdigits.

(** [str.isspace] on one character: the code points below 256 that Unicode
    classes as white space (TAB..CR, FS..US, SPACE, NEL, NBSP). *)
Definition isspace (c : ascii) : bool :=
  let n := nat_of_ascii c in
  (Nat.leb 9 n && Nat.leb n 13) || (Nat.leb 28 n && Nat.leb n 32)
  || Nat.eqb n 133 || Nat.eqb n 160.

(** ** Arguments *)

(* Induction on [Argument] goes through the optional [lhs] of [AddressMode]. *)
Scheme All for option.

Inductive Argument : Type :=
| Register (register_name : string)
| GlobalSymbol (symbol_name : string)
| Macro (macro_name : string) (argument : Argument)
| NumberLiteral (value : Z)
| AddressMode (lhs : option Argument) (rhs : Argument)
| BinOp (op : string) (lhs rhs : Argument)
| JumpTarget (target : string).

(** [re.match('s[0-7]', register_name)]: the pattern is anchored at the start
    only. *)
Definition name_is_callee_save (register_name : string) : bool :=
  match register_name with
  | String c0 (String c1 _) => Ascii.eqb c0 "s" && char_in c1 "01234567"
  | _ => false
  end.

(** The built-in [hex] on an [int]: [0x…] in lower case, [-0x…] below zero. *)
Definition hex (value : Z) : string := HexString.of_Z value.

(** [__str__] of each Argument class. *)
Fixpoint Argument_str (a : Argument) : string :=
  match a with
  | Register register_name => "$" +:+ register_name
  | GlobalSymbol symbol_name => symbol_name
  | Macro macro_name argument =>
      "%" +:+ macro_name +:+ "(" +:+ Argument_str argument +:+ ")"
  | NumberLiteral value => hex value
  | AddressMode lhs rhs =>
      match lhs with
      | Some l => Argument_str l +:+ "(" +:+ Argument_str rhs +:+ ")"
      | None => "(" +:+ Argument_str rhs +:+ ")"
      end
  | BinOp op lhs rhs =>
      Argument_str lhs +:+ " " +:+ op +:+ " " +:+ Argument_str rhs
  | JumpTarget target => "." +:+ target
  end.

Definition is_NumberLiteral (a : Argument) : bool :=
  match a with NumberLiteral _ => true | _ => false end.
Definition is_GlobalSymbol (a : Argument) : bool :=
  match a with GlobalSymbol _ => true | _ => false end.
Definition is_Macro (a : Argument) : bool :=
  match a with Macro _ _ => true | _ => false end.
Definition is_BinOp (a : Argument) : bool :=
  match a with BinOp _ _ _ => true | _ => false end.

Definition is_None {A} (o : option A) : bool :=
  match o with None => true | Some _ => false end.

(** ** The operand parser *)

(** [parse_word]: pops characters while they belong to [valid]; returns the
    word and what is left of [elems]. *)
Fixpoint parse_word (valid : string) (elems : list ascii)
  : string * list ascii :=
  match elems with
  | c :: rest =>
      if char_in c valid
      then let '(word, rest') := parse_word valid rest in (String c word, rest')
      else (EmptyString, elems)
  | [] => (EmptyString, [])
  end.

(** The words of [valid_number] characters that [ast.literal_eval] reads as
    a float: decimal digits, [e] or [E], decimal digits, with at most one
    minus sign in front and one after the [e] (both [e] and [E] are
    hexadecimal digits, so [parse_word] lets them through). *)
Definition is_float_literal (number_str : string) : bool :=
  let unsigned :=
    match number_str with
    | String "-" s => s
    | _ => number_str
    end in
  let '(mantissa, rest) := parse_word digits (list_ascii_of_string unsigned) in
  match rest with
  | e :: exponent =>
      let exponent :=
        match exponent with
        | "-"%char :: exponent' => exponent'
        | _ => exponent
        end in
      (Ascii.eqb e "e" || Ascii.eqb e "E")
      && negb (String.eqb mantissa "")
      && negb (Nat.eqb (length exponent) 0)
      && forallb (fun c => char_in c digits) exponent
  | [] => false
  end.

Section Parser.

(** [ast.literal_eval] belongs to Python's library, not to this program:
    the parser is parameterised by it. On a word of [valid_number]
    characters it returns an int, returns a float, or raises.
    [literal_eval] gives the int, and [None] when there is none; the words
    that give a float are told apart by [is_float_literal]. *)
Variable literal_eval : string -> option Z.

(** [parse_number]. A float leaves the embedding ([FloatLiteral]): no
    result of the model stands for a NumberLiteral that holds one. *)
Definition parse_number (elems : list ascii) : result (Z * list ascii) :=
  let '(number_str, rest) := parse_word valid_number elems in
  if is_float_literal number_str then Err FloatLiteral
  else
    n ← from_option LiteralError (literal_eval number_str);
    Ok (n, rest).

(** The local function [expect] of [parse_arg_elems]. *)
Definition expect (n : string) (arg_elems : list ascii)
  : result (ascii * list ascii) :=
  match arg_elems with
  | [] => Err IndexError
  | g :: rest => if char_in g n then Ok (g, rest) else Err SysExit
  end.

(** [parse_arg_elems]: one call of [parse_loop] with [value = None]. The
    [while] loop is the recursion on [fuel] that carries [value]; the
    mutated list [arg_elems] is returned next to the result. *)
Fixpoint parse_loop (fuel : nat) (value : option Argument)
         (arg_elems : list ascii)
  : result (option Argument * list ascii) :=
  match fuel with
  | O => OutOfFuel
  | S fuel =>
    match arg_elems with
    | [] => Ok (value, [])
    | tok :: rest =>
      if isspace tok then
        parse_loop fuel value rest
      else if Ascii.eqb tok "$" then
        _ ← py_assert (is_None value);
        let '(w, rest1) := parse_word valid_word rest in
        parse_loop fuel (Some (Register w)) rest1
      else if Ascii.eqb tok "." then
        _ ← py_assert (is_None value);
        let '(w, rest1) := parse_word valid_word rest in
        parse_loop fuel (Some (JumpTarget w)) rest1
      else if Ascii.eqb tok "%" then
        _ ← py_assert (is_None value);
        let '(macro_name, rest1) := parse_word valid_word rest in
        _ ← py_assert (String.eqb macro_name "hi"
                       || String.eqb macro_name "lo");
        '(_, rest2) ← expect "(" rest1;
        '(m, rest3) ← parse_loop fuel None rest2;
        match m with
        | None => Err AssertionError
        | Some m =>
            '(_, rest4) ← expect ")" rest3;
            parse_loop fuel (Some (Macro macro_name m)) rest4
        end
      else if Ascii.eqb tok ")" then
        Ok (value, arg_elems)
      else if char_in tok ("-" +:+ digits) then
        _ ← py_assert (is_None value);
        '(n, rest1) ← parse_number arg_elems;
        parse_loop fuel (Some (NumberLiteral n)) rest1
      else if Ascii.eqb tok "(" then
        _ ← py_assert (match value with
                       | None => true
                       | Some v => is_NumberLiteral v || is_Macro v
                       end);
        '(_, rest1) ← expect "(" arg_elems;
        '(rhs, rest2) ← parse_loop fuel None rest1;
        match rhs with
        | None => Err AssertionError
        | Some rhs =>
            '(_, rest3) ← expect ")" rest2;
            parse_loop fuel (Some (AddressMode value rhs)) rest3
        end
      else if char_in tok valid_word then
        _ ← py_assert (is_None value);
        let '(w, rest1) := parse_word valid_word arg_elems in
        parse_loop fuel (Some (GlobalSymbol w)) rest1
      else if char_in tok ">+&" then
        match value with
        | Some lhs =>
            _ ← py_assert (is_NumberLiteral lhs || is_GlobalSymbol lhs);
            '(op, rest1) ←
              (if Ascii.eqb tok ">" then
                 '(_, r1) ← expect ">" arg_elems;
                 '(_, r2) ← expect ">" r1;
                 Ok (">>", r2)
               else
                 '(g, r1) ← expect "&+" arg_elems;
                 Ok (String g EmptyString, r1));
            '(rhs, rest2) ← parse_loop fuel None rest1;
            match rhs with
            | Some (NumberLiteral n) =>
                Ok (Some (BinOp op lhs (NumberLiteral n)), rest2)
            | _ => Err AssertionError
            end
        | None => Err AssertionError
        end
      else
        Err SysExit
    end
  end.

Definition parse_arg_elems (fuel : nat) (arg_elems : list ascii)
  : result (option Argument * list ascii) :=
  parse_loop fuel None arg_elems.

(** Every turn of the loop pops a character, so one unit of fuel per
    character and one for the final test is enough (lemma
    [parse_arg_total] below). *)
Definition parse_arg (arg : string) : result (option Argument) :=
  let arg_elems := list_ascii_of_string arg in
  '(value, _) ← parse_arg_elems (S (length arg_elems)) arg_elems;
  Ok value.

End Parser.

(** ** Equality of the attrs classes ([__eq__] compares the fields) *)

#[global] Instance Argument_eq_dec : EqDecision Argument.
Proof.
  unfold EqDecision, Decision. fix go 1.
  decide equality;
    try apply String.string_dec; try apply Z.eq_dec; decide equality.
Defined.

(** ** Instructions, labels, functions, blocks *)

Record Instruction : Type := mkInstruction {
  mnemonic : string;
  args : list Argument
}.

Definition branch_mnemonics : list string :=
  ["b"; "beq"; "bne"; "bgez"; "bgtz"; "blez"; "bltz"].

Definition is_branch_instruction (self : Instruction) : bool :=
  bool_decide (mnemonic self ∈ branch_mnemonics).

Record Label : Type := mkLabel {
  name : string
}.

(** An element of a function body: [Union[Instruction, Label]]. *)
Inductive BodyItem : Type :=
| ItemLabel (l : Label)
| ItemInstruction (i : Instruction).

Record Function : Type := mkFunction {
  function_name : string;
  body : list BodyItem
}.

(** [Block.instructions] is annotated [List[Instruction]], but the block
    builder appends the element after a branch through [typing.cast], which
    checks nothing: the list holds body items. *)
Record Block : Type := mkBlock {
  index : nat;
  label : option Label;
  instructions : list BodyItem
}.

#[global] Instance Instruction_eq_dec : EqDecision Instruction.
Proof. solve_decision. Defined.
#[global] Instance Label_eq_dec : EqDecision Label.
Proof. solve_decision. Defined.
#[global] Instance BodyItem_eq_dec : EqDecision BodyItem.
Proof. solve_decision. Defined.
#[global] Instance Block_eq_dec : EqDecision Block.
Proof. solve_decision. Defined.

(** ** Nodes *)

Inductive Node : Type :=
| BasicNode (block : Block) (exit_edge : Node)
| ExitNode (block : Block)
| ConditionalNode (block : Block) (conditional_edge fallthrough_edge : Node).

#[global] Instance Node_eq_dec : EqDecision Node.
Proof. solve_decision. Defined.

(** The attribute [block], which every Node class has. *)
Definition node_block (node : Node) : Block :=
  match node with
  | BasicNode block _ => block
  | ExitNode block => block
  | ConditionalNode block _ _ => block
  end.



Record FlowAnalysis : Type := mkFlowAnalysis {
  nodes : list Node
}.

(** ** The block builder (first half of [do_flow_analysis]) *)

(** The variables the closures [new_block] and [take_instruction] share. *)
Record Builder : Type := mkBuilder {
  blocks : list Block;
  curr_index : nat;
  curr_label : option Label;
  curr_instructions : list BodyItem
}.

Definition new_block (st : Builder) : Builder :=
  if Nat.eqb (length (curr_instructions st)) 0 then st
  else
    let block :=
      mkBlock (curr_index st) (curr_label st) (curr_instructions st) in
    {| blocks := blocks st ++ [block];
       curr_index := curr_index st + 1;
       curr_label := None;
       curr_instructions := [] |}.

Definition take_instruction (instruction : BodyItem) (st : Builder)
  : Builder :=
  {| blocks := blocks st;
     curr_index := curr_index st;
     curr_label := curr_label st;
     curr_instructions := curr_instructions st ++ [instruction] |}.

Definition set_curr_label (item : Label) (st : Builder) : Builder :=
  {| blocks := blocks st;
     curr_index := curr_index st;
     curr_label := Some item;
     curr_instructions := curr_instructions st |}.

(** The [for item in body_iter] loop; [next(body_iter)] takes the element
    after a branch whatever it is and raises [StopIteration] at the end. *)
Fixpoint build_loop (body_iter : list BodyItem) (st : Builder)
  : result Builder :=
  match body_iter with
  | [] => Ok st
  | ItemLabel item :: rest =>
      build_loop rest (set_curr_label item (new_block st))
  | ItemInstruction item :: rest =>
      let st := take_instruction (ItemInstruction item) st in
      if is_branch_instruction item then
        match rest with
        | [] => Err StopIteration
        | delay_slot :: rest' =>
            build_loop rest' (new_block (take_instruction delay_slot st))
        end
      else build_loop rest st
  end.

Definition build_blocks (function : Function) : result (list Block) :=
  st ← build_loop (body function) (mkBuilder [] 0 None []);
  Ok (blocks (new_block st)).

(** ** The flow analysis (second half of [do_flow_analysis]) *)

Definition find_block_by_label (blocks : list Block) (target : string)
  : option Block :=
  List.find (fun block =>
               match label block with
               | Some l => String.eqb (name l) target
               | None => false
               end) blocks.

(** [[inst for inst in block.instructions if inst.is_branch_instruction()]]:
    a [Label] in the list has no such method. *)
Fixpoint branches_of (instructions : list BodyItem)
  : result (list Instruction) :=
  match instructions with
  | [] => Ok []
  | ItemLabel _ :: _ => Err AttributeError
  | ItemInstruction inst :: rest =>
      branches ← branches_of rest;
      Ok (if is_branch_instruction inst then inst :: branches else branches)
  end.

(** The [for node in nodes] search of [get_block_analysis]. *)
Definition lookup_node (nodes : list Node) (block : Block) : option Node :=
  List.find (fun node => bool_decide (node_block node = block)) nodes.

Section Analysis.

Variable blocks : list Block.

(** [do_block_analysis]; [get_block_analysis] is the function it recurses
    through, with the list [nodes] threaded along. *)
Definition do_block_analysis
           (get_block_analysis :
              list Node -> Block -> result (Node * list Node))
           (nodes : list Node) (block : Block)
  : result (Node * list Node) :=
  branches ← branches_of (instructions block);
  match branches with
  | [] =>
      exit_block ← from_option IndexError (blocks !! (index block + 1));
      '(exit_node, nodes) ← get_block_analysis nodes exit_block;
      Ok (BasicNode block exit_node, nodes)
  | [branch] =>
      branch_label ← from_option IndexError (last (args branch));
      match branch_label with
      | JumpTarget target =>
          branch_block ← from_option AssertionError
                           (find_block_by_label blocks target);
          '(branch_node, nodes) ← get_block_analysis nodes branch_block;
          if String.eqb (mnemonic branch) "b" then
            Ok (BasicNode block branch_node, nodes)
          else
            _ ← py_assert (Nat.ltb (index block + 1) (length blocks));
            fallthrough_block ←
              from_option IndexError (blocks !! (index block + 1));
            '(fallthrough_node, nodes) ←
              get_block_analysis nodes fallthrough_block;
            Ok (ConditionalNode block branch_node fallthrough_node, nodes)
      | _ => Err AssertionError
      end
  | _ => Err SysExit
  end.

Fixpoint get_block_analysis (fuel : nat) (nodes : list Node)
         (block : Block) : result (Node * list Node) :=
  match lookup_node nodes block with
  | Some node => Ok (node, nodes)
  | None =>
      match fuel with
      | O => OutOfFuel
      | S fuel =>
          '(node, nodes) ←
            do_block_analysis (get_block_analysis fuel) nodes block;
          Ok (node, nodes ++ [node])
      end
  end.

End Analysis.

(** [nodes.sort(key=lambda node: node.block.index)]: a stable sort. *)
Fixpoint insert_node (node : Node) (sorted : list Node) : list Node :=
  match sorted with
  | [] => [node]
  | other :: rest =>
      if Nat.leb (index (node_block node)) (index (node_block other))
      then node :: sorted
      else other :: insert_node node rest
  end.

Definition sort_nodes (nodes : list Node) : list Node :=
  foldr insert_node [] nodes.

Definition do_flow_analysis (fuel : nat) (function : Function)
  : result FlowAnalysis :=
  blocks ← build_blocks function;
  exit_block ← from_option IndexError (last blocks);
  let nodes := [ExitNode exit_block] in
  entrance_block ← from_option IndexError (blocks !! 0);
  '(_, nodes) ← get_block_analysis blocks fuel nodes entrance_block;
  Ok (mkFlowAnalysis (sort_nodes nodes)).

(** ** Intermediate representation of the lifter *)

(** What a register or a store can hold (annotated [Any] in the source):
    parser Arguments as leaves, [None], the pair that [div] produces, and an
    [AddressMode] whose [rhs] has been replaced by a register's contents
    (built by [deref]). *)
Inductive Expr : Type :=
| EArg (a : Argument)
| ENone
| BinaryOp (left : Expr) (op : string) (right : Expr)
| UnaryOp (op : string) (expr : Expr)
| Cast (to_type : string) (expr : Expr)
| TypeHint (type : string) (value : Expr)
| ETuple (hi lo : Expr)
| EAddressMode (lhs : option Argument) (rhs : Expr)
| Return.

Record Store : Type := mkStore {
  size : Z;
  source : Expr;
  dest : Expr;
  float : bool
}.

(** [a[i]] on a list. *)
Definition arg_at (a : list Argument) (i : nat) : result Argument :=
  from_option IndexError (a !! i).

(** [reg[key]]: the keys of a register map are Registers, so any other
    Argument is a missing key. *)
Definition reg_get (reg : gmap string Expr) (key : Argument) : result Expr :=
  match key with
  | Register register_name => from_option KeyError (reg !! register_name)
  | _ => Err KeyError
  end.

(** [x.register_name], an attribute of [Register] only. *)
Definition register_name_of (a : Argument) : result string :=
  match a with
  | Register register_name => Ok register_name
  | _ => Err AttributeError
  end.

Definition load_upper (args : list Argument) (reg : gmap string Expr)
  : result Expr :=
  a1 ← arg_at args 1;
  match a1 with
  | BinOp op lhs rhs =>
      _ ← py_assert (String.eqb op ">>");
      _ ← py_assert (bool_decide (rhs = NumberLiteral 16));
      Ok (EArg lhs)
  | NumberLiteral _ => Ok (BinaryOp (EArg a1) "<<" (EArg (NumberLiteral 16)))
  | _ => Ok (EArg a1)
  end.

Definition handle_ori (args : list Argument) (reg : gmap string Expr)
  : result Expr :=
  a1 ← arg_at args 1;
  match a1 with
  | BinOp op lhs rhs =>
      _ ← py_assert (String.eqb op "&");
      _ ← py_assert (bool_decide (rhs = NumberLiteral 65535));
      Ok ENone
  | _ =>
      a0 ← arg_at args 0;
      left ← reg_get reg a0;
      Ok (BinaryOp left "<" (EArg a1))
  end.

Definition handle_addi (args : list Argument) (reg : gmap string Expr)
  : result Expr :=
  if Nat.eqb (length args) 2 then
    a1 ← arg_at args 1; Ok (EArg a1)
  else
    a1 ← arg_at args 1;
    base ← register_name_of a1;
    if String.eqb base "sp" then
      a2 ← arg_at args 2;
      _ ← py_assert (is_NumberLiteral a2);
      Ok (UnaryOp "&" (EArg (AddressMode (Some a2) (Register "sp"))))
    else
      left ← reg_get reg a1;
      a2 ← arg_at args 2;
      Ok (BinaryOp left "+" (EArg a2)).

Definition deref (arg : Argument) (reg : gmap string Expr) : result Expr :=
  match arg with
  | AddressMode lhs rhs =>
      match rhs with
      | Register register_name =>
          if String.eqb register_name "sp" then Ok (EArg arg)
          else
            v ← reg_get reg rhs;
            Ok (EAddressMode lhs v)
      | _ => Err AssertionError
      end
  | Register _ => reg_get reg arg
  | _ => Err AssertionError
  end.

(** ** The stack-frame analysis *)

(** The variables of [translate_to_ast] that [find_stack_info] assigns. *)
Record StackInfo : Type := mkStackInfo {
  allocated_stack_size : Z;
  is_leaf : bool;
  local_vars_region_bottom : Z;
  return_addr_location : Z;
  callee_save_reg_locations : gmap string Z
}.

Definition initial_stack_info : StackInfo :=
  mkStackInfo 0 true 0 0 ∅.

(** The offset an [sw … lhs(sp)] stores at: [lhs.value] when [lhs] is
    present (it must then be a NumberLiteral), 0 when it is [None]. *)
Definition offset_of (lhs : option Argument) : result Z :=
  match lhs with
  | Some (NumberLiteral value) => Ok value
  | Some _ => Err AssertionError
  | None => Ok 0%Z
  end.

(** One turn of the [for inst in start_node.block.instructions] loop. *)
Definition stack_info_step (info : StackInfo) (item : BodyItem)
  : result StackInfo :=
  match item with
  | ItemLabel _ => Err AttributeError
  | ItemInstruction inst =>
    match args inst with
    | [] => Ok info
    | destination :: _ =>
      if String.eqb (mnemonic inst) "addiu" then
        dest_name ← register_name_of destination;
        if String.eqb dest_name "sp" then
          a2 ← arg_at (args inst) 2;
          match a2 with
          | NumberLiteral value =>
              Ok (mkStackInfo (- value) (is_leaf info)
                              (local_vars_region_bottom info)
                              (return_addr_location info)
                              (callee_save_reg_locations info))
          | _ => Err AssertionError
          end
        else Ok info
      else if String.eqb (mnemonic inst) "sw" then
        dest_name ← register_name_of destination;
        if String.eqb dest_name "ra" then
          a1 ← arg_at (args inst) 1;
          match a1 with
          | AddressMode lhs (Register rhs_name) =>
              _ ← py_assert (String.eqb rhs_name "sp");
              location ← offset_of lhs;
              Ok (mkStackInfo (allocated_stack_size info) false
                              (local_vars_region_bottom info)
                              location
                              (callee_save_reg_locations info))
          | _ => Err AssertionError
          end
        else if name_is_callee_save dest_name then
          a1 ← arg_at (args inst) 1;
          match a1 with
          | AddressMode lhs (Register rhs_name) =>
              if String.eqb rhs_name "sp" then
                location ← offset_of lhs;
                Ok (mkStackInfo (allocated_stack_size info) (is_leaf info)
                                (local_vars_region_bottom info)
                                (return_addr_location info)
                                (<[dest_name := location]>
                                   (callee_save_reg_locations info)))
              else Ok info
          | _ => Ok info
          end
        else Ok info
      else Ok info
    end
  end.

Fixpoint stack_info_loop (info : StackInfo) (instructions : list BodyItem)
  : result StackInfo :=
  match instructions with
  | [] => Ok info
  | item :: rest =>
      info ← stack_info_step info item;
      stack_info_loop info rest
  end.

(** [max(d.values())] of a non-empty dict. *)
Definition max_value (d : gmap string Z) : option Z :=
  match (map_to_list d).*2 with
  | [] => None
  | v :: vs => Some (foldr Z.max v vs)
  end.

Definition find_stack_info (flow_analysis : FlowAnalysis)
  : result StackInfo :=
  start_node ← from_option IndexError (nodes flow_analysis !! 0);
  info ← stack_info_loop initial_stack_info
           (instructions (node_block start_node));
  let bottom :=
    if is_leaf info then
      match max_value (callee_save_reg_locations info) with
      | Some m => (m + 4)%Z      (* leaf with callee-save registers *)
      | None => 0%Z              (* leaf without them *)
      end
    else (return_addr_location info + 4)%Z in
  Ok (mkStackInfo (allocated_stack_size info) (is_leaf info) bottom
                  (return_addr_location info)
                  (callee_save_reg_locations info)).

Definition in_local_var_region (info : StackInfo) (location : Z) : bool :=
  Z.leb (local_vars_region_bottom info) location
  && Z.ltb location (allocated_stack_size info).

(** ** The instruction lifter *)

(** A dict literal with string keys, in source order. *)
Fixpoint dict_get {V} (d : list (string * V)) (key : string) : option V :=
  match d with
  | [] => None
  | (k, v) :: d' => if String.eqb key k then Some v else dict_get d' key
  end.

(** [key in d]. *)
Definition dict_has {V} (d : list (string * V)) (key : string) : bool :=
  match dict_get d key with
  | Some _ => true
  | None => false
  end.

Definition handler (A : Type) : Type := list Argument -> result A.

Section Cases.

(** The handler tables are closures over the register map of the block
    being lifted. *)
Variable reg : gmap string Expr.

Definition store_case (size : Z) (float : bool) : handler Store :=
  fun a =>
    a0 ← arg_at a 0; source ← reg_get reg a0;
    a1 ← arg_at a 1; dest ← deref a1 reg;
    Ok (mkStore size source dest float).

(** [BinaryOp(left=reg[a[i]], op=op, right=reg[a[j]])] *)
Definition binary_rr (i : nat) (op : string) (j : nat) : handler Expr :=
  fun a =>
    ai ← arg_at a i; left ← reg_get reg ai;
    aj ← arg_at a j; right ← reg_get reg aj;
    Ok (BinaryOp left op right).

(** [BinaryOp(left=reg[a[i]], op=op, right=a[j])] *)
Definition binary_ra (i : nat) (op : string) (j : nat) : handler Expr :=
  fun a =>
    ai ← arg_at a i; left ← reg_get reg ai;
    aj ← arg_at a j;
    Ok (BinaryOp left op (EArg aj)).

(** [BinaryOp(left=reg[a[0]], op=op, right=NumberLiteral(0))] *)
Definition binary_r0 (op : string) : handler Expr :=
  fun a =>
    a0 ← arg_at a 0; left ← reg_get reg a0;
    Ok (BinaryOp left op (EArg (NumberLiteral 0))).

(** [Cast(to_type=to_type, expr=reg[a[i]])] *)
Definition cast_case (to_type : string) (i : nat) : handler Expr :=
  fun a => ai ← arg_at a i; expr ← reg_get reg ai; Ok (Cast to_type expr).

(** [TypeHint(type=type, value=deref(a[1], reg))] *)
Definition load_case (type : string) : handler Expr :=
  fun a => a1 ← arg_at a 1; value ← deref a1 reg; Ok (TypeHint type value).

(** [reg[a[i]]] *)
Definition read_case (i : nat) : handler Expr :=
  fun a => ai ← arg_at a i; reg_get reg ai.

Definition cases_source_first_expression : list (string * handler Store) :=
  [ ("sb", store_case 8 false);
    ("sh", store_case 16 false);
    ("sw", store_case 32 false);
    ("swc1", store_case 32 true);
    ("sdc1", store_case 64 true) ].

Definition cases_source_first_register : list (string * handler Expr) :=
  [ ("mtc1", cast_case "f32" 0) ].

Definition cases_branches : list (string * handler Expr) :=
  [ ("b", fun a => a1 ← arg_at a 1; Ok (EArg a1));
    ("beq", binary_rr 0 "==" 1);
    ("bne", binary_rr 0 "!=" 1);
    ("beqz", binary_r0 "==");
    ("bnez", binary_r0 "!=");
    ("blez", binary_r0 "<=");
    ("bgtz", binary_r0 ">");
    ("bltz", binary_r0 "<");
    ("bgez", binary_r0 ">=") ].

(** The float-branch handlers return the argument list itself and are
    never called; their result is not represented. *)
Definition cases_float_branches : list (string * handler unit) :=
  [ ("bc1t", fun a => Ok tt);
    ("bc1f", fun a => Ok tt) ].

Definition cases_jumps : list (string * handler Expr) :=
  [ ("jal", fun a => a0 ← arg_at a 0; Ok (EArg a0));
    ("jr", fun a => Ok Return) ].

Definition cases_float_comp : list (string * handler Expr) :=
  [ ("c.eq.s", binary_rr 0 "==" 1);
    ("c.le.s", binary_rr 0 "<=" 1);
    ("c.lt.s", binary_rr 0 "<" 1) ].

Definition cases_special : list (string * handler Expr) :=
  [ ("lui", fun a => load_upper a reg);
    ("ori", fun a => handle_ori a reg);
    ("addi", fun a => handle_addi a reg) ].

Definition cases_destination_first : list (string * handler Expr) :=
  [ ("slt", binary_rr 1 "<" 2);
    ("slti", binary_ra 1 "<" 2);
    ("addu", binary_rr 1 "+" 2);
    ("multu", binary_rr 1 "*" 2);
    ("subu", binary_rr 1 "-" 2);
    ("div", fun a =>
       hi ← binary_rr 1 "/" 2 a;
       lo ← binary_rr 1 "%" 2 a;
       Ok (ETuple hi lo));
    ("negu", fun a =>
       a1 ← arg_at a 1; expr ← reg_get reg a1; Ok (UnaryOp "-" expr));
    ("mfhi", fun a => reg_get reg (Register "hi"));
    ("mflo", fun a => reg_get reg (Register "lo"));
    ("div.s", binary_rr 1 "/" 2);
    ("cvt.d.s", cast_case "(f64)" 1);
    ("cvt.s.d", cast_case "(f32)" 1);
    ("cvt.w.d", cast_case "(s32)" 1);
    ("trunc.w.s", cast_case "(s32)" 1);
    ("trunc.w.d", cast_case "(s32)" 1);
    ("and", binary_rr 1 "&" 2);
    ("or", binary_rr 1 "^" 2);
    ("xor", binary_rr 1 "^" 2);
    ("andi", binary_ra 1 "&" 2);
    ("xori", binary_ra 1 "^" 2);
    ("sll", binary_ra 1 "<<" 2);
    ("srl", binary_ra 1 ">>" 2);
    ("move", read_case 1);
    ("mfc1", read_case 1);
    ("li", fun a => a1 ← arg_at a 1; Ok (EArg a1));
    ("lb", load_case "s8");
    ("lh", load_case "s16");
    ("lw", load_case "s32");
    ("lbu", load_case "u8");
    ("lhu", load_case "u16");
    ("lwu", load_case "u32");
    ("lwc1", load_case "f32");
    ("ldc1", load_case "f64") ].

End Cases.

Definition cases_repeats : list (string * string) :=
  [ ("addiu", "addi");
    ("divu", "div");
    ("add.s", "addu");
    ("mul.s", "multu");
    ("sub.s", "subu");
    ("add.d", "addu");
    ("div.d", "div.s");
    ("mul.d", "mulu");
    ("sub.d", "subu");
    ("cvt.d.w", "cvt.d.s");
    ("cvt.s.w", "cvt.s.d");
    ("cvt.w.s", "cvt.w.d");
    ("c.lt.d", "c.lt.s");
    ("c.eq.d", "c.eq.s");
    ("c.le.d", "c.le.s");
    ("sra", "srl");
    ("sltiu", "slti");
    ("sltu", "slt") ].

(** [arg.argument if isinstance(arg, Macro) else arg] *)
Definition unwrap_macro (arg : Argument) : Argument :=
  match arg with
  | Macro _ argument => argument
  | _ => arg
  end.

(** The state of the [for instr in block.instructions] loop: the register
    map, mutated in place, and the list [to_store]. *)
Definition LiftState : Type := (gmap string Expr * list Store)%type.

(** [reg[instr.args[0]] = case(instr.args)], after
    [assert isinstance(instr.args[i], Register)]. *)
Definition assign_register (i : nat) (case : handler Expr)
           (args : list Argument) (reg : gmap string Expr)
  : result (gmap string Expr) :=
  ai ← arg_at args i;
  match ai with
  | Register register_name =>
      v ← case args;
      Ok (<[register_name := v]> reg)
  | _ => Err AssertionError
  end.

(** One turn of the loop of [translate_block_body]. *)
Definition translate_instruction (st : LiftState) (item : BodyItem)
  : result LiftState :=
  let '(reg, to_store) := st in
  match item with
  | ItemLabel _ => Err AttributeError
  | ItemInstruction instr =>
    let mnemonic :=
      match dict_get cases_repeats (mnemonic instr) with
      | Some true_mnemonic => true_mnemonic
      | None => mnemonic instr
      end in
    if String.eqb mnemonic "nop" then Ok st
    else
      let instr := mkInstruction mnemonic (map unwrap_macro (args instr)) in
      match dict_get (cases_source_first_expression reg) mnemonic with
      | Some case => s ← case (args instr); Ok (reg, to_store ++ [s])
      | None =>
      match dict_get (cases_source_first_register reg) mnemonic with
      | Some case =>
          reg ← assign_register 1 case (args instr) reg; Ok (reg, to_store)
      | None =>
      if dict_has (cases_branches reg) mnemonic then Ok st
      else if dict_has cases_float_branches mnemonic then Ok st
      else
      match dict_get cases_jumps mnemonic with
      | Some case =>
          result ← case (args instr);
          match result with
          | Return => _ ← py_assert (String.eqb mnemonic "jr"); Ok st
          | _ => _ ← py_assert (String.eqb mnemonic "jal"); Ok st
          end
      | None =>
      if dict_has (cases_float_comp reg) mnemonic then Ok st
      else
      match dict_get (cases_special reg) mnemonic with
      | Some case =>
          reg ← assign_register 0 case (args instr) reg; Ok (reg, to_store)
      | None =>
      match dict_get (cases_destination_first reg) mnemonic with
      | Some case =>
          reg ← assign_register 0 case (args instr) reg; Ok (reg, to_store)
      | None => Err (UnknownMnemonic mnemonic)
      end end end end end
  end.

Fixpoint translate_loop (st : LiftState) (instructions : list BodyItem)
  : result LiftState :=
  match instructions with
  | [] => Ok st
  | instr :: rest =>
      st ← translate_instruction st instr;
      translate_loop st rest
  end.

(** [translate_block_body] returns nothing; the result here is what it
    prints at the end: [to_store] and the final register states. *)
Definition translate_block_body (block : Block) (reg : gmap string Expr)
  : result LiftState :=
  translate_loop (reg, []) (instructions block).

(** ** [translate_to_ast] *)

(** [{Register('zero'): NumberLiteral(0)}] *)
Definition zero_register_map : gmap string Expr :=
  {[ "zero" := EArg (NumberLiteral 0) ]}.

(** One call of [translate_block_body] made by [translate_to_ast]: the
    block and register map it was given and how it ended. *)
Record Call : Type := mkCall {
  call_block : Block;
  call_reg : gmap string Expr;
  call_outcome : result LiftState
}.

(** The loop [for i, node in enumerate(flow_analysis.nodes)]. The handler
    [except Exception] catches every exception but not [SystemExit]. *)
Fixpoint translate_nodes (i : nat) (nodes : list Node) : result (list Call) :=
  match nodes with
  | [] => Ok []
  | node :: rest =>
      if Nat.eqb i 0 then translate_nodes (S i) rest
      else
        let reg := zero_register_map in
        let outcome := translate_block_body (node_block node) reg in
        match outcome with
        | Err SysExit => Err SysExit
        | _ =>
            calls ← translate_nodes (S i) rest;
            Ok (mkCall (node_block node) reg outcome :: calls)
        end
  end.

(** The result collects what [translate_to_ast] prints: the stack facts and
    one record per call of [translate_block_body]. *)
Definition translate_to_ast (fuel : nat) (function : Function)
  : result (StackInfo * list Call) :=
  flow_analysis ← do_flow_analysis fuel function;
  info ← find_stack_info flow_analysis;
  calls ← translate_nodes 0 (nodes flow_analysis);
  Ok (info, calls).

(** * Vocabulary of the properties and concrete inputs *)

(** ** Parser *)

(** What is left of an operand once the leading white space is skipped. *)
Fixpoint lstrip (elems : list ascii) : list ascii :=
  match elems with
  | c :: rest => if isspace c then lstrip rest else elems
  | [] => []
  end.

(** The operand is blank, or its first character that is not white space is
    a closing parenthesis. *)
Definition starts_blank_or_closing (elems : list ascii) : Prop :=
  match lstrip elems with
  | [] => True
  | c :: _ => c = ")"%char
  end.

Definition blank_or_closing (arg : string) : Prop :=
  starts_blank_or_closing (list_ascii_of_string arg).

(** The fuel was enough, and what the result leaves of the input is no
    longer than [n]. *)
Definition leaves_at_most {A} (n : nat) (r : result (A * list ascii))
  : Prop :=
  match r with
  | Ok (_, rest) => length rest <= n
  | Err _ => True
  | OutOfFuel => False
  end.

(** [parse_loop] returns [r] when given enough fuel. *)
Definition parses (literal_eval : string -> option Z)
           (value : option Argument) (elems : list ascii)
           (r : option Argument * list ascii) : Prop :=
  exists fuel, parse_loop literal_eval fuel value elems = Ok r.

(** Every character of [s] belongs to [valid]. *)
Fixpoint all_chars (valid : string) (s : string) : bool :=
  match s with
  | EmptyString => true
  | String c s' => char_in c valid && all_chars valid s'
  end.

(** A symbol name as the parser can read one: a non-empty word that does
    not start with a digit. *)
Definition symbol_name_ok (s : string) : bool :=
  match s with
  | EmptyString => false
  | String c _ => negb (char_in c digits) && all_chars valid_word s
  end.

(** The Arguments of the data model: names are words, macros are [hi] or
    [lo], the [lhs] of an address mode is a number or a macro, a binary
    operator is [>>], [&] or [+] between a number or symbol and a number. *)
Fixpoint canonical (a : Argument) : bool :=
  match a with
  | Register register_name => all_chars valid_word register_name
  | GlobalSymbol symbol_name => symbol_name_ok symbol_name
  | Macro macro_name argument =>
      (String.eqb macro_name "hi" || String.eqb macro_name "lo")
      && canonical argument
  | NumberLiteral _ => true
  | AddressMode lhs rhs =>
      match lhs with
      | Some l => (is_NumberLiteral l || is_Macro l) && canonical l
      | None => true
      end && canonical rhs
  | BinOp op lhs rhs =>
      (String.eqb op ">>" || String.eqb op "&" || String.eqb op "+")
      && (is_NumberLiteral lhs || is_GlobalSymbol lhs) && canonical lhs
      && is_NumberLiteral rhs
  | JumpTarget target => all_chars valid_word target
  end.

(** A canonical operand string: what [__str__] prints for a canonical
    Argument. *)
Definition canonical_operand (s : string) (a : Argument) : Prop :=
  canonical a = true /\ s = Argument_str a.

(** [s] is followed by nothing or by a closing parenthesis. *)
Definition at_end (rest : list ascii) : Prop :=
  rest = [] \/ exists r, rest = ")"%char :: r.

(** [rest] does not continue a word or a number. *)
Definition delimited (rest : list ascii) : Prop :=
  match rest with
  | [] => True
  | c :: _ => char_in c valid_word = false /\ char_in c valid_number = false
  end.

(** An evaluator of the integer literals that [hex] prints, as an instance
    of the parameter [literal_eval]. *)
Definition literal_eval_hex (s : string) : option Z :=
  let z := HexString.to_Z s in
  if String.eqb (hex z) s then Some z else None.

(** ** Block builder *)

(** A body element that is an instruction and not a branch. *)
Definition is_plain (item : BodyItem) : bool :=
  match item with
  | ItemInstruction i => negb (is_branch_instruction i)
  | ItemLabel _ => false
  end.

(** The property as worded: whatever branch occurs in the block is followed
    by exactly one more instruction, with which the block ends. *)
Definition every_branch_has_delay_slot (block : Block) : Prop :=
  forall pre i post,
    instructions block = pre ++ ItemInstruction i :: post ->
    is_branch_instruction i = true ->
    exists d, post = [ItemInstruction d].

(** What the builder does: plain instructions, then possibly one branch and
    the body element that came after it, whatever that is. *)
Definition ends_with_branch_and_slot (instructions : list BodyItem) : Prop :=
  exists pre,
    forallb is_plain pre = true
    /\ (instructions = pre
        \/ exists branch slot,
             is_branch_instruction branch = true
             /\ instructions = pre ++ [ItemInstruction branch; slot]).

Definition instr (mnemonic : string) (args : list Argument) : BodyItem :=
  ItemInstruction (mkInstruction mnemonic args).

(** [b .L1 ; beq $a0, $a1, .L1 ; nop ; .L1: jr $ra ; nop]: a branch in the
    delay slot of a branch. *)
Definition branch_in_delay_slot : Function :=
  mkFunction "f"
    [ instr "b" [JumpTarget "L1"];
      instr "beq" [Register "a0"; Register "a1"; JumpTarget "L1"];
      instr "nop" [];
      ItemLabel (mkLabel "L1");
      instr "jr" [Register "ra"];
      instr "nop" [] ].

Definition branch_in_delay_slot_block0 : Block :=
  mkBlock 0 None
    [ instr "b" [JumpTarget "L1"];
      instr "beq" [Register "a0"; Register "a1"; JumpTarget "L1"] ].

Definition branch_in_delay_slot_blocks : list Block :=
  [ branch_in_delay_slot_block0;
    mkBlock 1 None [ instr "nop" [] ];
    mkBlock 2 (Some (mkLabel "L1"))
      [ instr "jr" [Register "ra"]; instr "nop" [] ] ].

(** Invariant of the builder loop: the blocks emitted so far have the shape
    above and the pending instructions are plain. *)
Definition builder_ok (st : Builder) : Prop :=
  Forall (fun b => ends_with_branch_and_slot (instructions b)) (blocks st)
  /\ forallb is_plain (curr_instructions st) = true.

(** ** Stack-frame analysis *)

(** The immediate of an [addiu] whose first argument is [$sp]. *)
Definition sp_adjust_of (item : BodyItem) : option Z :=
  match item with
  | ItemInstruction inst =>
      if String.eqb (mnemonic inst) "addiu" then
        match args inst with
        | Register r :: _ :: NumberLiteral value :: _ =>
            if String.eqb r "sp" then Some value else None
        | _ => None
        end
      else None
  | ItemLabel _ => None
  end.

(** The immediates of the [addiu]s to [$sp] of a block, in order. *)
Definition sp_adjusts (instructions : list BodyItem) : list Z :=
  omap sp_adjust_of instructions.

(** The property as worded: [N] of the first [addiu sp, sp, -N]. *)
Definition first_stack_allocation (instructions : list BodyItem)
  : option Z :=
  match List.filter (fun value => Z.ltb value 0) (sp_adjusts instructions) with
  | value :: _ => Some (Z.abs value)
  | [] => None
  end.

(** A function made of a single block, with its prologue and epilogue:
    [addiu $sp, $sp, -0x18 ; sw $ra, 0x14($sp) ; jal foo ; nop ;
     lw $ra, 0x14($sp) ; addiu $sp, $sp, 0x18 ; jr $ra ; nop]. *)
Definition prologue_epilogue_body : list BodyItem :=
  [ instr "addiu" [Register "sp"; Register "sp"; NumberLiteral (-24)];
    instr "sw" [Register "ra";
                AddressMode (Some (NumberLiteral 20)) (Register "sp")];
    instr "jal" [GlobalSymbol "foo"];
    instr "nop" [];
    instr "lw" [Register "ra";
                AddressMode (Some (NumberLiteral 20)) (Register "sp")];
    instr "addiu" [Register "sp"; Register "sp"; NumberLiteral 24];
    instr "jr" [Register "ra"];
    instr "nop" [] ].

Definition prologue_epilogue : Function :=
  mkFunction "f" prologue_epilogue_body.

Definition prologue_epilogue_flow : FlowAnalysis :=
  mkFlowAnalysis [ExitNode (mkBlock 0 None prologue_epilogue_body)].

Definition prologue_epilogue_info : StackInfo :=
  mkStackInfo (-24) false 24 20 ∅.

(** ** Instruction lifter *)

(** The mnemonic set the specification lists as recognised. *)
Definition recognised_mnemonics : list string :=
  [ "sb"; "sh"; "sw"; "swc1"; "sdc1"; "mtc1";
    "b"; "beq"; "bne"; "beqz"; "bnez"; "blez"; "bgtz"; "bltz"; "bgez";
    "bc1t"; "bc1f"; "jal"; "jr"; "c.eq.s"; "c.le.s"; "c.lt.s";
    "lui"; "ori"; "addi";
    "slt"; "slti"; "addu"; "multu"; "subu"; "div"; "negu"; "mfhi"; "mflo";
    "div.s"; "cvt.d.s"; "cvt.s.d"; "cvt.w.d"; "trunc.w.s"; "trunc.w.d";
    "and"; "or"; "xor"; "andi"; "xori"; "sll"; "srl"; "move"; "mfc1"; "li";
    "lb"; "lh"; "lw"; "lbu"; "lhu"; "lwu"; "lwc1"; "ldc1";
    "nop";
    "addiu"; "divu"; "add.s"; "mul.s"; "sub.s"; "add.d"; "div.d"; "mul.d";
    "sub.d"; "cvt.d.w"; "cvt.s.w"; "cvt.w.s"; "c.lt.d"; "c.eq.d"; "c.le.d";
    "sra"; "sltiu"; "sltu" ].

(** The lifter reached [assert False, "I don't know how to handle …"]. *)
Definition is_unknown_mnemonic {A} (r : result A) : bool :=
  match r with
  | Err (UnknownMnemonic _) => true
  | _ => false
  end.

(** [li $zero, 0x1] *)
Definition writes_zero_block : Block :=
  mkBlock 1 None [ instr "li" [Register "zero"; NumberLiteral 1] ].

(** [mul.d $f0, $f2, $f4] *)
Definition mul_d_block : Block :=
  mkBlock 1 None
    [ instr "mul.d" [Register "f0"; Register "f2"; Register "f4"] ].

(** Invariant of the builder loop: the next index is the number of blocks
    emitted, and each block's index is its position. *)
Definition indexed (blocks : list Block) : Prop :=
  forall i block, blocks !! i = Some block -> index block = i.

Definition builder_indexed (st : Builder) : Prop :=
  curr_index st = length (blocks st) /\ indexed (blocks st).

(** ** Flow analysis *)

Definition never_ok {A} (r : result A) : Prop := forall a, r <> Ok a.

(** A function that answers from the node list when it can, as
    [get_block_analysis] does. *)
Definition memoising (g : list Node -> Block -> result (Node * list Node))
  : Prop :=
  forall nodes block node,
    lookup_node nodes block = Some node -> g nodes block = Ok (node, nodes).

(** [do_block_analysis] on [X] first asks for the node of [Y]: [Y] is the
    next block when [X] has no branch, the target of its branch otherwise. *)
Definition first_successor (blocks : list Block) (X Y : Block) : Prop :=
  (branches_of (instructions X) = Ok []
   /\ blocks !! (index X + 1) = Some Y)
  \/ (exists branch target,
        branches_of (instructions X) = Ok [branch]
        /\ last (args branch) = Some (JumpTarget target)
        /\ find_block_by_label blocks target = Some Y).

(** [X] ends in a conditional branch to [T] and falls through to [Y]. *)
Definition second_successor (blocks : list Block) (X T Y : Block) : Prop :=
  exists branch target,
    branches_of (instructions X) = Ok [branch]
    /\ last (args branch) = Some (JumpTarget target)
    /\ find_block_by_label blocks target = Some T
    /\ String.eqb (mnemonic branch) "b" = false
    /\ blocks !! (index X + 1) = Some Y.

(** With the node list [nodes], the analysis of [X] cannot finish before
    that of [Y] does. *)
Definition waits_for (blocks : list Block) (nodes : list Node)
           (X Y : Block) : Prop :=
  first_successor blocks X Y
  \/ exists T, second_successor blocks X T Y
               /\ is_Some (lookup_node nodes T).

(** Blocks without a node, each waiting for one of them: a cycle. *)
Definition stuck (blocks : list Block) (nodes : list Node)
           (cycle : list Block) : Prop :=
  forall X, X ∈ cycle ->
    lookup_node nodes X = None
    /\ exists Y, Y ∈ cycle /\ waits_for blocks nodes X Y.

(** The blocks being analysed when [get_block_analysis] is entered for
    [block]: none has a node, and each waits for a later one or for
    [block]. *)
Definition pending (blocks : list Block) (nodes : list Node)
           (stack : list Block) (block : Block) : Prop :=
  forall X, X ∈ stack ->
    lookup_node nodes X = None
    /\ exists Y, Y ∈ stack ++ [block] /\ waits_for blocks nodes X Y.

(** How the node of a block is wired to the nodes of its successors. *)
Definition wired (blocks : list Block) (node : Node) : Prop :=
  match node with
  | ExitNode block => last blocks = Some block
  | BasicNode block exit_edge =>
      first_successor blocks block (node_block exit_edge)
      /\ (forall branch,
            branches_of (instructions block) = Ok [branch] ->
            mnemonic branch = "b")
  | ConditionalNode block conditional_edge fallthrough_edge =>
      second_successor blocks block (node_block conditional_edge)
                       (node_block fallthrough_edge)
  end.

Definition node_good (blocks : list Block) (node : Node) : Prop :=
  node_block node ∈ blocks /\ wired blocks node.

(** Nodes in the order of their block indices. *)
Definition index_le (a b : Node) : Prop :=
  index (node_block a) <= index (node_block b).

(** [.L1: nop ; b .L1 ; nop ; jr $ra ; nop]: a loop followed by the
    return. *)
Definition loop_block0 : Block :=
  mkBlock 0 (Some (mkLabel "L1"))
    [ instr "nop" []; instr "b" [JumpTarget "L1"]; instr "nop" [] ].

Definition loop_block1 : Block :=
  mkBlock 1 None [ instr "jr" [Register "ra"]; instr "nop" [] ].

Definition loop_function : Function :=
  mkFunction "f"
    [ ItemLabel (mkLabel "L1");
      instr "nop" []; instr "b" [JumpTarget "L1"]; instr "nop" [];
      instr "jr" [Register "ra"]; instr "nop" [] ].




(** [bnez $a0, .L2 ; nop ; .L1: b .L3 ; nop ; .L2: b .L1 ; nop ;
     .L3: jr $ra ; nop]: block 2 jumps back to block 1, which is analysed
    before it. *)
Definition backward_jump_function : Function :=
  mkFunction "f"
    [ instr "bne" [Register "a0"; Register "zero"; JumpTarget "L2"];
      instr "nop" [];
      ItemLabel (mkLabel "L1");
      instr "b" [JumpTarget "L3"]; instr "nop" [];
      ItemLabel (mkLabel "L2");
      instr "b" [JumpTarget "L1"]; instr "nop" [];
      ItemLabel (mkLabel "L3");
      instr "jr" [Register "ra"]; instr "nop" [] ].

Definition backward_block0 : Block :=
  mkBlock 0 None
    [ instr "bne" [Register "a0"; Register "zero"; JumpTarget "L2"];
      instr "nop" [] ].
Definition backward_block1 : Block :=
  mkBlock 1 (Some (mkLabel "L1"))
    [ instr "b" [JumpTarget "L3"]; instr "nop" [] ].
Definition backward_block2 : Block :=
  mkBlock 2 (Some (mkLabel "L2"))
    [ instr "b" [JumpTarget "L1"]; instr "nop" [] ].
Definition backward_block3 : Block :=
  mkBlock 3 (Some (mkLabel "L3"))
    [ instr "jr" [Register "ra"]; instr "nop" [] ].

Definition backward_blocks : list Block :=
  [backward_block0; backward_block1; backward_block2; backward_block3].

Definition backward_node1 : Node :=
  BasicNode backward_block1 (ExitNode backward_block3).
Definition backward_node2 : Node :=
  BasicNode backward_block2 backward_node1.

Definition backward_flow : FlowAnalysis :=
  mkFlowAnalysis
    [ ConditionalNode backward_block0 backward_node2 backward_node1;
      backward_node1; backward_node2; ExitNode backward_block3 ].

(** The call [translate_to_ast] makes for a node. *)
Definition call_of (node : Node) : Call :=
  mkCall (node_block node) zero_register_map
         (translate_block_body (node_block node) zero_register_map).

(** The result is not the fatal "I don't know how to handle". *)
Definition known {A} (r : result A) : Prop :=
  is_unknown_mnemonic r = false.

(** The name dispatch goes by, after the alias table. *)
Definition true_mnemonic (mnemonic : string) : string :=
  match dict_get cases_repeats mnemonic with
  | Some true_mnemonic => true_mnemonic
  | None => mnemonic
  end.

(** The mnemonic of the item belongs to the recognised set after alias
    normalisation; a label has none. *)
Definition recognised (item : BodyItem) : Prop :=
  match item with
  | ItemInstruction instr =>
      true_mnemonic (mnemonic instr) ∈ recognised_mnemonics
  | ItemLabel _ => True
  end.

(** The mnemonic is [nop] or a key of one of the handler tables, once the
    alias table has been applied. *)
Definition handled (mnemonic : string) : bool :=
  let m := true_mnemonic mnemonic in
  String.eqb m "nop"
  || dict_has (cases_source_first_expression ∅) m
  || dict_has (cases_source_first_register ∅) m
  || dict_has (cases_branches ∅) m
  || dict_has cases_float_branches m
  || dict_has cases_jumps m
  || dict_has (cases_float_comp ∅) m
  || dict_has (cases_special ∅) m
  || dict_has (cases_destination_first ∅) m.

(** No handler of the table answers "I don't know how to handle". *)
Definition known_table {A} (d : list (string * handler A)) : Prop :=
  Forall (fun entry => forall a, known (entry.2 a)) d.

(** * Lines of assembly: [Instruction.__str__] and [parse_instruction] *)

(** [str.strip()]: white space removed at both ends. *)
Definition rstrip (elems : list ascii) : list ascii :=
  rev (lstrip (rev elems)).

Definition strip (s : string) : string :=
  string_of_list_ascii (rstrip (lstrip (list_ascii_of_string s))).

(** [s.partition(' ')]: what comes before the first space and what comes
    after it (the separator itself is dropped by the caller); the whole
    string and the empty string when there is no space. *)
Fixpoint partition_space (s : string) : string * string :=
  match s with
  | EmptyString => (EmptyString, EmptyString)
  | String c s' =>
      if Ascii.eqb c " " then (EmptyString, s')
      else let '(before, after) := partition_space s' in
           (String c before, after)
  end.

(** [s.split(sep)] for a separator of one character: the pieces between
    the separators; one empty piece for the empty string. *)
Fixpoint str_split (sep : ascii) (s : string) : list string :=
  match s with
  | EmptyString => [EmptyString]
  | String c s' =>
      if Ascii.eqb c sep then EmptyString :: str_split sep s'
      else match str_split sep s' with
           | piece :: pieces => String c piece :: pieces
           | [] => [String c EmptyString]
           end
  end.

(** [sep.join(pieces)] *)
Fixpoint join (sep : string) (pieces : list string) : string :=
  match pieces with
  | [] => EmptyString
  | [piece] => piece
  | piece :: pieces' => piece +:+ sep +:+ join sep pieces'
  end.

(** [Instruction.__str__] *)
Definition Instruction_str (self : Instruction) : string :=
  "    " +:+ mnemonic self +:+ " "
  +:+ join ", " (Argument_str <$> args self).

(** [Label.__str__] *)
Definition Label_str (self : Label) : string :=
  "  ." +:+ name self +:+ ":".

(** A list comprehension over a fallible function: the elements are
    computed from left to right and the first exception ends it. *)
Fixpoint map_result {A B} (f : A -> result B) (l : list A)
  : result (list B) :=
  match l with
  | [] => Ok []
  | x :: l' =>
      y ← f x;
      ys ← map_result f l';
      Ok (y :: ys)
  end.

(** [parse_instruction]. [filter(None, …)] drops the [None]s: every
    Argument object is truthy. *)
Definition parse_instruction (literal_eval : string -> option Z)
           (line : string) : result Instruction :=
  let line := strip line in
  let '(mnemonic, args_str) := partition_space line in
  parsed ← map_result (fun arg_str => parse_arg literal_eval (strip arg_str))
                      (str_split "," args_str);
  Ok (mkInstruction mnemonic (omap id parsed)).
(** * Reading a program: [Program], [decompile], [main] *)

(** ** [Function.__str__] and [Program.__str__] *)

Definition newline : string := String "010" EmptyString.

Definition BodyItem_str (item : BodyItem) : string :=
  match item with
  | ItemLabel label => Label_str label
  | ItemInstruction instruction => Instruction_str instruction
  end.

(** [Function.__str__] *)
Definition Function_str (self : Function) : string :=
  "glabel " +:+ function_name self +:+ newline
  +:+ join newline (BodyItem_str <$> body self).

(** [Program]. The attribute [current_function] is [None] until the first
    [new_function] and from then on the Function appended last to
    [functions], the same object: it is read off the list. *)
Record Program : Type := mkProgram {
  filename : string;
  functions : list Function
}.

(** [Program.__str__] *)
Definition Program_str (self : Program) : string :=
  "# " +:+ filename self +:+ newline
  +:+ join (newline +:+ newline) (Function_str <$> functions self).

(** [Program.new_function] *)
Definition new_function (name : string) (self : Program) : Program :=
  mkProgram (filename self) (functions self ++ [mkFunction name []]).

(** [self.current_function.body.append(item)], which the list [functions]
    sees; [None] when there is no current function. *)
Fixpoint append_to_current (item : BodyItem) (functions : list Function)
  : option (list Function) :=
  match functions with
  | [] => None
  | [current_function] =>
      Some [mkFunction (function_name current_function)
                       (body current_function ++ [item])]
  | function :: rest =>
      match append_to_current item rest with
      | Some rest' => Some (function :: rest')
      | None => None
      end
  end.

(** [Program.new_instruction], with its [assert]. *)
Definition new_instruction (instruction : Instruction) (self : Program)
  : result Program :=
  functions ← from_option AssertionError
                (append_to_current (ItemInstruction instruction)
                                   (functions self));
  Ok (mkProgram (filename self) functions).

(** [Program.new_label]: [None] has no attribute [new_label]. *)
Definition new_label (label_name : string) (self : Program)
  : result Program :=
  functions ← from_option AttributeError
                (append_to_current (ItemLabel (mkLabel label_name))
                                   (functions self));
  Ok (mkProgram (filename self) functions).

(** ** The lines of a file *)

(** What [for line in f] yields for a file of content [text] that is opened
    as [main] opens it, in text mode with universal newlines: a line ends
    at a line feed, at a carriage return, or at a carriage return followed
    by a line feed. Each line is given without its terminator; there is no
    last empty line after a final terminator. *)
Fixpoint lines_of (text : string) : list string :=
  match text with
  | EmptyString => []
  | String c text' =>
      if Ascii.eqb c "010" then EmptyString :: lines_of text'
      else if Ascii.eqb c "013" then
        match text' with
        | String "010" text'' => EmptyString :: lines_of text''
        | _ => EmptyString :: lines_of text'
        end
      else match lines_of text' with
           | line :: lines => String c line :: lines
           | [] => [String c EmptyString]
           end
  end.

(** ** Comments *)

(** What follows the last [*/] of [elems], if there is one. *)
Fixpoint after_last_close (elems : list ascii) : option (list ascii) :=
  match elems with
  | [] => None
  | c :: rest =>
      match after_last_close rest with
      | Some after => Some after
      | None =>
          match rest with
          | next :: after =>
              if Ascii.eqb c "*" && Ascii.eqb next "/" then Some after
              else None
          | [] => None
          end
      end
  end.

(** [re.sub(r'/\*.*\*/', '', line)] on a line of a file, which holds no
    line feed but its terminator: the match starts at the leftmost [/*] that
    has a [*/] after it and, [.*] being greedy, ends with the last [*/] of
    the line; what is left after it holds no [*/], so nothing matches
    twice. *)
Fixpoint remove_block_comment (elems : list ascii) : list ascii :=
  match elems with
  | [] => []
  | c :: rest =>
      let found :=
        match rest with
        | next :: inside =>
            if Ascii.eqb c "/" && Ascii.eqb next "*"
            then after_last_close inside
            else None
        | [] => None
        end in
      match found with
      | Some after => after
      | None => c :: remove_block_comment rest
      end
  end.

(** [re.sub(r'#.*$', '', line)] on a line of a file: everything from the
    first [#] on goes ([$] matches before the terminator, which [strip]
    removes next). *)
Fixpoint remove_line_comment (elems : list ascii) : list ascii :=
  match elems with
  | [] => []
  | c :: rest =>
      if Ascii.eqb c "#" then [] else c :: remove_line_comment rest
  end.

(** The first three statements of the loop body. *)
Definition clean (line : string) : string :=
  strip (string_of_list_ascii
           (remove_line_comment
              (remove_block_comment (list_ascii_of_string line)))).

(** ** The classification of a line *)

(** [line.startswith(prefix)] *)
Definition startswith (line prefix : string) : bool :=
  String.prefix prefix line.

(** [line.endswith(suffix)] *)
Definition endswith (line suffix : string) : bool :=
  String.prefix
    (string_of_list_ascii (rev (list_ascii_of_string suffix)))
    (string_of_list_ascii (rev (list_ascii_of_string line))).

(** [line.strip(chars)] *)
Fixpoint lstrip_chars (chars : string) (elems : list ascii) : list ascii :=
  match elems with
  | c :: rest => if char_in c chars then lstrip_chars chars rest else elems
  | [] => []
  end.

Definition strip_chars (chars line : string) : string :=
  string_of_list_ascii
    (rev (lstrip_chars chars
            (rev (lstrip_chars chars (list_ascii_of_string line))))).

Section Decompile.

Variable literal_eval : string -> option Z.

(** One turn of the loop [for line in f]. *)
Definition decompile_line (program : Program) (line : string)
  : result Program :=
  let line := clean line in
  if String.eqb line "" then Ok program
  else if startswith line "." && endswith line ":" then
    new_label (strip_chars ".:" line) program
  else if startswith line "." then Ok program
  else if startswith line "glabel" then
    function_name ← from_option IndexError (str_split " " line !! 1);
    Ok (new_function function_name program)
  else
    instruction ← parse_instruction literal_eval line;
    new_instruction instruction program.

Fixpoint decompile_loop (program : Program) (f : list string)
  : result Program :=
  match f with
  | [] => Ok program
  | line :: rest =>
      program ← decompile_line program line;
      decompile_loop program rest
  end.

(** [decompile]; [f] is given by its lines. What it prints is left out:
    the second function, then the nodes of its flow analysis. *)
Definition decompile (fuel : nat) (filename : string) (f : list string)
  : result Program :=
  program ← decompile_loop (mkProgram filename []) f;
  function ← from_option IndexError (functions program !! 1);
  _ ← do_flow_analysis fuel function;
  Ok program.

(** [main], on the lines of the file it opens. *)
Definition main (fuel : nat) (filename : string) (f : list string)
  : result unit :=
  program ← decompile fuel filename f;
  function ← from_option IndexError (functions program !! 1);
  _ ← translate_to_ast fuel function;
  Ok tt.

End Decompile.

(** * Vocabulary of further properties *)

(** ** Parser *)

(** The value the parser loop carries is [None] or a canonical Argument. *)
Definition canonical_value (value : option Argument) : Prop :=
  match value with
  | Some a => canonical a = true
  | None => True
  end.

(** The next character does not belong to [valid]. *)
Definition stops_at (valid : string) (rest : list ascii) : Prop :=
  match rest with
  | [] => True
  | c :: _ => char_in c valid = false
  end.

(** ** Lines of assembly *)

(** A mnemonic that [Instruction.__str__] prints and [parse_instruction]
    reads back: not empty, and free of white space. *)
Definition mnemonic_ok (mnemonic : string) : bool :=
  negb (String.eqb mnemonic "")
  && forallb (fun c => negb (isspace c)) (list_ascii_of_string mnemonic).

(** No white space in [elems]. *)
Definition solid (elems : list ascii) : Prop :=
  Forall (fun c => isspace c = false) elems.

(** [elems] starts with a character that is not white space. *)
Definition starts_solid (elems : list ascii) : Prop :=
  exists c rest, elems = c :: rest /\ isspace c = false.

(** [elems] ends with a character that is not white space. *)
Definition ends_solid (elems : list ascii) : Prop :=
  exists front c, elems = front ++ [c] /\ isspace c = false.

(** ** Block builder *)

Definition is_instruction (item : BodyItem) : bool :=
  match item with
  | ItemInstruction _ => true
  | ItemLabel _ => false
  end.

(** What the builder has taken so far: the instructions of the blocks
    emitted, then the pending ones. *)
Definition taken (st : Builder) : list BodyItem :=
  concat (instructions <$> blocks st) ++ curr_instructions st.

(** No emitted block is empty. *)
Definition builder_filled (st : Builder) : Prop :=
  Forall (fun block => instructions block <> []) (blocks st).

(** ** Flow analysis *)

(** Nodes in the strict order of their block indices. *)
Definition index_lt (a b : Node) : Prop :=
  index (node_block a) < index (node_block b).

(** The nodes a node points to. *)
Definition edges (node : Node) : list Node :=
  match node with
  | BasicNode _ exit_edge => [exit_edge]
  | ExitNode _ => []
  | ConditionalNode _ conditional_edge fallthrough_edge =>
      [conditional_edge; fallthrough_edge]
  end.

(** Every edge of a node of the list leads to a node of the list. *)
Definition closed (nodes : list Node) : Prop :=
  forall node edge, node ∈ nodes -> edge ∈ edges node -> edge ∈ nodes.

(** Every branch of [blocks] goes to a block of greater index. *)
Definition forward (blocks : list Block) : Prop :=
  forall X T branch target,
    X ∈ blocks ->
    branches_of (instructions X) = Ok [branch] ->
    last (args branch) = Some (JumpTarget target) ->
    find_block_by_label blocks target = Some T ->
    index X < index T.

(** [Y] is a block whose node the analysis of [X] asks for: the next block
    when [X] has no branch, the target of its branch, and the next block
    again when the branch is conditional. *)
Definition successor (blocks : list Block) (X Y : Block) : Prop :=
  first_successor blocks X Y \/ exists T, second_successor blocks X T Y.

(** Blocks that the analysis cannot leave: the last block of the function
    is not one of them, and each has a successor among them. *)
Definition trap (blocks : list Block) (exit_block : Block)
           (cycle : list Block) : Prop :=
  (exit_block ∉ cycle)
  /\ forall X, X ∈ cycle -> exists Y, Y ∈ cycle /\ successor blocks X Y.

(** [.L0: beq $a0, $zero, .L2 ; nop ; b .L0 ; nop ; .L2: nop ;
    .L3: jr $ra ; nop]: a while loop, left by the branch at its head. *)
Definition while_block0 : Block :=
  mkBlock 0 (Some (mkLabel "L0"))
    [ instr "beq" [Register "a0"; Register "zero"; JumpTarget "L2"];
      instr "nop" [] ].

Definition while_block1 : Block :=
  mkBlock 1 None [ instr "b" [JumpTarget "L0"]; instr "nop" [] ].

Definition while_block2 : Block :=
  mkBlock 2 (Some (mkLabel "L2")) [ instr "nop" [] ].

Definition while_block3 : Block :=
  mkBlock 3 (Some (mkLabel "L3"))
    [ instr "jr" [Register "ra"]; instr "nop" [] ].

Definition while_function : Function :=
  mkFunction "f"
    [ ItemLabel (mkLabel "L0");
      instr "beq" [Register "a0"; Register "zero"; JumpTarget "L2"];
      instr "nop" [];
      instr "b" [JumpTarget "L0"]; instr "nop" [];
      ItemLabel (mkLabel "L2"); instr "nop" [];
      ItemLabel (mkLabel "L3"); instr "jr" [Register "ra"]; instr "nop" [] ].

(** [beq $a0, $zero, .L1 ; nop ; li $v0, 1 ; .L1: jr $ra ; nop]: a branch
    forward, over one instruction. *)
Definition skip_function : Function :=
  mkFunction "f"
    [ instr "beq" [Register "a0"; Register "zero"; JumpTarget "L1"];
      instr "nop" [];
      instr "li" [Register "v0"; NumberLiteral 1];
      ItemLabel (mkLabel "L1");
      instr "jr" [Register "ra"]; instr "nop" [] ].

Definition skip_blocks : list Block :=
  [ mkBlock 0 None
      [ instr "beq" [Register "a0"; Register "zero"; JumpTarget "L1"];
        instr "nop" [] ];
    mkBlock 1 None [ instr "li" [Register "v0"; NumberLiteral 1] ];
    mkBlock 2 (Some (mkLabel "L1"))
      [ instr "jr" [Register "ra"]; instr "nop" [] ] ].

(** ** Stack-frame analysis *)

(** [sw $ra, …]: the instruction that saves the return address. *)
Definition saves_ra (item : BodyItem) : bool :=
  match item with
  | ItemInstruction inst =>
      String.eqb (mnemonic inst) "sw"
      && match args inst with
         | Register register_name :: _ => String.eqb register_name "ra"
         | _ => false
         end
  | ItemLabel _ => false
  end.

(** [sw $r, location($sp)], with whatever follows the two operands. *)
Definition saves_register (register_name : string) (location : Z)
           (item : BodyItem) : Prop :=
  exists lhs rest,
    item = instr "sw" (Register register_name
                         :: AddressMode lhs (Register "sp") :: rest)
    /\ offset_of lhs = Ok location.

(** [addiu $sp, $sp, -0x10 ; sw $s0, 4($sp) ; sw $s1, 8($sp) ; jr $ra ;
    nop]: a leaf that saves two registers. *)
Definition leaf_body : list BodyItem :=
  [ instr "addiu" [Register "sp"; Register "sp"; NumberLiteral (-16)];
    instr "sw" [Register "s0";
                AddressMode (Some (NumberLiteral 4)) (Register "sp")];
    instr "sw" [Register "s1";
                AddressMode (Some (NumberLiteral 8)) (Register "sp")];
    instr "jr" [Register "ra"];
    instr "nop" [] ].

Definition leaf_flow : FlowAnalysis :=
  mkFlowAnalysis [ExitNode (mkBlock 0 None leaf_body)].

Definition leaf_info : StackInfo :=
  mkStackInfo 16 true 12 0 (<["s1" := 8%Z]> (<["s0" := 4%Z]> ∅)).

(** [addiu $sp, $sp, -0x20 ; sw $ra, 0x10($sp) ; sw $s0, 0x14($sp) ;
    jr $ra ; nop]: not a leaf, with a register saved above the return
    address. *)
Definition saved_above_body : list BodyItem :=
  [ instr "addiu" [Register "sp"; Register "sp"; NumberLiteral (-32)];
    instr "sw" [Register "ra";
                AddressMode (Some (NumberLiteral 16)) (Register "sp")];
    instr "sw" [Register "s0";
                AddressMode (Some (NumberLiteral 20)) (Register "sp")];
    instr "jr" [Register "ra"];
    instr "nop" [] ].

Definition saved_above_flow : FlowAnalysis :=
  mkFlowAnalysis [ExitNode (mkBlock 0 None saved_above_body)].

(** ** Instruction lifter *)

(** The operand an instruction assigns to: the second one for [mtc1], the
    first one for the instructions of the special and the destination-first
    tables, none for the other instructions. *)
Definition written_operand (instr : Instruction) : option Argument :=
  let m := true_mnemonic (mnemonic instr) in
  let a := map unwrap_macro (args instr) in
  if dict_has (cases_source_first_register ∅) m then a !! 1
  else if dict_has (cases_special ∅) m
          || dict_has (cases_destination_first ∅) m then a !! 0
  else None.

(** The width and the float flag of the Store a store instruction makes. *)
Definition store_kind (item : BodyItem) : option (Z * bool) :=
  match item with
  | ItemInstruction instr =>
      let m := true_mnemonic (mnemonic instr) in
      if String.eqb m "sb" then Some (8%Z, false)
      else if String.eqb m "sh" then Some (16%Z, false)
      else if String.eqb m "sw" then Some (32%Z, false)
      else if String.eqb m "swc1" then Some (32%Z, true)
      else if String.eqb m "sdc1" then Some (64%Z, true)
      else None
  | ItemLabel _ => None
  end.

(** The instructions the lifter passes over: [nop], the branches, the
    float comparisons and [jr]. *)
Definition passed_over (mnemonic : string) : bool :=
  let m := true_mnemonic mnemonic in
  String.eqb m "nop"
  || dict_has (cases_branches ∅) m
  || dict_has cases_float_branches m
  || dict_has (cases_float_comp ∅) m
  || String.eqb m "jr".

(** The result is a value, or an exception that [except Exception]
    catches. *)
Definition caught {A} (r : result A) : Prop :=
  match r with
  | Ok _ => True
  | Err SysExit => False
  | Err _ => True
  | OutOfFuel => False
  end.

Definition caught_table {A} (d : list (string * handler A)) : Prop :=
  Forall (fun entry => forall a, caught (entry.2 a)) d.

(** [sb $zero, 4($sp) ; nop ; sdc1 $zero, ($sp)] *)
Definition stores_block : Block :=
  mkBlock 1 None
    [ instr "sb" [Register "zero";
                  AddressMode (Some (NumberLiteral 4)) (Register "sp")];
      instr "nop" [];
      instr "sdc1" [Register "zero"; AddressMode None (Register "sp")] ].

Definition stores_block_stores : list Store :=
  [ mkStore 8 (EArg (NumberLiteral 0))
      (EArg (AddressMode (Some (NumberLiteral 4)) (Register "sp"))) false;
    mkStore 64 (EArg (NumberLiteral 0))
      (EArg (AddressMode None (Register "sp"))) true ].

(** ** Reading a program *)

(** The name a line gives to a new function: the second of the pieces
    between spaces of a line that starts with [glabel], once the comments
    and the white space around are removed. *)
Definition function_line_name (line : string) : option string :=
  let line := clean line in
  if startswith line "glabel" then str_split " " line !! 1 else None.

(** A line that adds nothing to the program: blank once the comments are
    removed, or an assembler directive. *)
Definition is_ignored (line : string) : bool :=
  let line := clean line in
  String.eqb line ""
  || (startswith line "." && negb (endswith line ":")).

(** A small file: two functions, comments, a directive and a label. *)
Definition two_functions_file : list string :=
  [ "# a file"; ".set noat  /* a directive */"; "";
    "glabel first"; "  jr $ra  # return"; " nop";
    "glabel second /* x */ # y";
    "  addiu $v0, $zero, 0x1"; ".L1:"; "  jr $ra"; "  nop" ].

Definition two_functions_program : Program :=
  mkProgram "a.s"
    [ mkFunction "first" [ instr "jr" [Register "ra"]; instr "nop" [] ];
      mkFunction "second"
        [ instr "addiu" [Register "v0"; Register "zero"; NumberLiteral 1];
          ItemLabel (mkLabel "L1");
          instr "jr" [Register "ra"]; instr "nop" [] ] ].

(** *** Programs that print to a file [decompile] reads back *)

(** A text that no line terminator cuts: it holds neither a line feed nor
    a carriage return. *)
Definition one_line (s : string) : bool :=
  forallb (fun c => negb (Ascii.eqb c "010" || Ascii.eqb c "013"))
          (list_ascii_of_string s).

(** A character that the comment patterns leave alone and that ends no
    line: not [#], not [*], neither a line feed nor a carriage return. *)
Definition plain_char (c : ascii) : bool :=
  negb (Ascii.eqb c "#" || Ascii.eqb c "*"
        || Ascii.eqb c "010" || Ascii.eqb c "013").

Definition plain_text (s : string) : bool :=
  forallb plain_char (list_ascii_of_string s).

(** No character of [chars] at either end of [s]. *)
Definition bare_ends (chars s : string) : bool :=
  match list_ascii_of_string s with
  | [] => true
  | c :: _ => negb (char_in c chars)
  end
  && match rev (list_ascii_of_string s) with
     | [] => true
     | c :: _ => negb (char_in c chars)
     end.

Definition function_name_ok (name : string) : bool :=
  mnemonic_ok name && plain_text name.

Definition label_name_ok (name : string) : bool :=
  plain_text name && bare_ends ".:" name.

(** An instruction whose line is taken for an instruction: the mnemonic
    does not make it a directive or a function line. *)
Definition instruction_ok (instruction : Instruction) : bool :=
  mnemonic_ok (mnemonic instruction)
  && plain_text (mnemonic instruction)
  && negb (startswith (mnemonic instruction) ".")
  && negb (startswith (mnemonic instruction) "glabel")
  && forallb canonical (args instruction).

Definition item_ok (item : BodyItem) : bool :=
  match item with
  | ItemLabel label => label_name_ok (name label)
  | ItemInstruction instruction => instruction_ok instruction
  end.

Definition function_ok (function : Function) : bool :=
  function_name_ok (function_name function)
  && forallb item_ok (body function).

Definition printable (program : Program) : bool :=
  one_line (filename program)
  && forallb function_ok (functions program).

(** * Properties of the operand parser *)

Section ParserFacts.

Variable literal_eval : string -> option Z.

Ltac break_match :=
  match goal with
  | H : context [match ?x with _ => _ end] |- _ => destruct x eqn:?
  | |- context [match ?x with _ => _ end] => destruct x eqn:?
  end.

Lemma parse_loop_keeps_value fuel :
  forall v elems r rest,
    parse_loop literal_eval fuel (Some v) elems = Ok (r, rest) -> r <> None.
Proof.
  induction fuel as [|fuel IH]; intros v elems r rest H; [discriminate|].
  destruct elems as [|tok elems']; cbn in H; [congruence|].
  unfold mbind, result_bind in H. cbn in H.
  repeat (break_match; try discriminate; try (eapply IH; eassumption); try congruence).
Qed.

Lemma parse_loop_none fuel :
  forall elems,
    length elems < fuel ->
    (exists rest, parse_loop literal_eval fuel None elems = Ok (None, rest))
    <-> starts_blank_or_closing elems.
Proof.
  unfold starts_blank_or_closing.
  induction fuel as [|fuel IH]; intros elems Hlen; [lia|].
  destruct elems as [|tok elems']; cbn [parse_loop lstrip].
  { split; eauto. }
  cbn [length] in Hlen.
  destruct (isspace tok) eqn:Hsp.
  { apply IH. lia. }
  destruct (Ascii.eqb tok ")") eqn:Hcl.
  { apply Ascii.eqb_eq in Hcl. subst tok. cbn. split; eauto. }
  split.
  - intros [rest H]. exfalso.
    unfold mbind, result_bind in H. cbn in H.
    repeat (break_match; try discriminate;
            try (eapply parse_loop_keeps_value; [eassumption|reflexivity]);
            try congruence).
  - intros ->. discriminate.
Qed.


Lemma parse_word_length valid elems :
  length (parse_word valid elems).2 <= length elems.
Proof.
  induction elems as [|c elems IH]; cbn; [lia|].
  destruct (char_in c valid); cbn; [|lia].
  destruct (parse_word valid elems); cbn in *. lia.
Qed.

Lemma minus_digit_valid_number c :
  char_in c ("-" +:+ digits) = true -> char_in c valid_number = true.
Proof.
  destruct c as [[] [] [] [] [] [] [] []]; vm_compute; auto.
Qed.


Lemma leaves_bind {A B} n m (r : result (A * list ascii))
      (f : A * list ascii -> result (B * list ascii)) :
  leaves_at_most n r ->
  (forall a rest, length rest <= n -> leaves_at_most m (f (a, rest))) ->
  leaves_at_most m (r ≫= f).
Proof.
  destruct r as [[a rest]| |]; cbn; auto.
Qed.

Lemma leaves_assert {B} m b (k : result (B * list ascii)) :
  leaves_at_most m k ->
  leaves_at_most m (py_assert b ≫= fun _ => k).
Proof. destruct b; cbn; auto. Qed.

Lemma leaves_mono {A} n m (r : result (A * list ascii)) :
  n <= m -> leaves_at_most n r -> leaves_at_most m r.
Proof. destruct r as [[a rest]| |]; cbn; auto. lia. Qed.

Lemma expect_length n elems :
  leaves_at_most (pred (length elems)) (expect n elems).
Proof.
  destruct elems as [|g rest]; cbn; [trivial|].
  destruct (char_in g n); cbn; trivial.
Qed.

Lemma parse_loop_enough_fuel fuel :
  forall value elems,
    length elems < fuel ->
    leaves_at_most (length elems) (parse_loop literal_eval fuel value elems).
Proof.
  induction fuel as [|fuel IH]; intros value elems Hlen; [lia|].
  destruct elems as [|tok elems']; cbn [parse_loop]; [cbn; lia|].
  cbn [length] in *.
  assert (Hrec : forall v e, length e <= length elems' ->
                   leaves_at_most (S (length elems')) (parse_loop literal_eval fuel v e)).
  { intros v e He. eapply leaves_mono; [|apply IH]; lia. }
  clear IH.
  destruct (isspace tok). { apply Hrec; lia. }
  destruct (Ascii.eqb tok "$").
  { apply leaves_assert.
    pose proof (parse_word_length valid_word elems') as Hw.
    destruct (parse_word valid_word elems'); cbn in Hw. apply Hrec; lia. }
  destruct (Ascii.eqb tok ".").
  { apply leaves_assert.
    pose proof (parse_word_length valid_word elems') as Hw.
    destruct (parse_word valid_word elems'); cbn in Hw. apply Hrec; lia. }
  destruct (Ascii.eqb tok "%").
  { apply leaves_assert.
    pose proof (parse_word_length valid_word elems') as Hw.
    destruct (parse_word valid_word elems') as [macro_name rest1]; cbn in Hw.
    apply leaves_assert.
    eapply leaves_bind; [apply expect_length|]. intros _ rest2 H2.
    eapply leaves_bind; [apply (Hrec None rest2); lia|].
    intros [m|] rest3 H3; [|exact I].
    eapply leaves_bind; [apply expect_length|]. intros _ rest4 H4.
    apply Hrec; lia. }
  destruct (Ascii.eqb tok ")"). { cbn. lia. }
  destruct (char_in tok ("-" +:+ digits)) eqn:Hdig.
  { apply leaves_assert. unfold parse_number.
    apply minus_digit_valid_number in Hdig.
    cbn [parse_word]. rewrite Hdig.
    pose proof (parse_word_length valid_number elems') as Hw.
    destruct (parse_word valid_number elems') as [w rest1]; cbn in Hw.
    destruct (is_float_literal (String tok w)); [exact I|].
    destruct (literal_eval (String tok w)); cbn; [|exact I].
    apply Hrec; lia. }
  destruct (Ascii.eqb tok "(").
  { apply leaves_assert.
    eapply leaves_bind; [apply expect_length|]. intros _ rest1 H1.
    cbn [length pred] in H1.
    eapply leaves_bind; [apply (Hrec None rest1); lia|].
    intros [rhs|] rest2 H2; [|exact I].
    eapply leaves_bind; [apply expect_length|]. intros _ rest3 H3.
    apply Hrec; lia. }
  destruct (char_in tok valid_word) eqn:Hword.
  { apply leaves_assert. cbn [parse_word]. rewrite Hword.
    pose proof (parse_word_length valid_word elems') as Hw.
    destruct (parse_word valid_word elems') as [w rest1]; cbn in Hw.
    apply Hrec; lia. }
  destruct (char_in tok ">+&"); [|exact I].
  destruct value as [lhs|]; [|exact I].
  apply leaves_assert.
  eapply (leaves_bind (length elems')).
  { destruct (Ascii.eqb tok ">").
    - eapply leaves_bind; [apply expect_length|]. intros _ r1 H1.
      cbn [length pred] in H1.
      eapply leaves_bind; [apply expect_length|]. intros _ r2 H2.
      cbn. lia.
    - eapply leaves_bind; [apply expect_length|]. intros g r1 H1.
      cbn in *. lia. }
  intros op rest1 H1.
  eapply leaves_bind; [apply (Hrec None rest1); lia|].
  intros [[]|] rest2 H2; cbn; try exact I. lia.
Qed.

(** [parse_arg] always has the fuel it needs. *)
Lemma parse_arg_total arg : parse_arg literal_eval arg <> OutOfFuel.
Proof.
  unfold parse_arg, parse_arg_elems.
  pose proof (parse_loop_enough_fuel
                (S (length (list_ascii_of_string arg))) None
                (list_ascii_of_string arg) ltac:(lia)) as H.
  destruct (parse_loop _ _ _ _) as [[v rest]| |]; cbn in *;
    [discriminate|discriminate|contradiction].
Qed.

(** C4, amended. [parse_arg] returns [None] exactly on the operands that,
    once leading white space is skipped, are empty or begin with a closing
    parenthesis; the empty string is one of them. *)
Theorem parse_arg_none_iff arg :
  parse_arg literal_eval arg = Ok None <-> blank_or_closing arg.
Proof.
  unfold blank_or_closing.
  rewrite <- (parse_loop_none
                (S (length (list_ascii_of_string arg)))) by lia.
  unfold parse_arg, parse_arg_elems.
  destruct (parse_loop _ _ _ _) as [[v rest]| |]; cbn; split.
  - intros [= ->]. eauto.
  - intros [r [= -> _]]. reflexivity.
  - discriminate.
  - intros [r H]. discriminate.
  - discriminate.
  - intros [r H]. discriminate.
Qed.


(** More fuel does not change a result that did not run out of fuel. *)
Lemma parse_loop_mono fuel :
  forall v e,
    parse_loop literal_eval fuel v e <> OutOfFuel ->
    parse_loop literal_eval (S fuel) v e = parse_loop literal_eval fuel v e.
Proof.
  induction fuel as [|fuel IH]; intros v e H; [now destruct H|].
  remember (parse_loop literal_eval (S fuel) v e) as r eqn:Hr.
  cbn [parse_loop] in Hr.
  remember (S fuel) as fuel1 eqn:Hf. clear Hf.
  cbn [parse_loop].
  destruct e as [|tok rest]; [now symmetry|].
  unfold mbind, result_bind, parse_number, py_assert in *.
  repeat first
    [ congruence
    | rewrite Hr; apply IH; rewrite <- Hr; exact H
    | match type of Hr with
      | context [parse_loop literal_eval fuel ?v ?e] =>
          let E := fresh "E" in
          let X := fresh "X" in
          pose proof (IH v e) as X;
          destruct (parse_loop literal_eval fuel v e) as [[? ?]| |] eqn:E;
          [rewrite X by discriminate
          |rewrite X by discriminate
          |congruence];
          clear X
      | context [match ?x with _ => _ end] => destruct x eqn:?
      end ].
Qed.

Lemma parse_loop_mono_le f f' v e :
  f <= f' ->
  parse_loop literal_eval f v e <> OutOfFuel ->
  parse_loop literal_eval f' v e = parse_loop literal_eval f v e.
Proof.
  induction 1 as [|f' _ IH]; [trivial|].
  intros H. rewrite parse_loop_mono; rewrite IH; trivial.
Qed.

Lemma parse_loop_mono_ok f f' v e r :
  f <= f' ->
  parse_loop literal_eval f v e = Ok r ->
  parse_loop literal_eval f' v e = Ok r.
Proof.
  intros Hle H. rewrite (parse_loop_mono_le f f') by congruence. exact H.
Qed.


Lemma list_ascii_app s1 s2 :
  list_ascii_of_string (s1 +:+ s2)
  = list_ascii_of_string s1 ++ list_ascii_of_string s2.
Proof.
  induction s1 as [|c s1 IH]; [reflexivity|].
  change (String c s1 +:+ s2) with (String c (s1 +:+ s2)).
  cbn. now rewrite IH.
Qed.

Lemma parse_word_app valid w rest :
  all_chars valid w = true ->
  match rest with [] => True | c :: _ => char_in c valid = false end ->
  parse_word valid (list_ascii_of_string w ++ rest) = (w, rest).
Proof.
  intros Hw Hrest. induction w as [|c w IH]; cbn in *.
  - destruct rest as [|c rest]; [reflexivity|]. cbn. now rewrite Hrest.
  - apply andb_true_iff in Hw as [Hc Hw]. rewrite Hc, (IH Hw). reflexivity.
Qed.



Lemma parses_at_end v rest :
  at_end rest -> parses literal_eval (Some v) rest (Some v, rest).
Proof.
  intros [->|[r ->]]; exists 1; reflexivity.
Qed.

Lemma of_pos_valid :
  forall (p : positive) (rest : string),
    all_chars valid_number rest = true ->
    all_chars valid_number (HexString.Raw.of_pos p rest) = true.
Proof.
  fix IH 1. intros p rest H.
  do 4 try destruct p as [p|p|]; cbn [HexString.Raw.of_pos];
    try apply IH; cbn; exact H.
Qed.

Lemma hex_valid z : all_chars valid_number (hex z) = true.
Proof.
  destruct z as [|p|p]; [reflexivity| |];
    cbn; apply of_pos_valid; reflexivity.
Qed.

Lemma hex_head z :
  exists c s, hex z = String c s /\ (c = "0"%char \/ c = "-"%char).
Proof.
  destruct z as [|p|p]; unfold hex, HexString.of_Z, HexString.of_pos; eauto.
Qed.

(** *** One turn of the loop, by leading character *)

Lemma space_step f v l :
  parse_loop literal_eval (S f) v (" "%char :: l)
  = parse_loop literal_eval f v l.
Proof. reflexivity. Qed.

Lemma register_step f l :
  parse_loop literal_eval (S f) None ("$"%char :: l)
  = let '(w, rest1) := parse_word valid_word l in
    parse_loop literal_eval f (Some (Register w)) rest1.
Proof. reflexivity. Qed.

Lemma jump_target_step f l :
  parse_loop literal_eval (S f) None ("."%char :: l)
  = let '(w, rest1) := parse_word valid_word l in
    parse_loop literal_eval f (Some (JumpTarget w)) rest1.
Proof. reflexivity. Qed.

Lemma number_step f c l :
  c = "0"%char \/ c = "-"%char ->
  parse_loop literal_eval (S f) None (c :: l)
  = '(n, rest1) ← parse_number literal_eval (c :: l);
    parse_loop literal_eval f (Some (NumberLiteral n)) rest1.
Proof. intros [->| ->]; reflexivity. Qed.

Lemma symbol_step f c l :
  char_in c valid_word = true -> char_in c digits = false ->
  parse_loop literal_eval (S f) None (c :: l)
  = let '(w, rest1) := parse_word valid_word (c :: l) in
    parse_loop literal_eval f (Some (GlobalSymbol w)) rest1.
Proof.
  intros Hw Hd. cbn [parse_loop].
  replace (isspace c) with false.
  2:{ destruct c as [[] [] [] [] [] [] [] []]; vm_compute in Hw |- *; congruence. }
  replace (Ascii.eqb c "$") with false.
  2:{ destruct c as [[] [] [] [] [] [] [] []]; vm_compute in Hw |- *; congruence. }
  replace (Ascii.eqb c ".") with false.
  2:{ destruct c as [[] [] [] [] [] [] [] []]; vm_compute in Hw |- *; congruence. }
  replace (Ascii.eqb c "%") with false.
  2:{ destruct c as [[] [] [] [] [] [] [] []]; vm_compute in Hw |- *; congruence. }
  replace (Ascii.eqb c ")") with false.
  2:{ destruct c as [[] [] [] [] [] [] [] []]; vm_compute in Hw |- *; congruence. }
  replace (char_in c ("-" +:+ digits)) with false.
  2:{ destruct c as [[] [] [] [] [] [] [] []]; vm_compute in Hw, Hd |- *; congruence. }
  replace (Ascii.eqb c "(") with false.
  2:{ destruct c as [[] [] [] [] [] [] [] []]; vm_compute in Hw |- *; congruence. }
  rewrite Hw. reflexivity.
Qed.

Lemma macro_step f m l :
  m = "hi" \/ m = "lo" ->
  parse_loop literal_eval (S f) None
             ("%"%char :: list_ascii_of_string m ++ "("%char :: l)
  = '(v, rest3) ← parse_loop literal_eval f None l;
    match v with
    | None => Err AssertionError
    | Some x =>
        '(_, rest4) ← expect ")" rest3;
        parse_loop literal_eval f (Some (Macro m x)) rest4
    end.
Proof. intros [-> | ->]; reflexivity. Qed.

Lemma address_step f v l :
  parse_loop literal_eval (S f) v ("("%char :: l)
  = _ ← py_assert (match v with
                   | None => true
                   | Some a => is_NumberLiteral a || is_Macro a
                   end);
    '(rhs, rest2) ← parse_loop literal_eval f None l;
    match rhs with
    | None => Err AssertionError
    | Some rhs =>
        '(_, rest3) ← expect ")" rest2;
        parse_loop literal_eval f (Some (AddressMode v rhs)) rest3
    end.
Proof. reflexivity. Qed.

Lemma binop_step f op lhs l :
  op = ">>" \/ op = "&" \/ op = "+" ->
  parse_loop literal_eval (S f) (Some lhs) (list_ascii_of_string op ++ l)
  = _ ← py_assert (is_NumberLiteral lhs || is_GlobalSymbol lhs);
    '(rhs, rest2) ← parse_loop literal_eval f None l;
    match rhs with
    | Some (NumberLiteral n) =>
        Ok (Some (BinOp op lhs (NumberLiteral n)), rest2)
    | _ => Err AssertionError
    end.
Proof. intros [-> | [-> | ->]]; reflexivity. Qed.

(** What [hex] prints is no float: an [x] follows its first digit. *)
Lemma hex_not_float z : is_float_literal (hex z) = false.
Proof.
  destruct z; unfold hex, HexString.of_Z, HexString.of_pos; reflexivity.
Qed.

Lemma parse_number_hex z rest :
  literal_eval (hex z) = Some z -> delimited rest ->
  parse_number literal_eval (list_ascii_of_string (hex z) ++ rest)
  = Ok (z, rest).
Proof.
  intros Hle Hrest. unfold parse_number.
  rewrite parse_word_app.
  - rewrite hex_not_float, Hle. reflexivity.
  - apply hex_valid.
  - destruct rest; [trivial|apply Hrest].
Qed.

(** *** Each form of operand, read back *)

Section RoundTrip.

Hypothesis literal_eval_hex_ok : forall z, literal_eval (hex z) = Some z.

Abbreviation chars := list_ascii_of_string.

Lemma at_end_delimited rest : at_end rest -> delimited rest.
Proof. intros [->|[r ->]]; cbn; auto. Qed.

Lemma parses_space v l r :
  parses literal_eval v l r -> parses literal_eval v (" "%char :: l) r.
Proof. intros [f H]. exists (S f). rewrite space_step. exact H. Qed.

Lemma parses_register n rest r :
  all_chars valid_word n = true -> delimited rest ->
  parses literal_eval (Some (Register n)) rest r ->
  parses literal_eval None ("$"%char :: chars n ++ rest) r.
Proof.
  intros Hn Hd [f H]. exists (S f).
  rewrite register_step, parse_word_app; [exact H|exact Hn|].
  destruct rest; [trivial|apply Hd].
Qed.

Lemma parses_jump_target n rest r :
  all_chars valid_word n = true -> delimited rest ->
  parses literal_eval (Some (JumpTarget n)) rest r ->
  parses literal_eval None ("."%char :: chars n ++ rest) r.
Proof.
  intros Hn Hd [f H]. exists (S f).
  rewrite jump_target_step, parse_word_app; [exact H|exact Hn|].
  destruct rest; [trivial|apply Hd].
Qed.

Lemma parses_symbol n rest r :
  symbol_name_ok n = true -> delimited rest ->
  parses literal_eval (Some (GlobalSymbol n)) rest r ->
  parses literal_eval None (chars n ++ rest) r.
Proof.
  intros Hn Hd [f H]. exists (S f).
  destruct n as [|c n]; [discriminate|].
  cbn [symbol_name_ok] in Hn.
  apply andb_true_iff in Hn as [Hc Hn]. apply negb_true_iff in Hc.
  assert (Hw : char_in c valid_word = true).
  { cbn [all_chars] in Hn. now apply andb_true_iff in Hn as [? _]. }
  change (chars (String c n) ++ rest) with (c :: chars n ++ rest).
  rewrite symbol_step by assumption.
  change (c :: chars n ++ rest) with (chars (String c n) ++ rest).
  rewrite parse_word_app; [exact H|exact Hn|].
  destruct rest; [trivial|apply Hd].
Qed.

Lemma parses_number z rest r :
  delimited rest ->
  parses literal_eval (Some (NumberLiteral z)) rest r ->
  parses literal_eval None (chars (hex z) ++ rest) r.
Proof.
  intros Hd [f H]. exists (S f).
  pose proof (parse_number_hex z rest (literal_eval_hex_ok z) Hd) as Hn.
  destruct (hex_head z) as (c & s & Hs & Hc).
  rewrite Hs in Hn |- *.
  change (chars (String c s) ++ rest) with (c :: chars s ++ rest) in Hn |- *.
  rewrite number_step, Hn by exact Hc. exact H.
Qed.

Lemma parses_macro m x l rest r :
  m = "hi" \/ m = "lo" ->
  parses literal_eval None l (Some x, ")"%char :: rest) ->
  parses literal_eval (Some (Macro m x)) rest r ->
  parses literal_eval None ("%"%char :: chars m ++ "("%char :: l) r.
Proof.
  intros Hm [f1 H1] [f2 H2].
  remember (max f1 f2) as f eqn:Hf. exists (S f).
  apply (parse_loop_mono_ok _ f) in H1; [|lia].
  apply (parse_loop_mono_ok _ f) in H2; [|lia]. clear Hf.
  rewrite macro_step by exact Hm. unfold mbind, result_bind.
  rewrite H1. exact H2.
Qed.

Lemma parses_address v x l rest r :
  match v with
  | Some a => is_NumberLiteral a || is_Macro a = true
  | None => True
  end ->
  parses literal_eval None l (Some x, ")"%char :: rest) ->
  parses literal_eval (Some (AddressMode v x)) rest r ->
  parses literal_eval v ("("%char :: l) r.
Proof.
  intros Hv [f1 H1] [f2 H2].
  remember (max f1 f2) as f eqn:Hf. exists (S f).
  apply (parse_loop_mono_ok _ f) in H1; [|lia].
  apply (parse_loop_mono_ok _ f) in H2; [|lia]. clear Hf.
  rewrite address_step. unfold mbind, result_bind.
  replace (py_assert _) with (Ok tt).
  2:{ destruct v; [rewrite Hv|]; reflexivity. }
  rewrite H1. exact H2.
Qed.

Lemma parses_binop op lhs n l rest :
  op = ">>" \/ op = "&" \/ op = "+" ->
  is_NumberLiteral lhs || is_GlobalSymbol lhs = true ->
  parses literal_eval None l (Some (NumberLiteral n), rest) ->
  parses literal_eval (Some lhs) (chars op ++ l)
         (Some (BinOp op lhs (NumberLiteral n)), rest).
Proof.
  intros Hop Hl [f H]. exists (S f).
  rewrite binop_step by exact Hop. unfold mbind, result_bind.
  rewrite Hl, H. reflexivity.
Qed.

Ltac flatten_chars :=
  cbn [Argument_str];
  repeat rewrite list_ascii_app;
  repeat rewrite <- app_assoc;
  cbn [list_ascii_of_string app].

Lemma canonical_read_back a :
  canonical a = true ->
  (is_BinOp a = false ->
   forall rest r,
     delimited rest ->
     parses literal_eval (Some a) rest r ->
     parses literal_eval None (chars (Argument_str a) ++ rest) r)
  /\ (forall rest,
        at_end rest ->
        parses literal_eval None (chars (Argument_str a) ++ rest)
               (Some a, rest)).
Proof.
  assert (Hend : forall a X,
            (forall rest r,
               delimited rest ->
               parses literal_eval (Some a) rest r ->
               parses literal_eval None (X ++ rest) r) ->
            forall rest, at_end rest ->
                         parses literal_eval None (X ++ rest) (Some a, rest)).
  { intros b X H rest Hrest. apply H.
    - now apply at_end_delimited.
    - now apply parses_at_end. }
  induction a as [n|n|m x IHx|z|lhs IHl x IHx|op lhs IHl rhs IHr|n];
    intros Hc; cbn [canonical] in Hc.
  - (* Register *)
    assert (H : forall rest r, delimited rest ->
                parses literal_eval (Some (Register n)) rest r ->
                parses literal_eval None
                       (chars (Argument_str (Register n)) ++ rest) r).
    { intros rest r Hd Hp. flatten_chars. now apply parses_register. }
    split; [intros _; exact H|apply Hend, H].
  - (* GlobalSymbol *)
    assert (H : forall rest r, delimited rest ->
                parses literal_eval (Some (GlobalSymbol n)) rest r ->
                parses literal_eval None
                       (chars (Argument_str (GlobalSymbol n)) ++ rest) r).
    { intros rest r Hd Hp. flatten_chars. now apply parses_symbol. }
    split; [intros _; exact H|apply Hend, H].
  - (* Macro *)
    apply andb_true_iff in Hc as [Hm Hx].
    destruct (IHx Hx) as [_ IHx2].
    assert (H : forall rest r, delimited rest ->
                parses literal_eval (Some (Macro m x)) rest r ->
                parses literal_eval None
                       (chars (Argument_str (Macro m x)) ++ rest) r).
    { intros rest r Hd Hp. flatten_chars.
      eapply parses_macro.
      - apply orb_true_iff in Hm as [Hm|Hm];
          apply String.eqb_eq in Hm; auto.
      - apply IHx2. right. eauto.
      - exact Hp. }
    split; [intros _; exact H|apply Hend, H].
  - (* NumberLiteral *)
    assert (H : forall rest r, delimited rest ->
                parses literal_eval (Some (NumberLiteral z)) rest r ->
                parses literal_eval None
                       (chars (Argument_str (NumberLiteral z)) ++ rest) r).
    { intros rest r Hd Hp. cbn [Argument_str]. now apply parses_number. }
    split; [intros _; exact H|apply Hend, H].
  - (* AddressMode *)
    apply andb_true_iff in Hc as [Hl Hx].
    destruct (IHx Hx) as [_ IHx2].
    assert (H : forall rest r, delimited rest ->
                parses literal_eval (Some (AddressMode lhs x)) rest r ->
                parses literal_eval None
                       (chars (Argument_str (AddressMode lhs x)) ++ rest) r).
    { intros rest r Hd Hp.
      destruct lhs as [l|].
      - apply andb_true_iff in Hl as [Hkind Hl].
        inversion IHl as [l' IHl'|]; subst.
        destruct (IHl' Hl) as [IHl1 _].
        flatten_chars. apply IHl1.
        + destruct l; try discriminate; reflexivity.
        + cbn. auto.
        + eapply parses_address; [exact Hkind| |exact Hp].
          apply IHx2. right. eauto.
      - flatten_chars.
        eapply (parses_address None); [exact I| |exact Hp].
        apply IHx2. right. eauto. }
    split; [intros _; exact H|apply Hend, H].
  - (* BinOp *)
    split; [discriminate|].
    intros rest Hrest.
    apply andb_true_iff in Hc as [Hc Hr].
    apply andb_true_iff in Hc as [Hc Hl].
    apply andb_true_iff in Hc as [Hop Hkind].
    destruct rhs as [| | |n| | |]; try discriminate.
    destruct (IHl Hl) as [IHl1 _].
    flatten_chars. apply IHl1.
    + destruct lhs; try discriminate; reflexivity.
    + cbn. auto.
    + apply parses_space, parses_binop.
      * repeat (apply orb_true_iff in Hop as [Hop|Hop]);
          apply String.eqb_eq in Hop; auto.
      * exact Hkind.
      * apply parses_space, parses_number.
        -- now apply at_end_delimited.
        -- now apply parses_at_end.
  - (* JumpTarget *)
    assert (H : forall rest r, delimited rest ->
                parses literal_eval (Some (JumpTarget n)) rest r ->
                parses literal_eval None
                       (chars (Argument_str (JumpTarget n)) ++ rest) r).
    { intros rest r Hd Hp. flatten_chars. now apply parses_jump_target. }
    split; [intros _; exact H|apply Hend, H].
Qed.

Lemma parses_at_fuel fuel v e r :
  parses literal_eval v e r ->
  parse_loop literal_eval fuel v e <> OutOfFuel ->
  parse_loop literal_eval fuel v e = Ok r.
Proof.
  intros [f Hf] Hfuel.
  rewrite <- (parse_loop_mono_le fuel (max f fuel)) by (trivial; lia).
  apply (parse_loop_mono_ok f); [lia|exact Hf].
Qed.

(** C9. Parsing a canonical operand string that denotes a Register,
    GlobalSymbol, Macro, NumberLiteral, AddressMode or JumpTarget (any form
    but BinOp) gives back the Argument it prints, so re-serialising the
    parse result reproduces the string: [str(parse_arg(s)) = s]. What is
    required of [ast.literal_eval] is that it evaluates the literals [hex]
    prints. *)
Theorem parse_arg_round_trip s a :
  canonical_operand s a ->
  is_BinOp a = false ->
  parse_arg literal_eval s = Ok (Some a) /\ Argument_str a = s.
Proof.
  intros [Hc ->] _. split; [|reflexivity].
  destruct (canonical_read_back a Hc) as [_ H].
  specialize (H [] (or_introl eq_refl)). rewrite app_nil_r in H.
  unfold parse_arg, parse_arg_elems.
  rewrite (parses_at_fuel _ _ _ _ H); [reflexivity|].
  pose proof (parse_loop_enough_fuel
                (S (length (chars (Argument_str a)))) None
                (chars (Argument_str a)) ltac:(lia)) as Hfuel.
  intros E. rewrite E in Hfuel. exact Hfuel.
Qed.

End RoundTrip.

End ParserFacts.

Lemma literal_eval_hex_spec z : literal_eval_hex (hex z) = Some z.
Proof.
  unfold literal_eval_hex, hex. rewrite HexString.to_Z_of_Z.
  now rewrite String.eqb_refl.
Qed.

Lemma parse_arg_round_trip_witness :
  (forall z, literal_eval_hex (hex z) = Some z)
  /\ canonical_operand "-0x10($sp)"
       (AddressMode (Some (NumberLiteral (-16))) (Register "sp"))
  /\ parse_arg literal_eval_hex "-0x10($sp)"
     = Ok (Some (AddressMode (Some (NumberLiteral (-16))) (Register "sp")))
  /\ Argument_str (AddressMode (Some (NumberLiteral (-16))) (Register "sp"))
     = "-0x10($sp)".
Proof.
  split; [exact literal_eval_hex_spec|].
  split; [split; reflexivity|].
  apply (parse_arg_round_trip literal_eval_hex literal_eval_hex_spec
           "-0x10($sp)"
           (AddressMode (Some (NumberLiteral (-16))) (Register "sp")));
    [split; reflexivity|reflexivity].
Defined.

(** The claim of C4 as it is worded fails: a closing parenthesis is not the
    empty string, yet [parse_arg] returns [None] on it. *)
Lemma parse_arg_none_counterexample :
  ~ (forall (literal_eval : string -> option Z) (s : string),
        parse_arg literal_eval s = Ok None <-> s = "").
Proof.
  intros H. specialize (H (fun _ => None) ")").
  destruct H as [H _]. discriminate H. reflexivity.
Qed.

(** * Properties of the block builder *)

Lemma new_block_ok st :
  Forall (fun b => ends_with_branch_and_slot (instructions b)) (blocks st) ->
  ends_with_branch_and_slot (curr_instructions st) ->
  builder_ok (new_block st).
Proof.
  intros Hb Hc. unfold new_block.
  destruct (Nat.eqb _ 0) eqn:E.
  - split; [exact Hb|].
    apply Nat.eqb_eq in E. destruct (curr_instructions st); [reflexivity|discriminate].
  - split; [|reflexivity]. cbn. apply Forall_app. split; [exact Hb|].
    constructor; [exact Hc|constructor].
Qed.

Lemma plain_ends l :
  forallb is_plain l = true -> ends_with_branch_and_slot l.
Proof. intros H. exists l. auto. Qed.

Lemma build_loop_ok n :
  forall body_iter st st',
    length body_iter <= n ->
    builder_ok st ->
    build_loop body_iter st = Ok st' ->
    builder_ok st'.
Proof.
  induction n as [|n IH]; intros body_iter st st' Hn [Hb Hc] H.
  - destruct body_iter; [|cbn in Hn; lia]. cbn in H. now inversion H; subst.
  - destruct body_iter as [|[l|i] rest]; cbn in H.
    + now inversion H; subst.
    + apply (IH rest _ _ ltac:(cbn in Hn; lia)) in H; [exact H|].
      destruct (new_block_ok st Hb (plain_ends _ Hc)) as [Hb' Hc'].
      split; assumption.
    + destruct (is_branch_instruction i) eqn:Hbr.
      * destruct rest as [|d rest']; [discriminate|].
        apply (IH rest' _ _ ltac:(cbn in Hn; lia)) in H; [exact H|].
        apply new_block_ok; [exact Hb|].
        cbn. exists (curr_instructions st). split; [exact Hc|].
        right. exists i, d. split; [exact Hbr|].
        now rewrite <- app_assoc.
      * apply (IH rest _ _ ltac:(cbn in Hn; lia)) in H; [exact H|].
        split; [exact Hb|]. cbn.
        rewrite forallb_app, Hc. cbn. now rewrite Hbr.
Qed.

(** C3, amended. In every Block the builder produces, the instructions
    are plain (non-branch) instructions followed by nothing more, or by one
    branch Instruction and exactly one further body element, its delay
    slot, with which the Block ends. The delay slot is taken as it comes:
    it may itself be a branch. *)
Theorem build_blocks_delay_slot function blocks block :
  build_blocks function = Ok blocks ->
  block ∈ blocks ->
  ends_with_branch_and_slot (instructions block).
Proof.
  unfold build_blocks. intros H Hin.
  destruct (build_loop (body function) (mkBuilder [] 0 None [])) as [st| |] eqn:E;
    cbn in H; try discriminate.
  inversion H; subst; clear H.
  apply (build_loop_ok _ _ _ _ (le_n _)) in E.
  2:{ split; [constructor|reflexivity]. }
  destruct E as [Hb Hc].
  destruct (new_block_ok st Hb (plain_ends _ Hc)) as [Hb' _].
  rewrite Forall_forall in Hb'. now apply Hb'.
Qed.

Lemma build_blocks_delay_slot_witness :
  build_blocks branch_in_delay_slot = Ok branch_in_delay_slot_blocks
  /\ branch_in_delay_slot_block0 ∈ branch_in_delay_slot_blocks
  /\ ends_with_branch_and_slot (instructions branch_in_delay_slot_block0).
Proof.
  split; [reflexivity|]. split; [apply list_elem_of_here|].
  apply (build_blocks_delay_slot branch_in_delay_slot
           branch_in_delay_slot_blocks branch_in_delay_slot_block0);
    [reflexivity|apply list_elem_of_here].
Defined.

(** The claim of C3 as it is worded fails when the element after a branch is
    itself a branch: the second branch ends its block. *)
Lemma build_blocks_delay_slot_counterexample :
  ~ (forall function blocks block,
        build_blocks function = Ok blocks ->
        block ∈ blocks ->
        every_branch_has_delay_slot block).
Proof.
  intros H.
  specialize (H branch_in_delay_slot branch_in_delay_slot_blocks
                branch_in_delay_slot_block0
                eq_refl (list_elem_of_here _ _)).
  specialize (H [instr "b" [JumpTarget "L1"]]
                (mkInstruction "beq" [Register "a0"; Register "a1";
                                      JumpTarget "L1"])
                [] eq_refl eq_refl).
  destruct H as [d H]. discriminate H.
Qed.

Lemma new_block_indexed st :
  builder_indexed st -> builder_indexed (new_block st).
Proof.
  intros [Hc Hi]. unfold new_block.
  destruct (Nat.eqb _ 0); [now split|].
  split; cbn.
  - rewrite length_app. cbn. lia.
  - intros i block H.
    destruct (decide (i < length (blocks st))) as [Hlt|Hge].
    + rewrite lookup_app_l in H by exact Hlt. now apply Hi.
    + rewrite lookup_app_r in H by lia.
      destruct (i - length (blocks st)) as [|k] eqn:E; cbn in H; [|discriminate].
      inversion H; subst; cbn. lia.
Qed.

Lemma build_loop_indexed n :
  forall body_iter st st',
    length body_iter <= n ->
    builder_indexed st ->
    build_loop body_iter st = Ok st' ->
    builder_indexed st'.
Proof.
  induction n as [|n IH]; intros body_iter st st' Hn Hst H.
  - destruct body_iter; [|cbn in Hn; lia]. cbn in H. now inversion H; subst.
  - destruct body_iter as [|[l|i] rest]; cbn in H.
    + now inversion H; subst.
    + apply (IH rest _ _ ltac:(cbn in Hn; lia)) in H; [exact H|].
      destruct (new_block_indexed st Hst) as [Hc Hi]. split; assumption.
    + destruct (is_branch_instruction i).
      * destruct rest as [|d rest']; [discriminate|].
        apply (IH rest' _ _ ltac:(cbn in Hn; lia)) in H; [exact H|].
        apply new_block_indexed. destruct Hst. split; assumption.
      * apply (IH rest _ _ ltac:(cbn in Hn; lia)) in H; [exact H|].
        destruct Hst. split; assumption.
Qed.

(** The index of a block is its position in the block list. *)
Lemma build_blocks_indexed function blocks :
  build_blocks function = Ok blocks -> indexed blocks.
Proof.
  unfold build_blocks. intros H.
  destruct (build_loop (body function) (mkBuilder [] 0 None [])) as [st| |] eqn:E;
    cbn in H; try discriminate.
  inversion H; subst; clear H.
  apply (build_loop_indexed _ _ _ _ (le_n _)) in E.
  - now apply new_block_indexed in E as [_ Hi].
  - split; [reflexivity|]. intros i block H. discriminate H.
Qed.

(** * Properties of the stack-frame analysis *)

Lemma stack_info_step_allocated info item info' :
  stack_info_step info item = Ok info' ->
  allocated_stack_size info'
  = match sp_adjust_of item with
    | Some value => (- value)%Z
    | None => allocated_stack_size info
    end.
Proof.
  unfold stack_info_step, sp_adjust_of.
  destruct item as [l|inst]; [discriminate|].
  destruct (args inst) as [|destination rest] eqn:Ea.
  { intros [= <-]. now destruct (String.eqb _ _). }
  unfold mbind, result_bind, arg_at, from_option, py_assert, offset_of.
  destruct (String.eqb (mnemonic inst) "addiu") eqn:Em.
  - destruct destination; cbn; try discriminate.
    destruct (String.eqb register_name "sp") eqn:Esp.
    + destruct rest as [|a1 [|a2 rest]]; cbn; try discriminate.
      destruct a2; try discriminate. now intros [= <-].
    + intros [= <-]. now destruct rest as [|a1 [|[] rest]].
  - destruct (String.eqb (mnemonic inst) "sw"); [|now intros [= <-]].
    destruct destination; cbn; try discriminate.
    repeat match goal with
           | |- context [match ?x with _ => _ end] => destruct x eqn:?
           end; intros [= <-]; reflexivity.
Qed.

Lemma stack_info_loop_allocated instructions :
  forall info info',
    stack_info_loop info instructions = Ok info' ->
    allocated_stack_size info'
    = match last (sp_adjusts instructions) with
      | Some value => (- value)%Z
      | None => allocated_stack_size info
      end.
Proof.
  induction instructions as [|item rest IH]; intros info info' H; cbn in H.
  - now inversion H.
  - unfold mbind, result_bind in H.
    destruct (stack_info_step info item) as [info1| |] eqn:E; try discriminate.
    apply stack_info_step_allocated in E. apply IH in H. rewrite H.
    unfold sp_adjusts. cbn [omap list_omap].
    fold (sp_adjusts rest).
    destruct (sp_adjust_of item) as [value|].
    + rewrite last_cons. now destruct (last (sp_adjusts rest)).
    + now rewrite E.
Qed.

(** C6, amended. After [find_stack_info], [allocated_stack_size] is the
    negated immediate of the last [addiu] of the entry block whose first
    argument is [$sp], and 0 when the block has none: every such
    instruction overwrites it. *)
Theorem find_stack_info_allocated flow_analysis info start_node :
  find_stack_info flow_analysis = Ok info ->
  nodes flow_analysis !! 0 = Some start_node ->
  allocated_stack_size info
  = match last (sp_adjusts (instructions (node_block start_node))) with
    | Some value => (- value)%Z
    | None => 0%Z
    end.
Proof.
  unfold find_stack_info. intros H Hs. rewrite Hs in H. cbn in H.
  unfold mbind, result_bind in H.
  destruct (stack_info_loop _ _) as [info1| |] eqn:E; try discriminate.
  inversion H; subst; clear H. cbn.
  now apply stack_info_loop_allocated in E.
Qed.

Lemma find_stack_info_allocated_witness :
  find_stack_info prologue_epilogue_flow = Ok prologue_epilogue_info
  /\ allocated_stack_size prologue_epilogue_info = (- 24)%Z.
Proof.
  split; [reflexivity|].
  apply (find_stack_info_allocated prologue_epilogue_flow
           prologue_epilogue_info
           (ExitNode (mkBlock 0 None prologue_epilogue_body)));
    reflexivity.
Defined.

(** The claim of C6 as it is worded fails on a function whose single block
    also holds the epilogue: the first [addiu sp, sp, -0x18] asks for 24,
    the later [addiu sp, sp, 0x18] leaves -24. *)
Lemma find_stack_info_allocated_counterexample :
  ~ (forall fuel function flow_analysis info start_node n,
        do_flow_analysis fuel function = Ok flow_analysis ->
        find_stack_info flow_analysis = Ok info ->
        nodes flow_analysis !! 0 = Some start_node ->
        first_stack_allocation (instructions (node_block start_node))
        = Some n ->
        allocated_stack_size info = n).
Proof.
  intros H.
  specialize (H 0 prologue_epilogue prologue_epilogue_flow
                prologue_epilogue_info
                (ExitNode (mkBlock 0 None prologue_epilogue_body)) 24%Z
                eq_refl eq_refl eq_refl eq_refl).
  discriminate H.
Qed.

(** C7, amended. [in_local_var_region(local_vars_region_bottom)] holds
    exactly when [local_vars_region_bottom < allocated_stack_size]; so when
    [local_vars_region_bottom <= allocated_stack_size] it holds exactly
    when the two bounds differ. *)
Theorem find_stack_info_region flow_analysis info :
  find_stack_info flow_analysis = Ok info ->
  (in_local_var_region info (local_vars_region_bottom info) = true
   <-> (local_vars_region_bottom info < allocated_stack_size info)%Z)
  /\ ((local_vars_region_bottom info <= allocated_stack_size info)%Z ->
      (in_local_var_region info (local_vars_region_bottom info) = true
       <-> local_vars_region_bottom info <> allocated_stack_size info)).
Proof.
  intros _. unfold in_local_var_region.
  rewrite andb_true_iff, Z.leb_le, Z.ltb_lt. split; [lia|]. lia.
Qed.

Lemma find_stack_info_region_witness :
  find_stack_info prologue_epilogue_flow = Ok prologue_epilogue_info
  /\ (in_local_var_region prologue_epilogue_info 24 = true
      <-> (24 < -24)%Z).
Proof.
  split; [reflexivity|].
  apply (find_stack_info_region prologue_epilogue_flow
           prologue_epilogue_info eq_refl).
Defined.

(** The claim of C7 as it is worded fails on the same function: the return
    address is saved at 20, so the local variables start at 24, above the
    -24 that the epilogue leaves in [allocated_stack_size]. *)
Lemma find_stack_info_region_counterexample :
  ~ (forall fuel function flow_analysis info,
        do_flow_analysis fuel function = Ok flow_analysis ->
        find_stack_info flow_analysis = Ok info ->
        (local_vars_region_bottom info <= allocated_stack_size info)%Z
        /\ (in_local_var_region info (local_vars_region_bottom info) = true
            <-> local_vars_region_bottom info
                <> allocated_stack_size info)).
Proof.
  intros H.
  destruct (H 0 prologue_epilogue prologue_epilogue_flow
              prologue_epilogue_info eq_refl eq_refl) as [Hle _].
  cbn in Hle. lia.
Qed.

(** * Properties of the instruction lifter *)

(** C2, at the failing input. Lifting the block [li $zero, 0x1] from the
    initial register map ends with [Register("zero")] mapped to
    [NumberLiteral(1)]: a destination-first handler writes [reg[args[0]]]
    whatever register [args[0]] is. *)
Theorem translate_block_body_overwrites_zero :
  zero_register_map !! "zero" = Some (EArg (NumberLiteral 0))
  /\ exists reg to_store,
       translate_block_body writes_zero_block zero_register_map
       = Ok (reg, to_store)
       /\ reg !! "zero" = Some (EArg (NumberLiteral 1)).
Proof.
  split; [reflexivity|].
  eexists _, _. split; [reflexivity|]. reflexivity.
Qed.

(** ** When the zero register keeps its value *)

Lemma assign_register_other i case args reg reg' name :
  assign_register i case args reg = Ok reg' ->
  Register name ∉ args ->
  reg' !! name = reg !! name.
Proof.
  unfold assign_register, arg_at, mbind, result_bind, from_option.
  destruct (args !! i) as [[n| | | | | |]|] eqn:E; try discriminate.
  destruct (case args) as [v| |]; try discriminate.
  intros [= <-] Hout. apply lookup_insert_ne. intros ->.
  apply Hout. eapply list_elem_of_lookup_2; eauto.
Qed.

(** The part of C2 that holds: an instruction none of whose arguments is
    [$zero] leaves the zero register as it was. *)
Lemma translate_instruction_keeps_zero reg to_store instr reg' to_store' :
  translate_instruction (reg, to_store) (ItemInstruction instr)
  = Ok (reg', to_store') ->
  Register "zero" ∉ map unwrap_macro (args instr) ->
  reg' !! "zero" = reg !! "zero".
Proof.
  unfold translate_instruction. cbn [args].
  generalize (match dict_get cases_repeats (mnemonic instr) with
              | Some t => t
              | None => mnemonic instr
              end).
  intros m. generalize (map unwrap_macro (args instr)). intros a H Hout.
  unfold mbind, result_bind in H.
  destruct (String.eqb m "nop"); [now inversion H|].
  destruct (dict_get (cases_source_first_expression reg) m) as [case|].
  { destruct (case a); now inversion H. }
  destruct (dict_get (cases_source_first_register reg) m) as [case|].
  { destruct (assign_register 1 case a reg) as [r| |] eqn:E;
      inversion H; subst. eapply assign_register_other; eauto. }
  destruct (dict_has (cases_branches reg) m); [now inversion H|].
  destruct (dict_has cases_float_branches m); [now inversion H|].
  destruct (dict_get cases_jumps m) as [case|].
  { destruct (case a) as [[]| |]; try discriminate;
      destruct (py_assert _); now inversion H. }
  destruct (dict_has (cases_float_comp reg) m); [now inversion H|].
  destruct (dict_get (cases_special reg) m) as [case|].
  { destruct (assign_register 0 case a reg) as [r| |] eqn:E;
      inversion H; subst. eapply assign_register_other; eauto. }
  destruct (dict_get (cases_destination_first reg) m) as [case|];
    [|discriminate].
  destruct (assign_register 0 case a reg) as [r| |] eqn:E;
    inversion H; subst. eapply assign_register_other; eauto.
Qed.

(** ** Which mnemonics reach the fatal branch *)

Lemma known_bind {A B} (r : result A) (f : A -> result B) :
  known r -> (forall a, known (f a)) -> known (r ≫= f).
Proof. destruct r as [a|e|]; cbn; auto. Qed.

Lemma known_arg_at a i : known (arg_at a i).
Proof. unfold arg_at. now destruct (a !! i). Qed.

Lemma known_reg_get reg key : known (reg_get reg key).
Proof. destruct key; try reflexivity. cbn. now destruct (reg !! _). Qed.

Lemma known_assert b : known (py_assert b).
Proof. now destruct b. Qed.

Lemma known_register_name_of a : known (register_name_of a).
Proof. now destruct a. Qed.

Lemma known_deref arg reg : known (deref arg reg).
Proof.
  destruct arg as [| | | |lhs rhs| |]; try reflexivity.
  - apply known_reg_get.
  - destruct rhs; try reflexivity. cbn.
    destruct (String.eqb _ _); [reflexivity|].
    apply known_bind; [apply (known_reg_get reg (Register register_name))|reflexivity].
Qed.

Create HintDb known.

#[local] Hint Resolve known_arg_at known_reg_get known_assert known_deref
  known_register_name_of : known.

Ltac solve_known :=
  intros;
  first [ reflexivity
        | solve [auto with known]
        | apply known_bind; [solve_known|intro; solve_known]
        | match goal with
          | |- known (match ?x with _ => _ end) => destruct x; solve_known
          | |- known (if ?b then _ else _) => destruct b; solve_known
          end ].

Lemma known_load_upper args reg : known (load_upper args reg).
Proof. unfold load_upper. solve_known. Qed.

Lemma known_handle_ori args reg : known (handle_ori args reg).
Proof. unfold handle_ori. solve_known. Qed.

Lemma known_handle_addi args reg : known (handle_addi args reg).
Proof. unfold handle_addi. solve_known. Qed.

Lemma known_table_get {A} (d : list (string * handler A)) m h :
  known_table d -> dict_get d m = Some h -> forall a, known (h a).
Proof.
  unfold known_table. induction 1 as [|[k h'] d Hh _ IH]; cbn; [discriminate|].
  destruct (String.eqb m k); [|exact IH]. now intros [= <-].
Qed.

Ltac solve_known_table :=
  unfold known_table, cases_source_first_expression,
    cases_source_first_register, cases_jumps, cases_special,
    cases_destination_first;
  repeat (apply List.Forall_cons;
          [ cbn [snd]; intros ?;
            unfold store_case, binary_rr, binary_ra, binary_r0, cast_case,
              load_case, read_case;
            first [ apply known_load_upper | apply known_handle_ori
                  | apply known_handle_addi | solve_known ]
          | ]);
  apply List.Forall_nil.

Lemma known_source_first_expression reg :
  known_table (cases_source_first_expression reg).
Proof. solve_known_table. Qed.

Lemma known_source_first_register reg :
  known_table (cases_source_first_register reg).
Proof. solve_known_table. Qed.

Lemma known_jumps : known_table cases_jumps.
Proof. solve_known_table. Qed.

Lemma known_special reg : known_table (cases_special reg).
Proof. solve_known_table. Qed.

Lemma known_destination_first reg :
  known_table (cases_destination_first reg).
Proof. solve_known_table. Qed.

Lemma known_assign_register i case args reg :
  (forall a, known (case a)) -> known (assign_register i case args reg).
Proof.
  intros H. unfold assign_register.
  apply known_bind; [apply known_arg_at|]. intros [] ; try reflexivity.
  apply known_bind; [apply H|reflexivity].
Qed.

Lemma dict_has_keys {A B} (d : list (string * A)) (d' : list (string * B)) m :
  d.*1 = d'.*1 -> dict_has d m = dict_has d' m.
Proof.
  unfold dict_has. revert d'.
  induction d as [|[k v] d IH]; intros [|[k' v'] d']; cbn;
    try discriminate; [reflexivity|].
  intros [= <- H]. destruct (String.eqb m k); [reflexivity|]. now apply IH.
Qed.

Lemma dict_has_get {A} (d : list (string * A)) m :
  dict_has d m = match dict_get d m with Some _ => true | None => false end.
Proof. reflexivity. Qed.

(** The fatal branch is reached exactly by the mnemonics that no table
    handles. *)
Lemma translate_instruction_unknown st instr :
  is_unknown_mnemonic (translate_instruction st (ItemInstruction instr))
  = negb (handled (mnemonic instr)).
Proof.
  destruct st as [reg to_store]. unfold handled.
  rewrite (dict_has_keys (cases_source_first_expression ∅)
                         (cases_source_first_expression reg)) by reflexivity.
  rewrite (dict_has_keys (cases_source_first_register ∅)
                         (cases_source_first_register reg)) by reflexivity.
  rewrite (dict_has_keys (cases_branches ∅) (cases_branches reg))
    by reflexivity.
  rewrite (dict_has_keys (cases_float_comp ∅) (cases_float_comp reg))
    by reflexivity.
  rewrite (dict_has_keys (cases_special ∅) (cases_special reg))
    by reflexivity.
  rewrite (dict_has_keys (cases_destination_first ∅)
                         (cases_destination_first reg)) by reflexivity.
  unfold translate_instruction.
  change (match dict_get cases_repeats (mnemonic instr) with
          | Some t => t
          | None => mnemonic instr
          end) with (true_mnemonic (mnemonic instr)).
  generalize (true_mnemonic (mnemonic instr)). intros m.
  cbn [args].
  generalize (map unwrap_macro (args instr)). intros a.
  rewrite !dict_has_get.
  destruct (String.eqb m "nop"); [reflexivity|].
  destruct (dict_get (cases_source_first_expression reg) m) as [case|] eqn:E1.
  { transitivity false; [|reflexivity].
    apply known_bind; [|reflexivity].
    eapply known_table_get; eauto using known_source_first_expression. }
  destruct (dict_get (cases_source_first_register reg) m) as [case|] eqn:E2.
  { transitivity false; [|reflexivity].
    apply known_bind; [|reflexivity]. apply known_assign_register.
    eapply known_table_get; eauto using known_source_first_register. }
  destruct (dict_get (cases_branches reg) m); [reflexivity|].
  destruct (dict_get cases_float_branches m); [reflexivity|].
  destruct (dict_get cases_jumps m) as [case|] eqn:E3.
  { transitivity false; [|reflexivity].
    apply known_bind.
    - eapply known_table_get; eauto using known_jumps.
    - intros []; (apply known_bind; [apply known_assert|reflexivity]). }
  destruct (dict_get (cases_float_comp reg) m); [reflexivity|].
  destruct (dict_get (cases_special reg) m) as [case|] eqn:E4.
  { transitivity false; [|reflexivity].
    apply known_bind; [|reflexivity]. apply known_assign_register.
    eapply known_table_get; eauto using known_special. }
  destruct (dict_get (cases_destination_first reg) m) as [case|] eqn:E5.
  { transitivity false; [|reflexivity].
    apply known_bind; [|reflexivity]. apply known_assign_register.
    eapply known_table_get; eauto using known_destination_first. }
  reflexivity.
Qed.

Lemma dict_get_unlisted {A} (d : list (string * A)) (keys : list string) m :
  Forall (fun k => k ∈ keys) d.*1 -> m ∉ keys -> dict_get d m = None.
Proof.
  intros Hd Hm. induction d as [|[k v] d IH]; cbn; [reflexivity|].
  cbn in Hd. apply Forall_cons in Hd as [Hk Hd].
  destruct (String.eqb_spec m k) as [->|_]; [contradiction|]. now apply IH.
Qed.

Lemma handled_recognised m :
  handled m = true -> m ∈ recognised_mnemonics.
Proof.
  intros H. destruct (decide (m ∈ recognised_mnemonics)) as [Hin|Hout];
    [exact Hin|exfalso].
  assert (Hnone : forall A (d : list (string * A)),
             Forall (fun k => k ∈ recognised_mnemonics) d.*1 ->
             dict_has d m = false).
  { intros A d Hd. unfold dict_has.
    now rewrite (dict_get_unlisted d recognised_mnemonics m Hd Hout). }
  unfold handled, true_mnemonic in H.
  rewrite (dict_get_unlisted cases_repeats recognised_mnemonics m) in H;
    [|apply (bool_decide_unpack _); vm_compute; exact I|exact Hout].
  destruct (String.eqb_spec m "nop") as [Heq|_].
  { apply Hout. rewrite Heq. apply (bool_decide_unpack _). vm_compute.
    exact I. }
  rewrite !Hnone in H; [discriminate|..];
    apply (bool_decide_unpack _); vm_compute; exact I.
Qed.

Lemma recognised_handled m :
  m ∈ recognised_mnemonics -> m <> "mul.d" -> handled m = true.
Proof.
  intros Hin Hne.
  assert (H : forallb (fun m => String.eqb m "mul.d" || handled m)
                      recognised_mnemonics = true) by (vm_compute; reflexivity).
  rewrite forallb_forall in H. apply list_elem_of_In, H in Hin.
  apply orb_true_iff in Hin as [Heq|Hh]; [|exact Hh].
  now apply String.eqb_eq in Heq.
Qed.

(** ** Alias normalisation *)

Lemma cases_repeats_once m t :
  dict_get cases_repeats m = Some t -> dict_get cases_repeats t = None.
Proof.
  assert (H : forallb (fun entry =>
                         match dict_get cases_repeats entry.2 with
                         | None => true
                         | Some _ => false
                         end) cases_repeats = true) by reflexivity.
  rewrite forallb_forall in H. intros Hm.
  assert (Hin : In (m, t) cases_repeats).
  { clear H. revert Hm. generalize cases_repeats.
    induction l as [|[k v] l IH]; cbn; [discriminate|].
    destruct (String.eqb_spec m k) as [->|_].
    - intros [= ->]. now left.
    - intros Hl. right. now apply IH. }
  specialize (H _ Hin). cbv beta in H. cbn [snd] in H.
  now destruct (dict_get cases_repeats t).
Qed.

Lemma true_mnemonic_idempotent m :
  true_mnemonic (true_mnemonic m) = true_mnemonic m.
Proof.
  unfold true_mnemonic at 2 3.
  destruct (dict_get cases_repeats m) as [t|] eqn:E.
  - unfold true_mnemonic. now rewrite (cases_repeats_once _ _ E).
  - unfold true_mnemonic. now rewrite E.
Qed.

(** After the alias table, the recognised mnemonics are the handled
    ones. *)
Lemma handled_true_mnemonic m :
  handled m = true <-> true_mnemonic m ∈ recognised_mnemonics.
Proof.
  assert (Hh : handled (true_mnemonic m) = handled m).
  { unfold handled. now rewrite true_mnemonic_idempotent. }
  split.
  - intros H. apply handled_recognised. now rewrite Hh.
  - intros Hin. rewrite <- Hh. apply recognised_handled; [exact Hin|].
    intros Heq. pose proof (true_mnemonic_idempotent m) as Hi.
    rewrite Heq in Hi. discriminate Hi.
Qed.

Lemma translate_instruction_recognised st instr :
  is_unknown_mnemonic (translate_instruction st (ItemInstruction instr)) = true
  <-> true_mnemonic (mnemonic instr) ∉ recognised_mnemonics.
Proof.
  rewrite translate_instruction_unknown, negb_true_iff.
  rewrite <- handled_true_mnemonic.
  destruct (handled (mnemonic instr)); split; congruence.
Qed.

Lemma translate_loop_app st done rest :
  translate_loop st (done ++ rest)
  = st' ← translate_loop st done; translate_loop st' rest.
Proof.
  revert st. induction done as [|item done IH]; intros st; [reflexivity|].
  cbn [app translate_loop]. unfold mbind, result_bind.
  destruct (translate_instruction st item); [apply IH|reflexivity..].
Qed.

Lemma translate_loop_known instructions :
  Forall recognised instructions ->
  forall st, known (translate_loop st instructions).
Proof.
  induction 1 as [|item instructions Hitem Hall IH]; intros st; [reflexivity|].
  cbn [translate_loop]. apply known_bind; [|exact IH].
  destruct item as [l|instr]; [now destruct st|].
  unfold known.
  destruct (is_unknown_mnemonic _) eqn:E; [|reflexivity].
  apply translate_instruction_recognised in E. contradiction.
Qed.

(** C8. Dispatch goes by the mnemonic after alias normalisation. A turn of
    the loop of [translate_block_body] reaches the fatal "I don't know how
    to handle" branch exactly when the normalised mnemonic of its
    instruction is outside the recognised set. Hence a block all of whose
    instructions have their normalised mnemonic in the set is lifted
    without reaching that branch, and a block reaches it when the loop
    comes to an instruction whose normalised mnemonic is outside the set
    ([mul.d] is such a mnemonic: the alias table sends it to [mulu]). *)
Theorem translate_block_body_recognised block reg :
  (forall st instr,
      is_unknown_mnemonic (translate_instruction st (ItemInstruction instr))
      = true
      <-> true_mnemonic (mnemonic instr) ∉ recognised_mnemonics)
  /\ (Forall recognised (instructions block) ->
      known (translate_block_body block reg))
  /\ (forall done instr rest st,
        instructions block = done ++ ItemInstruction instr :: rest ->
        translate_loop (reg, []) done = Ok st ->
        true_mnemonic (mnemonic instr) ∉ recognised_mnemonics ->
        is_unknown_mnemonic (translate_block_body block reg) = true).
Proof.
  split; [exact translate_instruction_recognised|]. split.
  - intros Hall. now apply translate_loop_known.
  - intros done instr rest st Hblock Hdone Hout.
    unfold translate_block_body.
    rewrite Hblock, translate_loop_app, Hdone.
    cbn [mbind result_bind translate_loop].
    apply (translate_instruction_recognised st) in Hout.
    now destruct (translate_instruction st (ItemInstruction instr)).
Qed.

Lemma translate_block_body_recognised_witness :
  Forall recognised (instructions writes_zero_block)
  /\ known (translate_block_body writes_zero_block zero_register_map)
  /\ true_mnemonic "mul.d" = "mulu"
  /\ ("mulu" ∉ recognised_mnemonics)
  /\ is_unknown_mnemonic (translate_block_body mul_d_block zero_register_map)
     = true.
Proof.
  assert (Hall : Forall recognised (instructions writes_zero_block)).
  { constructor; [|constructor].
    apply (bool_decide_unpack _). vm_compute. exact I. }
  assert (Hout : "mulu" ∉ recognised_mnemonics).
  { apply (bool_decide_unpack _). vm_compute. exact I. }
  split; [exact Hall|]. split.
  - exact (proj1 (proj2 (translate_block_body_recognised
                            writes_zero_block zero_register_map)) Hall).
  - split; [reflexivity|]. split; [exact Hout|].
    exact (proj2 (proj2 (translate_block_body_recognised
                           mul_d_block zero_register_map))
             [] (mkInstruction "mul.d"
                   [Register "f0"; Register "f2"; Register "f4"])
             [] (zero_register_map, []) eq_refl eq_refl Hout).
Defined.

(** Read on the mnemonic as written, before the alias table: lifting an
    instruction reaches the fatal branch exactly when its mnemonic is
    outside the recognised set, or is [mul.d]. *)
Lemma translate_instruction_unknown_iff st instr :
  is_unknown_mnemonic (translate_instruction st (ItemInstruction instr)) = true
  <-> mnemonic instr ∉ recognised_mnemonics \/ mnemonic instr = "mul.d".
Proof.
  rewrite translate_instruction_unknown, negb_true_iff. split.
  - intros H.
    destruct (decide (mnemonic instr ∈ recognised_mnemonics)) as [Hin|Hout];
      [|now left].
    destruct (decide (mnemonic instr = "mul.d")) as [Heq|Hne]; [now right|].
    rewrite recognised_handled in H by assumption. discriminate.
  - intros [Hout| ->]; [|reflexivity].
    destruct (handled (mnemonic instr)) eqn:E; [|reflexivity].
    now apply handled_recognised in E.
Qed.

(** [mul.d $f0, $f2, $f4]: the alias table sends [mul.d] to [mulu], which
    no handler table holds and the recognised set does not list, and lifting
    reaches the fatal branch. *)
Lemma translate_block_body_mul_d :
  "mul.d" ∈ recognised_mnemonics
  /\ dict_get cases_repeats "mul.d" = Some "mulu"
  /\ translate_block_body mul_d_block zero_register_map
     = Err (UnknownMnemonic "mulu").
Proof.
  split; [|split; reflexivity].
  apply (bool_decide_unpack _). vm_compute. exact I.
Qed.

(** * Properties of the flow analysis *)

Section Analysis.

Variable blocks : list Block.

Lemma get_block_analysis_unfold fuel nodes block :
  get_block_analysis blocks (S fuel) nodes block
  = match lookup_node nodes block with
    | Some node => Ok (node, nodes)
    | None =>
        '(node, nodes) ←
          do_block_analysis blocks (get_block_analysis blocks fuel)
                            nodes block;
        Ok (node, nodes ++ [node])
    end.
Proof. reflexivity. Qed.

Lemma get_block_analysis_memoising fuel :
  memoising (get_block_analysis blocks fuel).
Proof.
  intros nodes block node H. destruct fuel; cbn; now rewrite H.
Qed.

Lemma lookup_node_block nodes block node :
  lookup_node nodes block = Some node ->
  node ∈ nodes /\ node_block node = block.
Proof.
  unfold lookup_node. intros H. apply find_some in H as [Hin Hb].
  split; [now apply list_elem_of_In|].
  now apply bool_decide_eq_true in Hb.
Qed.

Lemma lookup_node_app nodes added block node :
  lookup_node nodes block = Some node ->
  lookup_node (nodes ++ added) block = Some node.
Proof.
  unfold lookup_node. induction nodes as [|n nodes IH]; cbn; [discriminate|].
  destruct (bool_decide _); auto.
Qed.

Lemma lookup_node_elem nodes block node :
  node ∈ nodes -> node_block node = block ->
  is_Some (lookup_node nodes block).
Proof.
  unfold lookup_node. intros Hin Hb.
  induction Hin as [n nodes|n m nodes _ IH]; cbn.
  - rewrite bool_decide_eq_true_2 by exact Hb. eauto.
  - destruct (bool_decide _); eauto.
Qed.

Lemma lookup_node_none nodes block :
  lookup_node nodes block = None <->
  forall node, node ∈ nodes -> node_block node <> block.
Proof.
  split.
  - intros H node Hin Hb.
    destruct (lookup_node_elem _ _ _ Hin Hb) as [n Hn]. congruence.
  - intros H. destruct (lookup_node nodes block) as [n|] eqn:E; [|reflexivity].
    apply lookup_node_block in E as [Hin Hb]. now apply H in Hin.
Qed.

(** ** A cycle of blocks without nodes is never analysed *)

Lemma waits_for_blocks g nodes X Y :
  memoising g ->
  waits_for blocks nodes X Y ->
  never_ok (g nodes Y) ->
  never_ok (do_block_analysis blocks g nodes X).
Proof.
  intros Hg Hw Hy r. unfold do_block_analysis, mbind, result_bind.
  destruct Hw as [[[Hb Hn]|(br & t & Hb & Hl & Hf)]
                 |(T & (br & t & Hb & Hl & Hf & Hm & Hn) & [nt Ht])];
    rewrite Hb; cbn.
  - rewrite Hn. cbn.
    destruct (g nodes Y) as [[n ns]| |] eqn:E; try discriminate.
    now destruct (Hy (n, ns)).
  - rewrite Hl. cbn. rewrite Hf. cbn.
    destruct (g nodes Y) as [[n ns]| |] eqn:E; try discriminate.
    now destruct (Hy (n, ns)).
  - rewrite Hl. cbn. rewrite Hf. cbn.
    rewrite (Hg _ _ _ Ht), Hm.
    destruct (py_assert _); try discriminate.
    rewrite Hn. cbn.
    destruct (g nodes Y) as [[n ns]| |] eqn:E; try discriminate.
    now destruct (Hy (n, ns)).
Qed.

Lemma stuck_never_ok nodes cycle fuel :
  stuck blocks nodes cycle ->
  forall X, X ∈ cycle -> never_ok (get_block_analysis blocks fuel nodes X).
Proof.
  intros Hs. induction fuel as [|fuel IH]; intros X HX r.
  - destruct (Hs X HX) as [Hl _]. cbn. now rewrite Hl.
  - destruct (Hs X HX) as [Hl (Y & HY & Hw)].
    rewrite get_block_analysis_unfold, Hl.
    unfold mbind, result_bind.
    destruct (do_block_analysis _ _ _ _) as [[n ns]| |] eqn:E;
      try discriminate.
    exfalso.
    eapply (waits_for_blocks (get_block_analysis blocks fuel));
      eauto using get_block_analysis_memoising.
Qed.


(** ** What [do_block_analysis] returns *)

Lemma do_block_analysis_inv g nodes X node nodes' :
  do_block_analysis blocks g nodes X = Ok (node, nodes') ->
  (exists Y ny,
      first_successor blocks X Y
      /\ (forall branch,
            branches_of (instructions X) = Ok [branch] ->
            mnemonic branch = "b")
      /\ g nodes Y = Ok (ny, nodes')
      /\ node = BasicNode X ny)
  \/ (exists T Y nt nodes1 nf,
        second_successor blocks X T Y
        /\ g nodes T = Ok (nt, nodes1)
        /\ g nodes1 Y = Ok (nf, nodes')
        /\ node = ConditionalNode X nt nf).
Proof.
  unfold do_block_analysis, mbind, result_bind, from_option, py_assert.
  destruct (branches_of (instructions X)) as [[|branch [|b2 bs]]| |] eqn:Hb;
    try discriminate.
  - destruct (blocks !! (index X + 1)) as [Y|] eqn:HY; try discriminate.
    destruct (g nodes Y) as [[ny ns]| |] eqn:Hg; try discriminate.
    intros [= <- <-]. left. exists Y, ny.
    split; [left; auto|]. split; [intros br [=]|]. auto.
  - destruct (last (args branch)) as [[| | | | | |target]|] eqn:Hl;
      try discriminate.
    destruct (find_block_by_label blocks target) as [T|] eqn:Hf;
      try discriminate.
    destruct (g nodes T) as [[nt nodes1]| |] eqn:Hg; try discriminate.
    destruct (String.eqb (mnemonic branch) "b") eqn:Hm.
    + intros [= <- <-]. left. exists T, nt.
      split; [right; eauto|].
      split; [|auto]. intros br [= <-]. now apply String.eqb_eq.
    + destruct (Nat.ltb _ _); try discriminate.
      destruct (blocks !! (index X + 1)) as [Y|] eqn:HY; try discriminate.
      destruct (g nodes1 Y) as [[nf ns]| |] eqn:Hg2; try discriminate.
      intros [= <- <-]. right. exists T, Y, nt, nodes1, nf.
      split; [|auto]. exists branch, target. auto.
Qed.

Lemma first_successor_in X Y : first_successor blocks X Y -> Y ∈ blocks.
Proof.
  intros [[_ H]|(br & t & _ & _ & H)].
  - eapply list_elem_of_lookup_2; eauto.
  - apply find_some in H as [H _]. now apply list_elem_of_In.
Qed.

Lemma second_successor_in X T Y :
  second_successor blocks X T Y -> T ∈ blocks /\ Y ∈ blocks.
Proof.
  intros (br & t & _ & _ & Hf & _ & Hn). split.
  - apply find_some in Hf as [H _]. now apply list_elem_of_In.
  - eapply list_elem_of_lookup_2; eauto.
Qed.

(** ** The node list grows, and holds the node returned *)

Lemma get_block_analysis_extends fuel :
  forall nodes block node nodes',
    get_block_analysis blocks fuel nodes block = Ok (node, nodes') ->
    (exists added, nodes' = nodes ++ added)
    /\ node ∈ nodes' /\ node_block node = block.
Proof.
  induction fuel as [|fuel IH]; intros nodes block node nodes' H.
  - cbn in H. destruct (lookup_node nodes block) as [n|] eqn:E;
      [|discriminate].
    inversion H; subst. apply lookup_node_block in E as [Hin Hb].
    split; [exists []; now rewrite app_nil_r|auto].
  - rewrite get_block_analysis_unfold in H.
    destruct (lookup_node nodes block) as [n|] eqn:E.
    { inversion H; subst. apply lookup_node_block in E as [Hin Hb].
      split; [exists []; now rewrite app_nil_r|auto]. }
    unfold mbind, result_bind in H.
    destruct (do_block_analysis _ _ _ _) as [[n ns]| |] eqn:Hdo;
      try discriminate.
    inversion H; subst; clear H.
    assert (Hn : node_block node = block /\ exists added, ns = nodes ++ added).
    { apply do_block_analysis_inv in Hdo
        as [(Y & ny & _ & _ & Hg & ->)
           |(T & Y & nt & nodes1 & nf & _ & Hg1 & Hg2 & ->)].
      - split; [reflexivity|]. now apply IH in Hg as [? _].
      - split; [reflexivity|].
        apply IH in Hg1 as [[a1 ->] _]. apply IH in Hg2 as [[a2 ->] _].
        exists (a1 ++ a2). now rewrite app_assoc. }
    destruct Hn as [Hb [added ->]].
    split; [exists (added ++ [node]); now rewrite app_assoc|].
    split; [|exact Hb]. apply elem_of_app. right. apply list_elem_of_here.
Qed.

(** ** Every node is wired as its block says *)

Lemma get_block_analysis_good fuel :
  forall nodes block node nodes',
    get_block_analysis blocks fuel nodes block = Ok (node, nodes') ->
    block ∈ blocks ->
    Forall (node_good blocks) nodes ->
    Forall (node_good blocks) nodes'.
Proof.
  induction fuel as [|fuel IH]; intros nodes block node nodes' H Hin Hgood.
  - cbn in H. destruct (lookup_node nodes block); [|discriminate].
    now inversion H; subst.
  - rewrite get_block_analysis_unfold in H.
    destruct (lookup_node nodes block) as [n|] eqn:E.
    { now inversion H; subst. }
    unfold mbind, result_bind in H.
    destruct (do_block_analysis _ _ _ _) as [[n ns]| |] eqn:Hdo;
      try discriminate.
    inversion H; subst; clear H.
    apply do_block_analysis_inv in Hdo
      as [(Y & ny & Hs & Hb & Hg & ->)
         |(T & Y & nt & nodes1 & nf & Hs & Hg1 & Hg2 & ->)].
    + pose proof (first_successor_in _ _ Hs) as HY.
      pose proof (get_block_analysis_extends _ _ _ _ _ Hg) as (_ & _ & Hny).
      apply Forall_app. split; [eapply IH; eauto|].
      constructor; [|constructor].
      split; [exact Hin|]. cbn. now rewrite Hny.
    + pose proof (second_successor_in _ _ _ Hs) as [HT HY].
      pose proof (get_block_analysis_extends _ _ _ _ _ Hg1) as (_ & _ & Hnt).
      pose proof (get_block_analysis_extends _ _ _ _ _ Hg2) as (_ & _ & Hnf).
      apply Forall_app. split; [eapply IH; [exact Hg2|exact HY|]; eapply IH; eauto|].
      constructor; [|constructor].
      split; [exact Hin|]. cbn. now rewrite Hnt, Hnf.
Qed.


(** ** One node per block *)

Lemma waits_for_app nodes added X Y :
  waits_for blocks nodes X Y -> waits_for blocks (nodes ++ added) X Y.
Proof.
  intros [H|(T & Hs & [n Hn])]; [now left|].
  right. exists T. split; [exact Hs|].
  exists n. now apply lookup_node_app.
Qed.

Lemma pending_push nodes stack block Y :
  pending blocks nodes stack block ->
  lookup_node nodes block = None ->
  waits_for blocks nodes block Y ->
  pending blocks nodes (stack ++ [block]) Y.
Proof.
  intros Hp Hl Hw X HX. apply elem_of_app in HX as [HX|HX].
  - destruct (Hp X HX) as [HlX (Y' & HY' & HwX)].
    split; [exact HlX|]. exists Y'. split; [|exact HwX].
    apply elem_of_app. now left.
  - apply list_elem_of_singleton in HX as ->.
    split; [exact Hl|]. exists Y. split; [|exact Hw].
    apply elem_of_app. right. apply list_elem_of_here.
Qed.

Lemma nodup_snoc nodes node :
  NoDup (node_block <$> nodes) ->
  lookup_node nodes (node_block node) = None ->
  NoDup (node_block <$> (nodes ++ [node])).
Proof.
  intros Hnd Hl. rewrite fmap_app. apply NoDup_app.
  split; [exact Hnd|]. split; [|apply NoDup_singleton].
  intros b Hb Hb'. cbn in Hb'. apply list_elem_of_singleton in Hb' as ->.
  apply list_elem_of_fmap in Hb as (n & Hn & Hin).
  rewrite lookup_node_none in Hl. now apply (Hl n Hin).
Qed.

Lemma lookup_node_snoc_none nodes node X :
  lookup_node nodes X = None ->
  node_block node <> X ->
  lookup_node (nodes ++ [node]) X = None.
Proof.
  rewrite !lookup_node_none. intros H Hne n Hin.
  apply elem_of_app in Hin as [Hin|Hin]; [now apply H|].
  now apply list_elem_of_singleton in Hin as ->.
Qed.

Lemma get_block_analysis_unique fuel :
  forall nodes stack block node nodes',
    get_block_analysis blocks fuel nodes block = Ok (node, nodes') ->
    pending blocks nodes stack block ->
    NoDup (node_block <$> nodes) ->
    NoDup (node_block <$> nodes')
    /\ (forall X, X ∈ stack -> lookup_node nodes' X = None).
Proof.
  induction fuel as [|fuel IH];
    intros nodes stack block node nodes' H Hp Hnd.
  - cbn in H. destruct (lookup_node nodes block); [|discriminate].
    inversion H; subst. split; [exact Hnd|]. intros X HX. now apply Hp.
  - assert (Hfresh : lookup_node nodes block = None -> block ∉ stack).
    { intros Hl Hin.
      apply (stuck_never_ok nodes stack (S fuel)) with (X := block) in H;
        [exact H| |exact Hin].
      intros X HX. destruct (Hp X HX) as [HlX (Y & HY & Hw)].
      split; [exact HlX|]. exists Y. split; [|exact Hw].
      apply elem_of_app in HY as [HY|HY]; [exact HY|].
      now apply list_elem_of_singleton in HY as ->. }
    rewrite get_block_analysis_unfold in H.
    destruct (lookup_node nodes block) as [n|] eqn:E.
    { inversion H; subst. split; [exact Hnd|]. intros X HX. now apply Hp. }
    specialize (Hfresh eq_refl).
    unfold mbind, result_bind in H.
    destruct (do_block_analysis _ _ _ _) as [[n ns]| |] eqn:Hdo;
      try discriminate.
    inversion H; subst; clear H.
    assert (Hns : node_block node = block
                  /\ NoDup (node_block <$> ns)
                  /\ forall X, X ∈ stack ++ [block] ->
                               lookup_node ns X = None).
    { apply do_block_analysis_inv in Hdo
        as [(Y & ny & Hs & _ & Hg & ->)
           |(T & Y & nt & nodes1 & nf & Hs & Hg1 & Hg2 & ->)].
      - split; [reflexivity|].
        eapply IH; [exact Hg| |exact Hnd].
        apply pending_push; [exact Hp|exact E|now left].
      - split; [reflexivity|].
        assert (Hw : waits_for blocks nodes block T).
        { left. right. destruct Hs as (br & t & Hb & Hl & Hf & _).
          exists br, t. auto. }
        destruct (IH _ _ _ _ _ Hg1 (pending_push _ _ _ _ Hp E Hw) Hnd)
          as [Hnd1 Hl1].
        pose proof (get_block_analysis_extends _ _ _ _ _ Hg1)
          as ([a1 ->] & Hnt & HntT).
        eapply IH; [exact Hg2| |exact Hnd1].
        intros X HX. split; [now apply Hl1|].
        apply elem_of_app in HX as [HX|HX].
        + destruct (Hp X HX) as [_ (Y' & HY' & HwX)].
          exists Y'. split; [apply elem_of_app; now left|].
          now apply waits_for_app.
        + apply list_elem_of_singleton in HX as ->.
          exists Y. split; [apply elem_of_app; right; apply list_elem_of_here|].
          right. exists T. split; [exact Hs|].
          eapply lookup_node_elem; eauto. }
    destruct Hns as (Hb & Hnd' & Hl').
    split.
    + apply nodup_snoc; [exact Hnd'|]. rewrite Hb. apply Hl'.
      apply elem_of_app. right. apply list_elem_of_here.
    + intros X HX. apply lookup_node_snoc_none.
      * apply Hl'. apply elem_of_app. now left.
      * rewrite Hb. intros ->. contradiction.
Qed.

End Analysis.

(** ** The sort *)

Lemma insert_node_perm node sorted :
  insert_node node sorted ≡ₚ node :: sorted.
Proof.
  induction sorted as [|other rest IH]; cbn; [reflexivity|].
  destruct (Nat.leb _ _); [reflexivity|].
  rewrite IH. apply Permutation_swap.
Qed.

Lemma sort_nodes_perm nodes : sort_nodes nodes ≡ₚ nodes.
Proof.
  induction nodes as [|n nodes IH]; cbn; [reflexivity|].
  rewrite insert_node_perm. now rewrite IH.
Qed.

Lemma insert_node_sorted node sorted :
  StronglySorted index_le sorted ->
  StronglySorted index_le (insert_node node sorted).
Proof.
  induction 1 as [|other rest Hs IH Hall]; cbn.
  - repeat constructor.
  - destruct (Nat.leb _ _) eqn:E.
    + apply Nat.leb_le in E. constructor; [now constructor|].
      constructor; [exact E|].
      eapply Forall_impl; [exact Hall|]. unfold index_le. cbn. intros; lia.
    + apply Nat.leb_gt in E. constructor; [exact IH|].
      rewrite insert_node_perm. constructor; [|exact Hall].
      unfold index_le. lia.
Qed.

Lemma sort_nodes_sorted nodes : StronglySorted index_le (sort_nodes nodes).
Proof.
  induction nodes as [|n nodes IH]; cbn; [constructor|].
  now apply insert_node_sorted.
Qed.

(** ** The whole analysis *)

(** What a returned flow analysis is made of: the blocks of the function,
    indexed by position; one node per block analysed, each on a block of the
    function and wired as that block says, in index order; the first node on
    the entry block, and the exit node on the last block. *)
Lemma do_flow_analysis_spec fuel function flow_analysis :
  do_flow_analysis fuel function = Ok flow_analysis ->
  exists blocks entrance_block exit_block,
    build_blocks function = Ok blocks
    /\ indexed blocks
    /\ blocks !! 0 = Some entrance_block
    /\ last blocks = Some exit_block
    /\ NoDup (node_block <$> nodes flow_analysis)
    /\ Forall (node_good blocks) (nodes flow_analysis)
    /\ StronglySorted index_le (nodes flow_analysis)
    /\ ExitNode exit_block ∈ nodes flow_analysis
    /\ exists first rest,
         nodes flow_analysis = first :: rest
         /\ node_block first = entrance_block.
Proof.
  unfold do_flow_analysis, mbind, result_bind, from_option. intros H.
  destruct (build_blocks function) as [blocks| |] eqn:Hb; try discriminate.
  destruct (last blocks) as [exit_block|] eqn:Hlast; try discriminate.
  destruct (blocks !! 0) as [entrance_block|] eqn:Hentry; try discriminate.
  destruct (get_block_analysis _ _ _ _) as [[node raw]| |] eqn:Hg;
    try discriminate.
  inversion H; subst; clear H. cbn [nodes].
  pose proof (build_blocks_indexed _ _ Hb) as Hidx.
  assert (Hexit_in : exit_block ∈ blocks).
  { apply last_Some in Hlast as [l ->]. apply elem_of_app. right.
    apply list_elem_of_here. }
  assert (Hentry_in : entrance_block ∈ blocks).
  { eapply list_elem_of_lookup_2; eauto. }
  pose proof (get_block_analysis_extends _ _ _ _ _ _ Hg)
    as ([added ->] & Hnode & Hnb).
  assert (Hgood : Forall (node_good blocks) ([ExitNode exit_block] ++ added)).
  { eapply get_block_analysis_good; [exact Hg|exact Hentry_in|].
    constructor; [|constructor]. split; [exact Hexit_in|exact Hlast]. }
  assert (Hnd : NoDup (node_block <$> [ExitNode exit_block] ++ added)).
  { eapply (get_block_analysis_unique _ _ _ []); [exact Hg| |].
    - intros X HX. now apply elem_of_nil in HX.
    - cbn. apply NoDup_singleton. }
  exists blocks, entrance_block, exit_block.
  repeat split; try assumption.
  - now rewrite sort_nodes_perm.
  - now rewrite sort_nodes_perm.
  - apply sort_nodes_sorted.
  - rewrite sort_nodes_perm. apply list_elem_of_here.
  - pose proof (sort_nodes_sorted ([ExitNode exit_block] ++ added)) as Hs.
    pose proof (sort_nodes_perm ([ExitNode exit_block] ++ added)) as Hperm.
    rewrite <- Hperm in Hnode, Hgood.
    destruct (sort_nodes _) as [|first rest]; [now apply elem_of_nil in Hnode|].
    exists first, rest. split; [reflexivity|].
    assert (H0 : index (node_block first) = 0).
    { apply StronglySorted_inv in Hs as [_ Hall].
      apply elem_of_cons in Hnode as [->|Hin].
      - rewrite Hnb. now apply Hidx.
      - rewrite Forall_forall in Hall. apply Hall in Hin.
        unfold index_le in Hin. rewrite Hnb, (Hidx _ _ Hentry) in Hin. lia. }
    apply Forall_inv in Hgood as [Hin _].
    apply list_elem_of_lookup in Hin as [i Hi].
    pose proof (Hidx _ _ Hi) as Hix. rewrite H0 in Hix. subst i.
    congruence.
Qed.

(** ** C1: the analysis of a loop *)

Lemma loop_block0_analysis g nodes :
  do_block_analysis [loop_block0; loop_block1] g nodes loop_block0
  = '(branch_node, nodes) ← g nodes loop_block0;
    Ok (BasicNode loop_block0 branch_node, nodes).
Proof. reflexivity. Qed.

Lemma loop_block0_diverges fuel :
  get_block_analysis [loop_block0; loop_block1] fuel
                     [ExitNode loop_block1] loop_block0
  = OutOfFuel.
Proof.
  induction fuel as [|fuel IH]; [reflexivity|].
  rewrite get_block_analysis_unfold.
  replace (lookup_node [ExitNode loop_block1] loop_block0)
    with (@None Node) by reflexivity.
  rewrite loop_block0_analysis, IH. reflexivity.
Qed.

(** C1, at the failing input. On [.L1: nop ; b .L1 ; nop ; jr $ra ; nop]
    the flow analysis returns with no amount of fuel: the node of the block
    labelled [L1] is added to the node list only after the analysis of its
    successor, which is that same block, so the look-up that should end the
    recursion never finds it. *)
Theorem do_flow_analysis_loop_diverges :
  forall fuel, do_flow_analysis fuel loop_function = OutOfFuel.
Proof.
  intros fuel.
  change (do_flow_analysis fuel loop_function)
    with ('(_, nodes) ← get_block_analysis [loop_block0; loop_block1] fuel
                          [ExitNode loop_block1] loop_block0;
          Ok (mkFlowAnalysis (sort_nodes nodes))).
  now rewrite loop_block0_diverges.
Qed.

(** Whenever the analysis does return, no block has two nodes. *)
Lemma do_flow_analysis_one_node_per_block fuel function flow_analysis :
  do_flow_analysis fuel function = Ok flow_analysis ->
  NoDup (node_block <$> nodes flow_analysis).
Proof.
  intros H. apply do_flow_analysis_spec in H.
  destruct H as (? & ? & ? & _ & _ & _ & _ & H & _). exact H.
Qed.

(** ** C5: nodes that jump backwards *)





(** * Properties of [translate_to_ast] *)

Lemma translate_nodes_calls nodes :
  forall i calls,
    translate_nodes (S i) nodes = Ok calls ->
    calls = call_of <$> nodes.
Proof.
  induction nodes as [|node rest IH]; intros i calls H; cbn in H.
  - now inversion H.
  - unfold mbind, result_bind in H.
    remember (translate_block_body (node_block node) zero_register_map)
      as outcome eqn:Ho.
    assert (Hcall : call_of node
                    = mkCall (node_block node) zero_register_map outcome)
      by (subst outcome; reflexivity).
    rewrite fmap_cons, Hcall. clear Ho Hcall.
    destruct (translate_nodes (S (S i)) rest) as [calls'| |] eqn:E.
    + apply IH in E. subst calls'.
      destruct outcome as [st|[]|]; inversion H; reflexivity.
    + destruct outcome as [st|[]|]; discriminate.
    + destruct outcome as [st|[]|]; discriminate.
Qed.

(** C10. When [translate_to_ast] runs to its end, the first node of the
    flow analysis is the node of the entry block, the block at position 0
    of the function's blocks; [translate_block_body] is called once for
    each of the other nodes, in order, and never for the entry block; each
    call is given the block of its node and a register map that holds
    [Register("zero")] mapped to [NumberLiteral(0)] and nothing else. *)
Theorem translate_to_ast_skips_entry fuel function info calls :
  translate_to_ast fuel function = Ok (info, calls) ->
  exists flow_analysis blocks entrance_block first rest,
    do_flow_analysis fuel function = Ok flow_analysis
    /\ build_blocks function = Ok blocks
    /\ blocks !! 0 = Some entrance_block
    /\ nodes flow_analysis = first :: rest
    /\ node_block first = entrance_block
    /\ calls = call_of <$> rest
    /\ Forall (fun call =>
                 call_block call <> entrance_block
                 /\ call_reg call = {[ "zero" := EArg (NumberLiteral 0) ]}
                 /\ call_outcome call
                    = translate_block_body
                        (call_block call)
                        {[ "zero" := EArg (NumberLiteral 0) ]})
              calls.
Proof.
  unfold translate_to_ast, mbind, result_bind. intros H.
  destruct (do_flow_analysis fuel function) as [fa| |] eqn:Hfa;
    try discriminate.
  destruct (find_stack_info fa) as [info'| |]; try discriminate.
  destruct (translate_nodes 0 (nodes fa)) as [calls'| |] eqn:Hc;
    try discriminate.
  inversion H; subst; clear H.
  apply do_flow_analysis_spec in Hfa
    as (blocks & entry & exit_block & Hb & _ & Hentry & _ & Hnd & _ & _ & _
        & first & rest & Hnodes & Hfirst).
  rewrite Hnodes in Hc, Hnd. cbn in Hc. apply translate_nodes_calls in Hc.
  exists fa, blocks, entry, first, rest.
  repeat split; try assumption.
  subst calls. apply Forall_fmap, Forall_forall. intros node Hin. cbn.
  split; [|split; reflexivity].
  cbn in Hnd. apply NoDup_cons in Hnd as [Hnot _].
  intros Heq. apply Hnot. rewrite Hfirst, <- Heq.
  apply list_elem_of_fmap. eauto.
Qed.

Lemma translate_to_ast_skips_entry_witness :
  (exists info calls,
      translate_to_ast 4 backward_jump_function = Ok (info, calls))
  /\ exists info,
       translate_to_ast 4 backward_jump_function
       = Ok (info, [ call_of backward_node1;
                     call_of backward_node2;
                     call_of (ExitNode backward_block3) ]).
Proof.
  assert (H : exists info calls,
             translate_to_ast 4 backward_jump_function = Ok (info, calls)).
  { eexists _, _. vm_compute. reflexivity. }
  split; [exact H|].
  destruct H as (info & calls & H). exists info.
  destruct (translate_to_ast_skips_entry 4 backward_jump_function info calls H)
    as (fa & blocks & entry & first & rest & Hfa & _ & _ & Hn & _ & Hc & _).
  assert (Hfa' : do_flow_analysis 4 backward_jump_function = Ok backward_flow)
    by reflexivity.
  rewrite Hfa' in Hfa. inversion Hfa; subst fa.
  inversion Hn; subst first rest. rewrite H. now subst calls.
Defined.

(** * Further properties of the operand parser *)

(** X1. [parse_word] cuts its input after the longest prefix made of valid
    characters: it returns [(word, rest)] exactly when the input is [word]
    followed by [rest], every character of [word] is valid and [rest] is
    empty or starts with a character that is not. *)
Theorem parse_word_longest_prefix valid elems word rest :
  parse_word valid elems = (word, rest)
  <-> elems = list_ascii_of_string word ++ rest
      /\ all_chars valid word = true
      /\ stops_at valid rest.
Proof.
  split.
  - revert word rest. induction elems as [|c elems IH]; intros word rest H.
    + cbn in H. inversion H; subst. cbn. auto.
    + cbn in H. destruct (char_in c valid) eqn:Hc.
      * destruct (parse_word valid elems) as [w r] eqn:E.
        inversion H; subst. destruct (IH w rest eq_refl) as (-> & Hw & Hr).
        cbn. rewrite Hc. auto.
      * inversion H; subst. cbn. auto.
  - intros (-> & Hw & Hr). apply parse_word_app; [exact Hw|].
    destruct rest; [trivial|exact Hr].
Qed.

Section ParserMore.

Variable literal_eval : string -> option Z.

Lemma bind_ok {A B} (r : result A) (f : A -> result B) b :
  r ≫= f = Ok b -> exists a, r = Ok a /\ f a = Ok b.
Proof. destruct r as [a| |]; cbn; try discriminate. eauto. Qed.

Lemma assert_ok {B} c (k : result B) b :
  (py_assert c ≫= fun _ => k) = Ok b -> c = true /\ k = Ok b.
Proof. destruct c; cbn; [auto|discriminate]. Qed.

Lemma parse_word_valid valid elems :
  all_chars valid (parse_word valid elems).1 = true.
Proof.
  destruct (parse_word valid elems) as [w r] eqn:E.
  now apply parse_word_longest_prefix in E as (_ & H & _).
Qed.

Lemma parse_loop_canonical fuel :
  forall value elems r rest,
    canonical_value value ->
    parse_loop literal_eval fuel value elems = Ok (r, rest) ->
    canonical_value r.
Proof.
  induction fuel as [|fuel IH]; intros value elems r rest Hv H;
    [discriminate|].
  destruct elems as [|tok elems']; cbn [parse_loop] in H.
  { now inversion H; subst. }
  destruct (isspace tok). { eapply IH; eauto. }
  destruct (Ascii.eqb tok "$").
  { apply assert_ok in H as [_ H].
    pose proof (parse_word_valid valid_word elems') as Hw.
    destruct (parse_word valid_word elems') as [w rest1].
    eapply IH; [|exact H]. exact Hw. }
  destruct (Ascii.eqb tok ".").
  { apply assert_ok in H as [_ H].
    pose proof (parse_word_valid valid_word elems') as Hw.
    destruct (parse_word valid_word elems') as [w rest1].
    eapply IH; [|exact H]. exact Hw. }
  destruct (Ascii.eqb tok "%").
  { apply assert_ok in H as [_ H].
    destruct (parse_word valid_word elems') as [macro_name rest1].
    apply assert_ok in H as [Hm H].
    apply bind_ok in H as ([g rest2] & _ & H).
    apply bind_ok in H as ([m rest3] & Hin & H).
    apply IH in Hin; [|exact I].
    destruct m as [m|]; [|discriminate].
    apply bind_ok in H as ([g' rest4] & _ & H).
    eapply IH; [|exact H]. cbn. now rewrite Hm. }
  destruct (Ascii.eqb tok ")"). { now inversion H; subst. }
  destruct (char_in tok ("-" +:+ digits)) eqn:Hdig.
  { apply assert_ok in H as [_ H].
    apply bind_ok in H as ([n rest1] & _ & H).
    eapply IH; [|exact H]. reflexivity. }
  destruct (Ascii.eqb tok "(").
  { apply assert_ok in H as [Hkind H].
    apply bind_ok in H as ([g rest1] & _ & H).
    apply bind_ok in H as ([rhs rest2] & Hin & H).
    apply IH in Hin; [|exact I].
    destruct rhs as [rhs|]; [|discriminate].
    apply bind_ok in H as ([g' rest3] & _ & H).
    eapply IH; [|exact H]. cbn [canonical_value canonical].
    cbn in Hin. rewrite Hin, andb_true_r.
    destruct value as [l|]; [|reflexivity].
    cbn in Hv. now rewrite Hkind, Hv. }
  destruct (char_in tok valid_word) eqn:Hword.
  { apply assert_ok in H as [_ H].
    pose proof (parse_word_valid valid_word (tok :: elems')) as Hw.
    cbn [parse_word] in H, Hw. rewrite Hword in H, Hw.
    destruct (parse_word valid_word elems') as [w rest1].
    eapply IH; [|exact H]. cbn [canonical_value canonical symbol_name_ok].
    cbn [fst] in Hw. rewrite Hw, andb_true_r.
    change ("-" +:+ digits) with (String "-" digits) in Hdig.
    cbn [char_in] in Hdig. apply orb_false_iff in Hdig as [_ ->].
    reflexivity. }
  destruct (char_in tok ">+&") eqn:Hop; [|discriminate].
  destruct value as [lhs|]; [|discriminate].
  apply assert_ok in H as [Hkind H].
  apply bind_ok in H as ([op rest1] & Hops & H).
  apply bind_ok in H as ([rhs rest2] & _ & H).
  destruct rhs as [[| | |n| | |]|]; try discriminate.
  inversion H; subst; clear H.
  cbn [canonical_value canonical] in *.
  rewrite Hkind, Hv, !andb_true_r.
  destruct (Ascii.eqb tok ">") eqn:Hgt.
  - apply bind_ok in Hops as ([g1 r1] & _ & Hops).
    apply bind_ok in Hops as ([g2 r2] & _ & Hops).
    now inversion Hops.
  - apply bind_ok in Hops as ([g r1] & Hx & Hops).
    inversion Hops; subst; clear Hops.
    unfold expect in Hx. destruct (char_in tok "&+") eqn:Ha; [|discriminate].
    inversion Hx; subst.
    destruct g as [[] [] [] [] [] [] [] []]; try discriminate Ha; reflexivity.
Qed.

(** X2. Whatever [parse_arg] returns is a canonical Argument: register,
    label and symbol names are words (a symbol name is not empty and does
    not start with a digit), a macro is [hi] or [lo], the [lhs] of an
    address mode is a number or a macro, and a binary operator is [>>], [&]
    or [+] applied to a number or symbol and a number. *)
Theorem parse_arg_canonical arg a :
  parse_arg literal_eval arg = Ok (Some a) -> canonical a = true.
Proof.
  unfold parse_arg, parse_arg_elems. intros H.
  apply bind_ok in H as ([v rest] & Hp & H). inversion H; subst.
  now apply parse_loop_canonical in Hp.
Qed.

(** *** An opening parenthesis that is never closed *)

Lemma parse_loop_suffix fuel :
  forall value elems r rest,
    parse_loop literal_eval fuel value elems = Ok (r, rest) ->
    exists consumed, elems = consumed ++ rest.
Proof.
  assert (Hword : forall valid e,
             exists consumed, e = consumed ++ (parse_word valid e).2).
  { intros valid e. destruct (parse_word valid e) as [w r] eqn:E.
    apply parse_word_longest_prefix in E as (-> & _). eauto. }
  assert (Hexp : forall n e g r, expect n e = Ok (g, r) -> e = g :: r).
  { intros n [|c e] g r; cbn; [discriminate|].
    destruct (char_in c n); [|discriminate]. now intros [= -> ->]. }
  induction fuel as [|fuel IH]; intros value elems r rest H; [discriminate|].
  destruct elems as [|tok elems']; cbn [parse_loop] in H.
  { inversion H; subst. now exists []. }
  assert (Hcons : forall l, (exists c, elems' = c ++ l) ->
                            exists c, tok :: elems' = c ++ l).
  { intros l [c ->]. now exists (tok :: c). }
  destruct (isspace tok). { apply Hcons. eapply IH; eauto. }
  destruct (Ascii.eqb tok "$").
  { apply assert_ok in H as [_ H]. apply Hcons.
    destruct (Hword valid_word elems') as [c Hc].
    destruct (parse_word valid_word elems') as [w rest1]; cbn in Hc.
    apply IH in H as [c2 ->]. exists (c ++ c2). now rewrite Hc, app_assoc. }
  destruct (Ascii.eqb tok ".").
  { apply assert_ok in H as [_ H]. apply Hcons.
    destruct (Hword valid_word elems') as [c Hc].
    destruct (parse_word valid_word elems') as [w rest1]; cbn in Hc.
    apply IH in H as [c2 ->]. exists (c ++ c2). now rewrite Hc, app_assoc. }
  destruct (Ascii.eqb tok "%").
  { apply assert_ok in H as [_ H]. apply Hcons.
    destruct (Hword valid_word elems') as [c Hc].
    destruct (parse_word valid_word elems') as [macro_name rest1]; cbn in Hc.
    apply assert_ok in H as [_ H].
    apply bind_ok in H as ([g rest2] & Hx1 & H). apply Hexp in Hx1.
    apply bind_ok in H as ([m rest3] & Hin & H). apply IH in Hin.
    destruct m as [m|]; [|discriminate].
    apply bind_ok in H as ([g' rest4] & Hx2 & H). apply Hexp in Hx2.
    apply IH in H.
    subst rest1. destruct Hin as [c1 ->]. subst rest3.
    destruct H as [c2 ->]. rewrite Hc.
    exists (c ++ g :: c1 ++ g' :: c2).
    rewrite <- !app_assoc. cbn. now rewrite <- app_assoc. }
  destruct (Ascii.eqb tok ")"). { inversion H; subst. now exists []. }
  destruct (char_in tok ("-" +:+ digits)) eqn:Hdig.
  { apply assert_ok in H as [_ H].
    apply bind_ok in H as ([n rest1] & Hn & H). apply IH in H.
    unfold parse_number in Hn.
    destruct (Hword valid_number (tok :: elems')) as [c Hc].
    destruct (parse_word valid_number (tok :: elems')) as [w r1]; cbn in Hc.
    destruct (is_float_literal w); [discriminate Hn|].
    apply bind_ok in Hn as (z & _ & Hn). inversion Hn; subst.
    rewrite Hc. destruct H as [c2 ->]. exists (c ++ c2).
    now rewrite app_assoc. }
  destruct (Ascii.eqb tok "(").
  { apply assert_ok in H as [_ H].
    apply bind_ok in H as ([g rest1] & Hx1 & H). apply Hexp in Hx1.
    inversion Hx1; subst g rest1.
    apply bind_ok in H as ([rhs rest2] & Hin & H). apply IH in Hin.
    destruct rhs as [rhs|]; [|discriminate].
    apply bind_ok in H as ([g' rest3] & Hx2 & H). apply Hexp in Hx2.
    apply IH in H. apply Hcons.
    destruct Hin as [c1 ->]. subst rest2. destruct H as [c2 ->].
    exists (c1 ++ g' :: c2). now rewrite <- app_assoc. }
  destruct (char_in tok valid_word) eqn:Hword'.
  { apply assert_ok in H as [_ H].
    destruct (Hword valid_word (tok :: elems')) as [c Hc].
    destruct (parse_word valid_word (tok :: elems')) as [w r1]; cbn in Hc.
    apply IH in H. rewrite Hc. destruct H as [c2 ->].
    exists (c ++ c2). now rewrite app_assoc. }
  destruct (char_in tok ">+&"); [|discriminate].
  destruct value as [lhs|]; [|discriminate].
  apply assert_ok in H as [_ H].
  apply bind_ok in H as ([op rest1] & Hops & H).
  apply bind_ok in H as ([rhs rest2] & Hin & H). apply IH in Hin.
  destruct rhs as [[| | |n| | |]|]; try discriminate.
  inversion H; subst; clear H.
  destruct Hin as [c1 ->].
  destruct (Ascii.eqb tok ">").
  - apply bind_ok in Hops as ([g1 r1] & Hx1 & Hops). apply Hexp in Hx1.
    apply bind_ok in Hops as ([g2 r2] & Hx2 & Hops). apply Hexp in Hx2.
    inversion Hops; subst. rewrite Hx1.
    exists (g1 :: g2 :: c1). reflexivity.
  - apply bind_ok in Hops as ([g r1] & Hx1 & Hops). apply Hexp in Hx1.
    inversion Hops; subst. rewrite Hx1. exists (g :: c1). reflexivity.
Qed.


Lemma all_chars_not_in valid w c :
  all_chars valid w = true -> char_in c valid = false ->
  c ∉ list_ascii_of_string w.
Proof.
  induction w as [|d w IH]; cbn; intros Hw Hc Hin.
  - now apply elem_of_nil in Hin.
  - apply andb_true_iff in Hw as [Hd Hw].
    apply elem_of_cons in Hin as [->|Hin]; [congruence|]. now apply IH.
Qed.

Lemma parse_word_keeps valid elems c :
  char_in c valid = false -> c ∈ elems -> c ∈ (parse_word valid elems).2.
Proof.
  intros Hc Hin. destruct (parse_word valid elems) as [w rest] eqn:E.
  apply parse_word_longest_prefix in E as (-> & Hw & _). cbn.
  apply elem_of_app in Hin as [Hin|Hin]; [|exact Hin].
  now apply all_chars_not_in with (c := c) in Hw.
Qed.

Lemma parse_loop_unclosed fuel :
  forall value elems r,
    ")"%char ∉ elems -> "("%char ∈ elems ->
    parse_loop literal_eval fuel value elems <> Ok r.
Proof.
  assert (Hexp : forall n e g r, expect n e = Ok (g, r) ->
                                 e = g :: r /\ char_in g n = true).
  { intros n [|c e] g r; cbn; [discriminate|].
    destruct (char_in c n) eqn:E; [|discriminate]. now intros [= -> ->]. }
  assert (Hclose : forall f v e rhs rest2 g rest3,
             ")"%char ∉ e ->
             parse_loop literal_eval f v e = Ok (rhs, rest2) ->
             expect ")" rest2 = Ok (g, rest3) -> False).
  { intros f v e rhs rest2 g rest3 Hno Hp Hx.
    apply parse_loop_suffix in Hp as [c ->]. apply Hexp in Hx as [-> Hg].
    apply Hno. apply elem_of_app. right.
    destruct g as [[] [] [] [] [] [] [] []]; try discriminate Hg.
    apply list_elem_of_here. }
  induction fuel as [|fuel IH]; intros value elems [r rest] Hno Hopen H;
    [discriminate|].
  destruct elems as [|tok elems']; [now apply elem_of_nil in Hopen|].
  cbn [parse_loop] in H.
  pose proof Hno as Hno0.
  apply not_elem_of_cons in Hno as [Hne Hno].
  assert (Hopen' : tok <> "("%char -> "("%char ∈ elems').
  { intros Ht. apply elem_of_cons in Hopen as [Heq|Hin]; congruence. }
  destruct (isspace tok) eqn:Hsp.
  { eapply IH; [exact Hno| |exact H]. apply Hopen'. intros ->. discriminate. }
  destruct (Ascii.eqb tok "$") eqn:E1.
  { apply assert_ok in H as [_ H].
    pose proof (parse_word_keeps valid_word elems' "(" eq_refl) as Hk.
    pose proof (parse_word_longest_prefix valid_word elems') as Hs.
    destruct (parse_word valid_word elems') as [w rest1]; cbn in Hk.
    destruct (Hs w rest1) as [Hs' _]. destruct (Hs' eq_refl) as (Heq & _).
    eapply IH; [|apply Hk|exact H].
    - intros Hin. apply Hno. rewrite Heq. apply elem_of_app. now right.
    - apply Hopen'. intros ->. discriminate. }
  destruct (Ascii.eqb tok ".") eqn:E2.
  { apply assert_ok in H as [_ H].
    pose proof (parse_word_keeps valid_word elems' "(" eq_refl) as Hk.
    pose proof (parse_word_longest_prefix valid_word elems') as Hs.
    destruct (parse_word valid_word elems') as [w rest1]; cbn in Hk.
    destruct (Hs w rest1) as [Hs' _]. destruct (Hs' eq_refl) as (Heq & _).
    eapply IH; [|apply Hk|exact H].
    - intros Hin. apply Hno. rewrite Heq. apply elem_of_app. now right.
    - apply Hopen'. intros ->. discriminate. }
  destruct (Ascii.eqb tok "%") eqn:E3.
  { apply assert_ok in H as [_ H].
    pose proof (parse_word_longest_prefix valid_word elems') as Hs.
    destruct (parse_word valid_word elems') as [macro_name rest1].
    destruct (Hs macro_name rest1) as [Hs' _].
    destruct (Hs' eq_refl) as (Heq & _).
    apply assert_ok in H as [_ H].
    apply bind_ok in H as ([g rest2] & Hx1 & H). apply Hexp in Hx1 as [-> _].
    apply bind_ok in H as ([m rest3] & Hin & H).
    destruct m as [m|]; [|discriminate].
    apply bind_ok in H as ([g' rest4] & Hx2 & H).
    eapply Hclose; [|exact Hin|exact Hx2].
    intros Hc. apply Hno. rewrite Heq. apply elem_of_app. right.
    now apply list_elem_of_further. }
  destruct (Ascii.eqb tok ")") eqn:E4.
  { apply Ascii.eqb_eq in E4. congruence. }
  destruct (char_in tok ("-" +:+ digits)) eqn:Hdig.
  { apply assert_ok in H as [_ H].
    apply bind_ok in H as ([n rest1] & Hn & H).
    unfold parse_number in Hn.
    pose proof (parse_word_keeps valid_number (tok :: elems') "(" eq_refl Hopen)
      as Hk.
    pose proof (parse_word_longest_prefix valid_number (tok :: elems')) as Hs.
    destruct (parse_word valid_number (tok :: elems')) as [w r1]; cbn in Hk.
    destruct (Hs w r1) as [Hs' _]. destruct (Hs' eq_refl) as (Heq & _).
    destruct (is_float_literal w); [discriminate Hn|].
    apply bind_ok in Hn as (z & _ & Hn). inversion Hn; subst n rest1.
    eapply IH; [|exact Hk|exact H].
    intros Hin. apply Hno0.
    rewrite Heq. apply elem_of_app. now right. }
  destruct (Ascii.eqb tok "(") eqn:E5.
  { apply assert_ok in H as [_ H].
    apply bind_ok in H as ([g rest1] & Hx1 & H). apply Hexp in Hx1 as [Hx1 _].
    inversion Hx1; subst g rest1.
    apply bind_ok in H as ([rhs rest2] & Hin & H).
    destruct rhs as [rhs|]; [|discriminate].
    apply bind_ok in H as ([g' rest3] & Hx2 & H).
    eapply Hclose; [exact Hno|exact Hin|exact Hx2]. }
  assert (Hopen'' : "("%char ∈ elems').
  { apply Hopen'. intros ->. discriminate. }
  destruct (char_in tok valid_word) eqn:Hword.
  { apply assert_ok in H as [_ H].
    pose proof (parse_word_keeps valid_word (tok :: elems') "(" eq_refl Hopen)
      as Hk.
    pose proof (parse_word_longest_prefix valid_word (tok :: elems')) as Hs.
    destruct (parse_word valid_word (tok :: elems')) as [w r1]; cbn in Hk.
    destruct (Hs w r1) as [Hs' _]. destruct (Hs' eq_refl) as (Heq & _).
    eapply IH; [|exact Hk|exact H].
    intros Hin. apply Hno0.
    rewrite Heq. apply elem_of_app. now right. }
  destruct (char_in tok ">+&"); [|discriminate].
  destruct value as [lhs|]; [|discriminate].
  apply assert_ok in H as [_ H].
  apply bind_ok in H as ([op rest1] & Hops & H).
  apply bind_ok in H as ([rhs rest2] & Hin & H).
  destruct (Ascii.eqb tok ">").
  - apply bind_ok in Hops as ([g1 r1] & Hx1 & Hops).
    apply Hexp in Hx1 as [Hx1 _]. inversion Hx1; subst g1 r1.
    apply bind_ok in Hops as ([g2 r2] & Hx2 & Hops).
    apply Hexp in Hx2 as [-> Hg2]. inversion Hops; subst op rest1.
    apply not_elem_of_cons in Hno as [_ Hno].
    eapply IH; [exact Hno| |exact Hin].
    apply elem_of_cons in Hopen'' as [<-|Hopen'']; [discriminate|exact Hopen''].
  - apply bind_ok in Hops as ([g r1] & Hx1 & Hops).
    apply Hexp in Hx1 as [Hx1 _]. inversion Hx1; subst g r1.
    inversion Hops; subst op rest1.
    eapply IH; [exact Hno|exact Hopen''|exact Hin].
Qed.

(** X3. An operand that holds an opening parenthesis and no closing one is
    never parsed: [parse_arg] raises or exits on it. *)
Theorem parse_arg_unclosed arg :
  "("%char ∈ list_ascii_of_string arg ->
  ")"%char ∉ list_ascii_of_string arg ->
  forall value, parse_arg literal_eval arg <> Ok value.
Proof.
  intros Hopen Hno value H. unfold parse_arg, parse_arg_elems in H.
  apply bind_ok in H as ([v rest] & Hp & _).
  now apply parse_loop_unclosed in Hp.
Qed.

End ParserMore.

Lemma parse_arg_canonical_witness :
  parse_arg literal_eval_hex "%lo(foo)($a0)"
  = Ok (Some (AddressMode (Some (Macro "lo" (GlobalSymbol "foo")))
                          (Register "a0")))
  /\ canonical (AddressMode (Some (Macro "lo" (GlobalSymbol "foo")))
                            (Register "a0")) = true.
Proof.
  split; [reflexivity|].
  apply (parse_arg_canonical literal_eval_hex "%lo(foo)($a0)"). reflexivity.
Defined.

Lemma parse_arg_unclosed_witness :
  ("("%char ∈ list_ascii_of_string "0x4($sp")
  /\ (")"%char ∉ list_ascii_of_string "0x4($sp")
  /\ forall value, parse_arg literal_eval_hex "0x4($sp" <> Ok value.
Proof.
  assert (H1 : "("%char ∈ list_ascii_of_string "0x4($sp")
    by (apply (bool_decide_unpack _); vm_compute; exact I).
  assert (H2 : ")"%char ∉ list_ascii_of_string "0x4($sp")
    by (apply (bool_decide_unpack _); vm_compute; exact I).
  split; [exact H1|]. split; [exact H2|].
  exact (parse_arg_unclosed literal_eval_hex "0x4($sp" H1 H2).
Defined.

(** Parsing what [__str__] prints for a canonical Argument, a BinOp
    included, gives the Argument back. *)
Lemma parse_arg_print literal_eval a :
  (forall z, literal_eval (hex z) = Some z) ->
  canonical a = true ->
  parse_arg literal_eval (Argument_str a) = Ok (Some a).
Proof.
  intros Hle Hc.
  destruct (canonical_read_back literal_eval Hle a Hc) as [_ H].
  specialize (H [] (or_introl eq_refl)). rewrite app_nil_r in H.
  unfold parse_arg, parse_arg_elems.
  rewrite (parses_at_fuel _ _ _ _ _ H); [reflexivity|].
  pose proof (parse_loop_enough_fuel literal_eval
                (S (length (list_ascii_of_string (Argument_str a)))) None
                (list_ascii_of_string (Argument_str a)) ltac:(lia)) as Hfuel.
  intros E. rewrite E in Hfuel. exact Hfuel.
Qed.

(** A word that [ast.literal_eval] reads as a float is outside the
    embedding: [parse_arg] stops there with [FloatLiteral], where the code
    returns a NumberLiteral that holds the float, whose [__str__] raises
    TypeError since [hex] takes no float. *)
Lemma parse_arg_float literal_eval :
  parse_arg literal_eval "1e5" = Err FloatLiteral.
Proof. reflexivity. Qed.

(** X4. Printing and parsing again changes nothing for an operand whose
    number literals are ints: if [parse_arg] reads an operand as the
    Argument [a] and [ast.literal_eval] gave an int for each of its number
    words (on a float word such as [1e5] the embedding stops with
    [FloatLiteral] and the property says nothing), it reads the string
    [__str__] prints for [a] as [a] again, whatever the form of [a] (a BinOp
    too), provided [ast.literal_eval] evaluates the literals [hex] prints. *)
Theorem parse_arg_reparse literal_eval arg a :
  (forall z, literal_eval (hex z) = Some z) ->
  parse_arg literal_eval arg = Ok (Some a) ->
  parse_arg literal_eval (Argument_str a) = Ok (Some a).
Proof.
  intros Hle H. apply parse_arg_print; [exact Hle|].
  unfold parse_arg, parse_arg_elems in H.
  apply bind_ok in H as ([v rest] & Hp & H). inversion H; subst.
  now apply parse_loop_canonical in Hp.
Qed.

Lemma parse_arg_reparse_witness :
  (forall z, literal_eval_hex (hex z) = Some z)
  /\ parse_arg literal_eval_hex " foo>>0x10 "
     = Ok (Some (BinOp ">>" (GlobalSymbol "foo") (NumberLiteral 16)))
  /\ Argument_str (BinOp ">>" (GlobalSymbol "foo") (NumberLiteral 16))
     = "foo >> 0x10"
  /\ parse_arg literal_eval_hex "foo >> 0x10"
     = Ok (Some (BinOp ">>" (GlobalSymbol "foo") (NumberLiteral 16))).
Proof.
  split; [exact literal_eval_hex_spec|].
  split; [reflexivity|]. split; [reflexivity|].
  exact (parse_arg_reparse literal_eval_hex " foo>>0x10 "
           (BinOp ">>" (GlobalSymbol "foo") (NumberLiteral 16))
           literal_eval_hex_spec eq_refl).
Defined.

(** X5. [__str__] tells canonical Arguments apart: two of them that print
    the same string are equal. *)
Theorem Argument_str_injective a b :
  canonical a = true -> canonical b = true ->
  Argument_str a = Argument_str b -> a = b.
Proof.
  intros Ha Hb Heq.
  pose proof (parse_arg_print literal_eval_hex a literal_eval_hex_spec Ha) as Pa.
  pose proof (parse_arg_print literal_eval_hex b literal_eval_hex_spec Hb) as Pb.
  rewrite Heq in Pa. congruence.
Qed.

Lemma Argument_str_injective_witness :
  canonical (AddressMode None (Register "sp")) = true
  /\ forall b, canonical b = true ->
               Argument_str (AddressMode None (Register "sp"))
               = Argument_str b ->
               AddressMode None (Register "sp") = b.
Proof.
  split; [reflexivity|].
  intros b.
  exact (Argument_str_injective (AddressMode None (Register "sp")) b eq_refl).
Defined.

(** * Properties of [parse_instruction] *)

Lemma lstrip_solid elems : starts_solid elems -> lstrip elems = elems.
Proof. intros (c & rest & -> & Hc). cbn. now rewrite Hc. Qed.

Lemma lstrip_space elems : lstrip (" "%char :: elems) = lstrip elems.
Proof. reflexivity. Qed.

Lemma rstrip_solid elems : ends_solid elems -> rstrip elems = elems.
Proof.
  intros (front & c & -> & Hc). unfold rstrip.
  rewrite rev_app_distr. cbn. rewrite Hc. cbn. now rewrite rev_involutive.
Qed.

Lemma rstrip_space elems : rstrip (elems ++ [" "%char]) = rstrip elems.
Proof. unfold rstrip. now rewrite rev_app_distr. Qed.

Lemma strip_tight s :
  starts_solid (list_ascii_of_string s) ->
  ends_solid (list_ascii_of_string s) ->
  strip s = s.
Proof.
  intros Hs He. unfold strip.
  rewrite lstrip_solid, rstrip_solid by assumption.
  apply string_of_list_ascii_of_string.
Qed.

Lemma strip_space_tight s :
  starts_solid (list_ascii_of_string s) ->
  ends_solid (list_ascii_of_string s) ->
  strip (String " " s) = s.
Proof.
  intros Hs He. unfold strip. cbn [list_ascii_of_string].
  rewrite lstrip_space, lstrip_solid, rstrip_solid by assumption.
  apply string_of_list_ascii_of_string.
Qed.

Lemma ends_solid_app l1 l2 :
  l2 <> [] -> solid l2 -> ends_solid (l1 ++ l2).
Proof.
  intros Hne Hs. destruct (exists_last Hne) as (front & c & ->).
  exists (l1 ++ front), c. split; [now rewrite app_assoc|].
  apply Forall_app in Hs as [_ Hs]. now apply Forall_inv in Hs.
Qed.

Lemma word_char_solid c :
  char_in c valid_word = true -> isspace c = false /\ c <> ","%char.
Proof.
  destruct c as [[] [] [] [] [] [] [] []]; vm_compute; intros H;
    try discriminate H; split; congruence.
Qed.

Lemma number_char_solid c :
  char_in c valid_number = true -> isspace c = false /\ c <> ","%char.
Proof.
  destruct c as [[] [] [] [] [] [] [] []]; vm_compute; intros H;
    try discriminate H; split; congruence.
Qed.

Lemma all_chars_solid valid w :
  (forall c, char_in c valid = true -> isspace c = false /\ c <> ","%char) ->
  all_chars valid w = true ->
  solid (list_ascii_of_string w) /\ ","%char ∉ list_ascii_of_string w.
Proof.
  intros Hv. induction w as [|c w IH]; cbn; intros H.
  - split; [constructor|apply not_elem_of_nil].
  - apply andb_true_iff in H as [Hc Hw]. destruct (IH Hw) as [Hs Hn].
    destruct (Hv c Hc) as [Hsp Hcm].
    split; [now constructor|]. apply not_elem_of_cons. split; congruence.
Qed.

Lemma hex_solid z :
  list_ascii_of_string (hex z) <> []
  /\ solid (list_ascii_of_string (hex z))
  /\ ","%char ∉ list_ascii_of_string (hex z).
Proof.
  split.
  - destruct (hex_head z) as (c & s & -> & _). discriminate.
  - apply (all_chars_solid valid_number); [apply number_char_solid|].
    apply hex_valid.
Qed.

Ltac spread_chars :=
  cbn [Argument_str];
  repeat rewrite list_ascii_app;
  repeat rewrite <- app_assoc;
  cbn [list_ascii_of_string app].

Ltac no_comma H :=
  repeat first [ apply elem_of_app in H as [H|H]
               | apply elem_of_cons in H as [H|H]
               | apply elem_of_nil in H ];
  try discriminate H; try contradiction.

(** What [__str__] prints for a canonical Argument starts and ends with a
    character that is not white space, and holds no comma. *)
Lemma Argument_str_shape a :
  canonical a = true ->
  starts_solid (list_ascii_of_string (Argument_str a))
  /\ ends_solid (list_ascii_of_string (Argument_str a))
  /\ ","%char ∉ list_ascii_of_string (Argument_str a).
Proof.
  induction a as [n|n|m x IHx|z|lhs IHl x IHx|op lhs IHl rhs IHr|n];
    intros Hc; cbn [canonical] in Hc.
  - (* Register *)
    destruct (all_chars_solid valid_word n word_char_solid Hc) as [Hs Hn].
    spread_chars. split; [now exists "$"%char, (list_ascii_of_string n)|].
    split.
    + apply (ends_solid_app []); [discriminate|]. now constructor.
    + intros H. no_comma H.
  - (* GlobalSymbol *)
    destruct n as [|c n]; [discriminate|]. cbn [symbol_name_ok] in Hc.
    apply andb_true_iff in Hc as [_ Hc].
    destruct (all_chars_solid valid_word _ word_char_solid Hc) as [Hs Hn].
    cbn [Argument_str]. split.
    + exists c, (list_ascii_of_string n). split; [reflexivity|].
      now apply Forall_inv in Hs.
    + split; [|exact Hn]. apply (ends_solid_app []); [discriminate|exact Hs].
  - (* Macro *)
    apply andb_true_iff in Hc as [Hm Hx].
    destruct (IHx Hx) as (_ & _ & Hn).
    spread_chars. split; [now eexists "%"%char, _|]. split.
    + exists ("%"%char :: list_ascii_of_string m
                ++ "("%char :: list_ascii_of_string (Argument_str x)),
             ")"%char.
      split; [|reflexivity]. cbn. now rewrite <- app_assoc.
    + intros H.
      apply orb_true_iff in Hm as [Hm|Hm]; apply String.eqb_eq in Hm;
        subst m; no_comma H.
  - (* NumberLiteral *)
    destruct (hex_solid z) as (Hne & Hs & Hn). cbn [Argument_str].
    split; [|split; [|exact Hn]].
    + destruct (list_ascii_of_string (hex z)) as [|c l]; [congruence|].
      exists c, l. split; [reflexivity|]. now apply Forall_inv in Hs.
    + now apply (ends_solid_app []).
  - (* AddressMode *)
    apply andb_true_iff in Hc as [Hl Hx].
    destruct (IHx Hx) as (_ & _ & Hn).
    destruct lhs as [l|].
    + apply andb_true_iff in Hl as [_ Hl].
      inversion IHl as [l' IHl'|]; subst.
      destruct (IHl' Hl) as ((c & rest & Hcl & Hc) & _ & Hnl).
      spread_chars. split.
      * rewrite Hcl. cbn [app]. eexists c, _. split; [reflexivity|exact Hc].
      * split.
        -- exists (list_ascii_of_string (Argument_str l)
                     ++ "("%char :: list_ascii_of_string (Argument_str x)),
                  ")"%char.
           split; [|reflexivity]. now rewrite <- app_assoc.
        -- intros H. no_comma H.
    + spread_chars. split; [now eexists "("%char, _|]. split.
      * exists ("("%char :: list_ascii_of_string (Argument_str x)), ")"%char.
        split; reflexivity.
      * intros H. no_comma H.
  - (* BinOp *)
    apply andb_true_iff in Hc as [Hc Hr].
    apply andb_true_iff in Hc as [Hc Hl].
    apply andb_true_iff in Hc as [Hop _].
    destruct rhs as [| | |n| | |]; try discriminate.
    destruct (IHl Hl) as ((c & rest & Hcl & Hc) & _ & Hnl).
    destruct (hex_solid n) as (Hne & Hs & Hn).
    spread_chars. split.
    + rewrite Hcl. cbn [app]. eexists c, _. split; [reflexivity|exact Hc].
    + split.
      * match goal with
        | |- ends_solid ?l =>
            replace l with
              ((list_ascii_of_string (Argument_str lhs)
                  ++ " "%char :: list_ascii_of_string op ++ [" "%char])
                 ++ list_ascii_of_string (hex n))
        end.
        -- now apply ends_solid_app.
        -- rewrite <- app_assoc. cbn [app]. now rewrite <- app_assoc.
      * intros H.
        repeat (apply orb_true_iff in Hop as [Hop|Hop]);
          apply String.eqb_eq in Hop; subst op; no_comma H.
  - (* JumpTarget *)
    destruct (all_chars_solid valid_word n word_char_solid Hc) as [Hs Hn].
    spread_chars. split; [now exists "."%char, (list_ascii_of_string n)|].
    split.
    + apply (ends_solid_app []); [discriminate|]. now constructor.
    + intros H. no_comma H.
Qed.

Lemma solid_no_space elems : solid elems -> " "%char ∉ elems.
Proof.
  intros Hs Hin. eapply Forall_forall in Hs; [|exact Hin]. discriminate Hs.
Qed.

Lemma str_split_plain sep s :
  sep ∉ list_ascii_of_string s -> str_split sep s = [s].
Proof.
  induction s as [|c s IH]; cbn [str_split list_ascii_of_string];
    intros Hn; [reflexivity|].
  apply not_elem_of_cons in Hn as [Hc Hn].
  destruct (Ascii.eqb_spec c sep); [congruence|]. now rewrite IH.
Qed.

Lemma str_split_app sep s t :
  sep ∉ list_ascii_of_string s ->
  str_split sep (s +:+ String sep t) = s :: str_split sep t.
Proof.
  induction s as [|c s IH]; cbn [list_ascii_of_string]; intros Hn.
  - change (str_split sep (String sep t) = "" :: str_split sep t).
    cbn [str_split]. now rewrite Ascii.eqb_refl.
  - apply not_elem_of_cons in Hn as [Hc Hn].
    change (String c s +:+ String sep t) with (String c (s +:+ String sep t)).
    cbn [str_split]. destruct (Ascii.eqb_spec c sep); [congruence|].
    now rewrite IH.
Qed.

(** Splitting at the commas what [", ".join] built from pieces that hold no
    comma gives the pieces back, each but the first after one space. *)
Lemma split_comma_join piece pieces :
  Forall (fun s => ","%char ∉ list_ascii_of_string s) (piece :: pieces) ->
  str_split "," (join ", " (piece :: pieces))
  = piece :: (String " " <$> pieces).
Proof.
  revert piece. induction pieces as [|next pieces IH]; intros piece Hall.
  - apply str_split_plain. now apply Forall_inv in Hall.
  - change (join ", " (piece :: next :: pieces))
      with (piece +:+ String "," (String " " (join ", " (next :: pieces)))).
    rewrite str_split_app by now apply Forall_inv in Hall.
    cbn [str_split]. change (Ascii.eqb " " ",") with false. cbn iota.
    rewrite IH by now apply Forall_inv_tail in Hall. reflexivity.
Qed.

Lemma partition_space_plain m :
  solid (list_ascii_of_string m) -> partition_space m = (m, EmptyString).
Proof.
  induction m as [|c m IH]; cbn [list_ascii_of_string partition_space];
    intros Hs; [reflexivity|].
  destruct (Ascii.eqb_spec c " ") as [->|_].
  - apply Forall_inv in Hs. discriminate Hs.
  - now rewrite IH by now apply Forall_inv_tail in Hs.
Qed.

Lemma partition_space_app m rest :
  solid (list_ascii_of_string m) ->
  partition_space (m +:+ String " " rest) = (m, rest).
Proof.
  induction m as [|c m IH]; cbn [list_ascii_of_string]; intros Hs.
  - reflexivity.
  - change (String c m +:+ String " " rest)
      with (String c (m +:+ String " " rest)).
    cbn [partition_space]. destruct (Ascii.eqb_spec c " ") as [->|_].
    + apply Forall_inv in Hs. discriminate Hs.
    + now rewrite IH by now apply Forall_inv_tail in Hs.
Qed.

Lemma mnemonic_ok_solid m :
  mnemonic_ok m = true ->
  list_ascii_of_string m <> [] /\ solid (list_ascii_of_string m).
Proof.
  unfold mnemonic_ok. intros H. apply andb_true_iff in H as [Hne Hall].
  split.
  - destruct m; [discriminate Hne|discriminate].
  - apply Forall_forall. intros c Hc.
    rewrite forallb_forall in Hall.
    specialize (Hall c (proj1 (list_elem_of_In _ _) Hc)).
    now apply negb_true_iff in Hall.
Qed.

Lemma solid_ends elems : elems <> [] -> solid elems -> ends_solid elems.
Proof. apply (ends_solid_app []). Qed.

Lemma solid_starts elems : elems <> [] -> solid elems -> starts_solid elems.
Proof.
  intros Hne Hs. destruct elems as [|c rest]; [congruence|].
  exists c, rest. split; [reflexivity|]. now apply Forall_inv in Hs.
Qed.

Lemma starts_solid_app l1 l2 : starts_solid l1 -> starts_solid (l1 ++ l2).
Proof. intros (c & rest & -> & Hc). now exists c, (rest ++ l2). Qed.

Lemma ends_solid_app_r l1 l2 : ends_solid l2 -> ends_solid (l1 ++ l2).
Proof.
  intros (front & c & -> & Hc). exists (l1 ++ front), c.
  split; [now rewrite app_assoc|exact Hc].
Qed.

Lemma join_ends_solid piece pieces :
  Forall (fun s => ends_solid (list_ascii_of_string s)) (piece :: pieces) ->
  ends_solid (list_ascii_of_string (join ", " (piece :: pieces))).
Proof.
  revert piece. induction pieces as [|next pieces IH]; intros piece Hall.
  - now apply Forall_inv in Hall.
  - change (join ", " (piece :: next :: pieces))
      with (piece +:+ ", " +:+ join ", " (next :: pieces)).
    rewrite !list_ascii_app. rewrite app_assoc. apply ends_solid_app_r.
    apply IH. now apply Forall_inv_tail in Hall.
Qed.

Lemma map_result_fmap {A B C} (f : A -> result B) (g : C -> A) (h : C -> B)
      (l : list C) :
  Forall (fun x => f (g x) = Ok (h x)) l ->
  map_result f (g <$> l) = Ok (h <$> l).
Proof.
  induction l as [|x l IH]; intros Hall; [reflexivity|].
  cbn [fmap list_fmap map_result]. change (list_fmap C A g l) with (g <$> l).
  rewrite (Forall_inv Hall), IH by now apply Forall_inv_tail in Hall.
  reflexivity.
Qed.

Lemma omap_id_Some {A} (l : list A) : omap id (Some <$> l) = l.
Proof. induction l as [|x l IH]; [reflexivity|]. cbn. now f_equal. Qed.

(** The line [Instruction.__str__] prints, once stripped: the space after
    the mnemonic goes when there are no arguments. *)
Lemma printed_line_strip m pieces :
  mnemonic_ok m = true ->
  Forall (fun s => ends_solid (list_ascii_of_string s)) pieces ->
  let line := match pieces with
              | [] => m
              | _ => m +:+ " " +:+ join ", " pieces
              end in
  strip ("    " +:+ m +:+ " " +:+ join ", " pieces) = line
  /\ starts_solid (list_ascii_of_string line)
  /\ ends_solid (list_ascii_of_string line).
Proof.
  intros Hm Hall. destruct (mnemonic_ok_solid m Hm) as [Hne Hs].
  assert (Hstart : forall l, starts_solid (list_ascii_of_string m ++ l))
    by (intros l; apply starts_solid_app; now apply solid_starts).
  unfold strip. rewrite !list_ascii_app.
  cbn [list_ascii_of_string app]. rewrite !lstrip_space.
  rewrite lstrip_solid by apply Hstart.
  destruct pieces as [|piece pieces]; cbv zeta.
  - cbn [join list_ascii_of_string].
    rewrite rstrip_space, rstrip_solid by (apply solid_ends; assumption).
    rewrite string_of_list_ascii_of_string.
    split; [reflexivity|]. split; [now apply solid_starts|now apply solid_ends].
  - assert (Hend : ends_solid
                     (list_ascii_of_string m
                        ++ " "%char
                           :: list_ascii_of_string
                                (join ", " (piece :: pieces)))).
    { apply ends_solid_app_r.
      change (" "%char :: list_ascii_of_string (join ", " (piece :: pieces)))
        with ([" "%char]
                ++ list_ascii_of_string (join ", " (piece :: pieces))).
      apply ends_solid_app_r. now apply join_ends_solid. }
    rewrite rstrip_solid by exact Hend.
    rewrite !list_ascii_app. cbn [list_ascii_of_string app].
    split; [|split; [apply Hstart|exact Hend]].
    change (" "%char :: list_ascii_of_string (join ", " (piece :: pieces)))
      with (list_ascii_of_string (String " " (join ", " (piece :: pieces)))).
    now rewrite <- list_ascii_app, string_of_list_ascii_of_string.
Qed.

(** The stripped line, cut at its first space. *)
Lemma stripped_line_cut m pieces :
  mnemonic_ok m = true ->
  partition_space (match pieces with
                   | [] => m
                   | _ => m +:+ " " +:+ join ", " pieces
                   end)
  = (m, join ", " pieces).
Proof.
  intros Hm. destruct (mnemonic_ok_solid m Hm) as [_ Hs].
  destruct pieces as [|piece pieces].
  - now apply partition_space_plain.
  - now apply partition_space_app.
Qed.

(** The operands, read back from what [", ".join] made of them. *)
Lemma parse_pieces literal_eval m arguments :
  (forall z, literal_eval (hex z) = Some z) ->
  Forall (fun a => canonical a = true) arguments ->
  (parsed ← map_result
              (fun arg_str => parse_arg literal_eval (strip arg_str))
              (str_split "," (join ", " (Argument_str <$> arguments)));
   Ok (mkInstruction m (omap id parsed)))
  = Ok (mkInstruction m arguments).
Proof.
  intros Hle Hall.
  assert (Hshape : Forall (fun s => starts_solid (list_ascii_of_string s)
                                    /\ ends_solid (list_ascii_of_string s)
                                    /\ ","%char ∉ list_ascii_of_string s)
                          (Argument_str <$> arguments)).
  { apply Forall_fmap. eapply Forall_impl; [exact Hall|].
    intros a Ha. now apply Argument_str_shape. }
  destruct arguments as [|a arguments].
  - cbn. unfold parse_arg. cbn. reflexivity.
  - cbn [fmap list_fmap] in *.
    change (list_fmap Argument string Argument_str arguments)
      with (Argument_str <$> arguments) in *.
    rewrite split_comma_join
      by (eapply Forall_impl; [exact Hshape|]; now intros s (_ & _ & H)).
    cbn [map_result].
    apply Forall_cons in Hall as [Ha Hall].
    apply Forall_cons in Hshape as [(Hs1 & He1 & _) Hshape].
    rewrite strip_tight by assumption.
    rewrite (parse_arg_print _ _ Hle Ha). cbn [mbind result_bind].
    rewrite <- list_fmap_compose.
    rewrite (map_result_fmap _ _ Some).
    + cbn. now rewrite omap_id_Some.
    + apply Forall_forall. intros b Hb. unfold compose. cbv beta.
      rewrite Forall_forall in Hall. rewrite Forall_fmap, Forall_forall in Hshape.
      destruct (Hshape b Hb) as (Hs & He & _).
      rewrite strip_space_tight by assumption.
      apply parse_arg_print; [exact Hle|]. now apply Hall.
Qed.

Lemma printed_arguments_end arguments :
  Forall (fun a => canonical a = true) arguments ->
  Forall (fun s => ends_solid (list_ascii_of_string s))
         (Argument_str <$> arguments).
Proof.
  intros Hall. apply Forall_fmap. eapply Forall_impl; [exact Hall|].
  intros a Ha. now apply Argument_str_shape.
Qed.

(** X6. parse_instruction reads the line Instruction.__str__ prints for an
    instruction as that instruction again, when the mnemonic is not empty
    and holds no white space, every argument is canonical and
    [ast.literal_eval] evaluates the literals [hex] prints. *)
Theorem parse_instruction_round_trip literal_eval i :
  (forall z, literal_eval (hex z) = Some z) ->
  mnemonic_ok (mnemonic i) = true ->
  Forall (fun a => canonical a = true) (args i) ->
  parse_instruction literal_eval (Instruction_str i) = Ok i.
Proof.
  intros Hle Hm Hall. destruct i as [m arguments]. cbn [mnemonic args] in *.
  unfold parse_instruction, Instruction_str. cbn [mnemonic args].
  destruct (printed_line_strip m (Argument_str <$> arguments) Hm
              (printed_arguments_end _ Hall)) as [-> _].
  rewrite stripped_line_cut by exact Hm.
  now apply parse_pieces.
Qed.

Lemma parse_instruction_round_trip_witness :
  parse_instruction literal_eval_hex
    (Instruction_str
       (mkInstruction "lw"
          [Register "t0";
           AddressMode (Some (NumberLiteral 4)) (Register "sp")]))
  = Ok (mkInstruction "lw"
          [Register "t0";
           AddressMode (Some (NumberLiteral 4)) (Register "sp")]).
Proof.
  apply parse_instruction_round_trip.
  - exact literal_eval_hex_spec.
  - reflexivity.
  - repeat constructor.
Defined.
(** * Further properties of the block builder *)

Lemma new_block_taken st : taken (new_block st) = taken st.
Proof.
  unfold new_block, taken.
  destruct (curr_instructions st) as [|item items] eqn:E; cbn [length Nat.eqb].
  - now rewrite E.
  - cbn [blocks curr_instructions]. rewrite fmap_app, concat_app. cbn.
    now rewrite !app_nil_r.
Qed.

Lemma new_block_filled st : builder_filled st -> builder_filled (new_block st).
Proof.
  unfold new_block, builder_filled. intros H.
  destruct (curr_instructions st) as [|item items] eqn:E; cbn [length Nat.eqb];
    [exact H|].
  cbn [blocks]. apply Forall_app. split; [exact H|].
  constructor; [|constructor]. cbn. discriminate.
Qed.

Lemma build_loop_filled n :
  forall body_iter st st',
    length body_iter <= n ->
    builder_filled st ->
    build_loop body_iter st = Ok st' ->
    builder_filled st'.
Proof.
  induction n as [|n IH]; intros body_iter st st' Hn Hst H.
  - destruct body_iter; [|cbn in Hn; lia]. cbn in H. now inversion H; subst.
  - destruct body_iter as [|[l|i] rest]; cbn in H.
    + now inversion H; subst.
    + apply (IH rest _ _ ltac:(cbn in Hn; lia)) in H; [exact H|].
      exact (new_block_filled st Hst).
    + destruct (is_branch_instruction i).
      * destruct rest as [|d rest']; [discriminate|].
        apply (IH rest' _ _ ltac:(cbn in Hn; lia)) in H; [exact H|].
        now apply new_block_filled.
      * apply (IH rest _ _ ltac:(cbn in Hn; lia)) in H; [exact H|exact Hst].
Qed.

(** X7. The blocks the builder makes are numbered from 0 in the order of
    the list, without gaps, and none of them is empty. *)
Theorem build_blocks_numbered function blocks i block :
  build_blocks function = Ok blocks ->
  blocks !! i = Some block ->
  index block = i /\ instructions block <> [].
Proof.
  unfold build_blocks. intros H Hi.
  destruct (build_loop (body function) (mkBuilder [] 0 None [])) as [st| |] eqn:E;
    cbn in H; try discriminate.
  inversion H; subst; clear H. split.
  - apply (build_loop_indexed _ _ _ _ (le_n _)) in E.
    + apply new_block_indexed in E as [_ Hidx]. now apply Hidx.
    + split; [reflexivity|]. intros j b Hj. discriminate Hj.
  - apply (build_loop_filled _ _ _ _ (le_n _)) in E; [|constructor].
    apply new_block_filled in E. unfold builder_filled in E.
    rewrite Forall_forall in E. apply E.
    eapply list_elem_of_lookup_2. exact Hi.
Qed.

Lemma build_blocks_numbered_witness :
  index branch_in_delay_slot_block0 = 0
  /\ instructions branch_in_delay_slot_block0 <> [].
Proof.
  apply (build_blocks_numbered branch_in_delay_slot
           branch_in_delay_slot_blocks 0 branch_in_delay_slot_block0);
    reflexivity.
Defined.

Lemma build_loop_taken n :
  forall body_iter st st',
    length body_iter <= n ->
    build_loop body_iter st = Ok st' ->
    List.filter is_instruction (taken st')
    = List.filter is_instruction (taken st)
        ++ List.filter is_instruction body_iter.
Proof.
  induction n as [|n IH]; intros body_iter st st' Hn H.
  - destruct body_iter; [|cbn in Hn; lia]. cbn in H. inversion H; subst.
    cbn. now rewrite app_nil_r.
  - destruct body_iter as [|[l|i] rest]; cbn in H.
    + inversion H; subst. cbn. now rewrite app_nil_r.
    + apply (IH rest _ _ ltac:(cbn in Hn; lia)) in H. rewrite H. cbn.
      f_equal. f_equal.
      change (taken (set_curr_label l (new_block st)))
        with (taken (new_block st)).
      apply new_block_taken.
    + destruct (is_branch_instruction i).
      * destruct rest as [|d rest']; [discriminate|].
        apply (IH rest' _ _ ltac:(cbn in Hn; lia)) in H. rewrite H.
        rewrite new_block_taken. unfold taken. cbn.
        rewrite !List.filter_app. cbn. rewrite <- !app_assoc. cbn.
        now destruct (is_instruction d).
      * apply (IH rest _ _ ltac:(cbn in Hn; lia)) in H. rewrite H.
        unfold taken. cbn. rewrite !List.filter_app. cbn.
        now rewrite <- !app_assoc.
Qed.

(** X8. The builder loses no instruction and invents none: the
    instructions of the blocks, read in order, are the instructions of the
    function body (the labels of the body are left out, but for one taken
    as the delay slot of a branch). *)
Theorem build_blocks_keeps_instructions function blocks :
  build_blocks function = Ok blocks ->
  List.filter is_instruction (concat (instructions <$> blocks))
  = List.filter is_instruction (body function).
Proof.
  unfold build_blocks. intros H.
  destruct (build_loop (body function) (mkBuilder [] 0 None [])) as [st| |] eqn:E;
    cbn in H; try discriminate.
  inversion H; subst; clear H.
  apply (build_loop_taken _ _ _ _ (le_n _)) in E.
  change (taken (mkBuilder [] 0 None [])) with (@nil BodyItem) in E.
  cbn [List.filter app] in E.
  rewrite <- E, <- (new_block_taken st). unfold taken.
  assert (curr_instructions (new_block st) = []) as ->
      by (unfold new_block; destruct (curr_instructions st) eqn:Ec; cbn; [exact Ec|reflexivity]).
  now rewrite app_nil_r.
Qed.

Lemma build_blocks_keeps_instructions_witness :
  List.filter is_instruction
    (concat (instructions <$> branch_in_delay_slot_blocks))
  = List.filter is_instruction (body branch_in_delay_slot).
Proof.
  apply (build_blocks_keeps_instructions branch_in_delay_slot). reflexivity.
Defined.

Lemma build_loop_error n :
  forall body_iter st,
    length body_iter <= n ->
    match build_loop body_iter st with
    | Ok _ => True
    | Err e =>
        e = StopIteration
        /\ exists pre branch,
             body_iter = pre ++ [ItemInstruction branch]
             /\ is_branch_instruction branch = true
    | OutOfFuel => False
    end.
Proof.
  induction n as [|n IH]; intros body_iter st Hn.
  - destruct body_iter; [exact I|cbn in Hn; lia].
  - destruct body_iter as [|[l|i] rest]; cbn [build_loop].
    + exact I.
    + specialize (IH rest (set_curr_label l (new_block st))
                     ltac:(cbn in Hn; lia)).
      destruct (build_loop rest _) as [st'|e|]; [exact I| |exact IH].
      destruct IH as (-> & pre & branch & -> & Hbr).
      split; [reflexivity|]. now exists (ItemLabel l :: pre), branch.
    + destruct (is_branch_instruction i) eqn:Hbr.
      * destruct rest as [|d rest'].
        -- split; [reflexivity|]. now exists [], i.
        -- match goal with
           | |- match build_loop rest' ?s with _ => _ end =>
               specialize (IH rest' s ltac:(cbn in Hn; lia));
               destruct (build_loop rest' s) as [st'|e|]
           end; [exact I| |exact IH].
           destruct IH as (-> & pre & branch & -> & Hb).
           split; [reflexivity|].
           now exists (ItemInstruction i :: d :: pre), branch.
      * match goal with
        | |- match build_loop rest ?s with _ => _ end =>
            specialize (IH rest s ltac:(cbn in Hn; lia));
            destruct (build_loop rest s) as [st'|e|]
        end; [exact I| |exact IH].
        destruct IH as (-> & pre & branch & -> & Hb).
        split; [reflexivity|]. now exists (ItemInstruction i :: pre), branch.
Qed.

(** X9. The builder fails in one way only: with StopIteration, raised by
    [next(body_iter)] when the function body ends with a branch instruction,
    whose delay slot is missing. *)
Theorem build_blocks_error function e :
  build_blocks function = Err e ->
  e = StopIteration
  /\ exists pre branch,
       body function = pre ++ [ItemInstruction branch]
       /\ is_branch_instruction branch = true.
Proof.
  unfold build_blocks. intros H.
  pose proof (build_loop_error _ (body function) (mkBuilder [] 0 None [])
                (le_n _)) as Hl.
  destruct (build_loop (body function) (mkBuilder [] 0 None [])) as [st|e'|];
    cbn in H; [discriminate| |discriminate].
  inversion H; subst. exact Hl.
Qed.

Lemma build_blocks_error_witness :
  build_blocks (mkFunction "f" [instr "nop" []; instr "b" [JumpTarget "L1"]])
  = Err StopIteration
  /\ exists pre branch,
       [instr "nop" []; instr "b" [JumpTarget "L1"]]
       = pre ++ [ItemInstruction branch]
       /\ is_branch_instruction branch = true.
Proof.
  split; [reflexivity|].
  apply (build_blocks_error
           (mkFunction "f" [instr "nop" []; instr "b" [JumpTarget "L1"]])
           StopIteration).
  reflexivity.
Defined.
(** * Further properties of the flow analysis *)

(** ** The shape of the result *)

Lemma indexed_inj blocks X Y :
  indexed blocks -> X ∈ blocks -> Y ∈ blocks -> index X = index Y -> X = Y.
Proof.
  intros Hidx HX HY Heq.
  apply list_elem_of_lookup in HX as [i Hi].
  apply list_elem_of_lookup in HY as [j Hj].
  pose proof (Hidx _ _ Hi). pose proof (Hidx _ _ Hj).
  assert (i = j) by lia. subst j. congruence.
Qed.

Lemma indexed_bound blocks X :
  indexed blocks -> X ∈ blocks -> index X < length blocks.
Proof.
  intros Hidx HX. apply list_elem_of_lookup in HX as [i Hi].
  rewrite (Hidx _ _ Hi). now apply lookup_lt_Some in Hi.
Qed.

Lemma indexed_last blocks exit_block :
  indexed blocks -> last blocks = Some exit_block ->
  index exit_block + 1 = length blocks.
Proof.
  intros Hidx Hlast. apply last_Some in Hlast as [front ->].
  rewrite length_app. cbn.
  rewrite (Hidx (length front) exit_block); [lia|].
  rewrite lookup_app_r by lia. now rewrite Nat.sub_diag.
Qed.

Lemma strictly_sorted blocks (l : list Node) :
  indexed blocks ->
  Forall (node_good blocks) l ->
  NoDup (node_block <$> l) ->
  StronglySorted index_le l ->
  StronglySorted index_lt l.
Proof.
  intros Hidx. induction l as [|a l IH]; intros Hgood Hnd Hs;
    [constructor|].
  apply Forall_cons in Hgood as [[Ha _] Hgood].
  rewrite fmap_cons in Hnd. apply NoDup_cons in Hnd as [Hna Hnd].
  apply StronglySorted_inv in Hs as [Hs Hall].
  constructor; [now apply IH|].
  rewrite Forall_forall in Hall, Hgood. apply Forall_forall. intros b Hb.
  specialize (Hall b Hb). destruct (Hgood b Hb) as [Hbin _].
  unfold index_le in Hall. unfold index_lt.
  destruct (decide (index (node_block a) = index (node_block b))) as [Heq|];
    [|lia].
  exfalso. apply Hna. rewrite (indexed_inj blocks _ _ Hidx Ha Hbin Heq).
  apply list_elem_of_fmap. now exists b.
Qed.

(** X10. The nodes of a flow analysis come in the strict order of their
    block indices: sorted, and no two nodes on blocks of the same index. *)
Theorem do_flow_analysis_strictly_sorted fuel function flow_analysis :
  do_flow_analysis fuel function = Ok flow_analysis ->
  StronglySorted index_lt (nodes flow_analysis).
Proof.
  intros H. apply do_flow_analysis_spec in H
    as (blocks & entrance & exit_block & _ & Hidx & _ & _ & Hnd & Hgood
        & Hs & _).
  now apply (strictly_sorted blocks).
Qed.

Lemma do_flow_analysis_strictly_sorted_witness :
  StronglySorted index_lt (nodes backward_flow).
Proof.
  apply (do_flow_analysis_strictly_sorted 4 backward_jump_function).
  reflexivity.
Defined.

(** X11. Every node of a flow analysis is on a block of the function and is
    wired as the branches of that block say: a block without a branch gets a
    BasicNode to the next block, a block with [b] a BasicNode to the target
    of the branch, a block with another branch a ConditionalNode to the
    target and to the next block; an ExitNode is on the last block. *)
Theorem do_flow_analysis_wired fuel function flow_analysis blocks node :
  do_flow_analysis fuel function = Ok flow_analysis ->
  build_blocks function = Ok blocks ->
  node ∈ nodes flow_analysis ->
  node_block node ∈ blocks /\ wired blocks node.
Proof.
  intros H Hb Hin. apply do_flow_analysis_spec in H
    as (blocks' & entrance & exit_block & Hb' & _ & _ & _ & _ & Hgood & _).
  rewrite Hb in Hb'. inversion Hb'; subst blocks'.
  rewrite Forall_forall in Hgood. now apply Hgood.
Qed.

Lemma do_flow_analysis_wired_witness :
  node_block backward_node2 ∈ backward_blocks
  /\ wired backward_blocks backward_node2.
Proof.
  apply (do_flow_analysis_wired 4 backward_jump_function backward_flow);
    [reflexivity|reflexivity|].
  apply (bool_decide_unpack _). vm_compute. exact I.
Defined.

(** ** The graph is closed *)

Lemma closed_snoc nodes node :
  closed nodes ->
  (forall edge, edge ∈ edges node -> edge ∈ nodes) ->
  closed (nodes ++ [node]).
Proof.
  intros Hc Hn n e Hin He. apply elem_of_app.
  apply elem_of_app in Hin as [Hin|Hin].
  - left. eapply Hc; eauto.
  - apply list_elem_of_singleton in Hin. subst n. left. now apply Hn.
Qed.

Lemma get_block_analysis_closed blocks fuel :
  forall nodes block node nodes',
    get_block_analysis blocks fuel nodes block = Ok (node, nodes') ->
    closed nodes -> closed nodes'.
Proof.
  induction fuel as [|fuel IH]; intros nodes block node nodes' H Hc.
  - cbn in H. destruct (lookup_node nodes block); [|discriminate].
    now inversion H; subst.
  - rewrite get_block_analysis_unfold in H.
    destruct (lookup_node nodes block) as [n|] eqn:E.
    { now inversion H; subst. }
    unfold mbind, result_bind in H.
    destruct (do_block_analysis _ _ _ _) as [[n ns]| |] eqn:Hdo;
      try discriminate.
    inversion H; subst; clear H.
    apply do_block_analysis_inv in Hdo
      as [(Y & ny & _ & _ & Hg & ->)
         |(T & Y & nt & nodes1 & nf & _ & Hg1 & Hg2 & ->)].
    + pose proof (get_block_analysis_extends _ _ _ _ _ _ Hg) as (_ & Hny & _).
      apply closed_snoc; [eapply IH; eauto|].
      intros e He. apply list_elem_of_singleton in He. now subst e.
    + pose proof (get_block_analysis_extends _ _ _ _ _ _ Hg1)
        as (_ & Hnt & _).
      pose proof (get_block_analysis_extends _ _ _ _ _ _ Hg2)
        as ([added ->] & Hnf & _).
      apply closed_snoc; [eapply IH; [exact Hg2|]; eapply IH; eauto|].
      intros e He. apply elem_of_cons in He as [->|He].
      * apply elem_of_app. now left.
      * apply list_elem_of_singleton in He. now subst e.
Qed.

(** X12. The nodes of a flow analysis form a closed graph: the node an edge
    leads to is itself one of the nodes of the analysis. *)
Theorem do_flow_analysis_closed fuel function flow_analysis node edge :
  do_flow_analysis fuel function = Ok flow_analysis ->
  node ∈ nodes flow_analysis ->
  edge ∈ edges node ->
  edge ∈ nodes flow_analysis.
Proof.
  unfold do_flow_analysis, mbind, result_bind, from_option. intros H.
  destruct (build_blocks function) as [blocks| |]; try discriminate.
  destruct (last blocks) as [exit_block|]; try discriminate.
  destruct (blocks !! 0) as [entrance_block|]; try discriminate.
  destruct (get_block_analysis _ _ _ _) as [[n raw]| |] eqn:Hg;
    try discriminate.
  inversion H; subst; clear H. cbn [nodes].
  apply get_block_analysis_closed in Hg.
  - intros Hin He. rewrite sort_nodes_perm in Hin. rewrite sort_nodes_perm.
    eapply Hg; eauto.
  - intros n' e Hin He. apply list_elem_of_singleton in Hin. subst n'.
    now apply elem_of_nil in He.
Qed.

Lemma do_flow_analysis_closed_witness :
  backward_node1 ∈ nodes backward_flow.
Proof.
  apply (do_flow_analysis_closed 4 backward_jump_function backward_flow
           backward_node2 backward_node1).
  - reflexivity.
  - apply (bool_decide_unpack _). vm_compute. exact I.
  - apply (bool_decide_unpack _). vm_compute. exact I.
Defined.

(** ** The exit node *)

(** X13. The last node of a flow analysis is the ExitNode of the last block
    of the function, and the analysis holds no other ExitNode. *)
Theorem do_flow_analysis_exit_node fuel function flow_analysis blocks :
  do_flow_analysis fuel function = Ok flow_analysis ->
  build_blocks function = Ok blocks ->
  exists exit_block,
    last blocks = Some exit_block
    /\ last (nodes flow_analysis) = Some (ExitNode exit_block)
    /\ forall block,
         ExitNode block ∈ nodes flow_analysis -> block = exit_block.
Proof.
  intros H Hb. apply do_flow_analysis_spec in H
    as (blocks' & entrance & exit_block & Hb' & Hidx & _ & Hlast & Hnd
        & Hgood & Hs & Hexit & _).
  rewrite Hb in Hb'. inversion Hb'; subst blocks'. clear Hb'.
  exists exit_block. split; [exact Hlast|].
  pose proof (strictly_sorted blocks _ Hidx Hgood Hnd Hs) as Hlt.
  rewrite Forall_forall in Hgood. split.
  - destruct (nodes flow_analysis) as [|n0 l0] using rev_ind;
      [now apply elem_of_nil in Hexit|].
    clear IHl0. rewrite last_snoc.
    apply elem_of_app in Hexit as [Hin|Hin];
      [|apply list_elem_of_singleton in Hin; now subst].
    exfalso.
    assert (Hn0 : node_block n0 ∈ blocks).
    { apply Hgood. apply elem_of_app. right. apply list_elem_of_here. }
    apply (indexed_bound _ _ Hidx) in Hn0.
    pose proof (indexed_last _ _ Hidx Hlast) as Hmax.
    assert (Hord : index_lt (ExitNode exit_block) n0).
    { clear - Hlt Hin. induction l0 as [|a l IH]; [now apply elem_of_nil in Hin|].
      cbn in Hlt. apply StronglySorted_inv in Hlt as [Hl Hall].
      apply elem_of_cons in Hin as [<-|Hin]; [|now apply IH].
      rewrite Forall_forall in Hall. apply Hall.
      apply elem_of_app. right. apply list_elem_of_here. }
    unfold index_lt in Hord. cbn in Hord. lia.
  - intros block Hin. destruct (Hgood _ Hin) as [_ Hw]. cbn in Hw. congruence.
Qed.

Lemma do_flow_analysis_exit_node_witness :
  exists exit_block,
    last backward_blocks = Some exit_block
    /\ last (nodes backward_flow) = Some (ExitNode exit_block)
    /\ forall block,
         ExitNode block ∈ nodes backward_flow -> block = exit_block.
Proof.
  apply (do_flow_analysis_exit_node 4 backward_jump_function); reflexivity.
Defined.

(** ** When the analysis does not return *)

Lemma first_successor_unique blocks X Y Z :
  first_successor blocks X Y -> first_successor blocks X Z -> Y = Z.
Proof.
  intros [[Hb Hn]|(br & t & Hb & Hl & Hf)]
         [[Hb' Hn']|(br' & t' & Hb' & Hl' & Hf')]; congruence.
Qed.

Lemma second_successor_first blocks X T Y Z :
  second_successor blocks X T Y -> first_successor blocks X Z -> Z = T.
Proof.
  intros (br & t & Hb & Hl & Hf & _)
         [[Hb' _]|(br' & t' & Hb' & Hl' & Hf')]; congruence.
Qed.

Lemma second_successor_unique blocks X T Y T' Z :
  second_successor blocks X T Y -> second_successor blocks X T' Z -> Y = Z.
Proof.
  intros (br & t & _ & _ & _ & _ & Hn) (br' & t' & _ & _ & _ & _ & Hn').
  congruence.
Qed.

(** No block of a trap gets a node: a call of [get_block_analysis] that
    returns was not made on a block of the trap, and leaves every block of
    the trap without a node. *)
Lemma get_block_analysis_trap blocks exit_block cycle fuel :
  trap blocks exit_block cycle ->
  forall nodes block node nodes',
    (forall X, X ∈ cycle -> lookup_node nodes X = None) ->
    get_block_analysis blocks fuel nodes block = Ok (node, nodes') ->
    (block ∉ cycle)
    /\ forall X, X ∈ cycle -> lookup_node nodes' X = None.
Proof.
  intros [_ Htrap].
  induction fuel as [|fuel IH]; intros nodes block node nodes' Hnone H.
  - cbn in H. destruct (lookup_node nodes block) as [n|] eqn:E;
      [|discriminate].
    inversion H; subst. split; [|exact Hnone].
    intros Hin. rewrite (Hnone _ Hin) in E. discriminate.
  - rewrite get_block_analysis_unfold in H.
    destruct (lookup_node nodes block) as [n|] eqn:E.
    { inversion H; subst. split; [|exact Hnone].
      intros Hin. rewrite (Hnone _ Hin) in E. discriminate. }
    unfold mbind, result_bind in H.
    destruct (do_block_analysis _ _ _ _) as [[n ns]| |] eqn:Hdo;
      try discriminate.
    inversion H; subst; clear H.
    assert (Hns : node_block node = block /\ (block ∉ cycle)
                  /\ forall X, X ∈ cycle -> lookup_node ns X = None).
    { apply do_block_analysis_inv in Hdo
        as [(Y & ny & Hs & Hb & Hg & ->)
           |(T & Y & nt & nodes1 & nf & Hs & Hg1 & Hg2 & ->)].
      - split; [reflexivity|].
        destruct (IH _ _ _ _ Hnone Hg) as [HY Hnone'].
        split; [|exact Hnone']. intros Hin.
        destruct (Htrap _ Hin) as (Z & HZ & [Hz|(T & Hz)]).
        + now rewrite (first_successor_unique _ _ _ _ Hz Hs) in HZ.
        + destruct Hz as (br & t & Hbr & _ & _ & Hm & _).
          rewrite (Hb br Hbr) in Hm. discriminate Hm.
      - split; [reflexivity|].
        destruct (IH _ _ _ _ Hnone Hg1) as [HT Hnone1].
        destruct (IH _ _ _ _ Hnone1 Hg2) as [HY Hnone2].
        split; [|exact Hnone2]. intros Hin.
        destruct (Htrap _ Hin) as (Z & HZ & [Hz|(T' & Hz)]).
        + now rewrite (second_successor_first _ _ _ _ _ Hs Hz) in HZ.
        + now rewrite (second_successor_unique _ _ _ _ _ _ Hz Hs) in HZ. }
    destruct Hns as (Hb & Hout & Hnone').
    split; [exact Hout|]. intros X HX.
    apply lookup_node_snoc_none; [now apply Hnone'|].
    rewrite Hb. intros ->. contradiction.
Qed.

(** X14. The analysis returns no flow analysis for a function whose entry
    block lies in a trap: a set of blocks, the last block of the function
    not among them, each of which has a successor in the set, where the
    successors of a block are the next block when it has no branch, the
    target of its branch, and the next block again when the branch is
    conditional. A loop is a trap with the blocks that lead to it from the
    entry, whether or not a branch leaves it: the node of a block is
    recorded only once the nodes of all its successors are there. The run
    ends in an exception, or the recursion goes on until Python gives
    up. *)
Theorem do_flow_analysis_cycle
        fuel function blocks entrance_block exit_block cycle :
  build_blocks function = Ok blocks ->
  blocks !! 0 = Some entrance_block ->
  last blocks = Some exit_block ->
  trap blocks exit_block cycle ->
  entrance_block ∈ cycle ->
  never_ok (do_flow_analysis fuel function).
Proof.
  intros Hb Hentry Hlast Htrap Hin flow_analysis.
  unfold do_flow_analysis, mbind, result_bind, from_option.
  rewrite Hb, Hlast, Hentry.
  destruct (get_block_analysis _ _ _ _) as [[n raw]| |] eqn:Hg;
    try discriminate.
  exfalso.
  apply (get_block_analysis_trap _ _ _ _ Htrap) in Hg as [Hout _];
    [contradiction|].
  intros X HX. apply lookup_node_none. intros node Hnode.
  apply list_elem_of_singleton in Hnode as ->. cbn.
  intros ->. now destruct Htrap.
Qed.

Lemma do_flow_analysis_cycle_witness :
  build_blocks while_function
  = Ok [while_block0; while_block1; while_block2; while_block3]
  /\ never_ok (do_flow_analysis 10 while_function).
Proof.
  split; [reflexivity|].
  apply (do_flow_analysis_cycle 10 while_function
           [while_block0; while_block1; while_block2; while_block3]
           while_block0 while_block3 [while_block0; while_block1]);
    try reflexivity; [|apply list_elem_of_here].
  split.
  - apply (bool_decide_unpack _). vm_compute. exact I.
  - intros X HX. apply elem_of_cons in HX as [->|HX];
      [|apply list_elem_of_singleton in HX as ->].
    + exists while_block1.
      split; [apply list_elem_of_further, list_elem_of_here|].
      right. exists while_block2.
      exists (mkInstruction "beq"
                [Register "a0"; Register "zero"; JumpTarget "L2"]), "L2".
      repeat split.
    + exists while_block0. split; [apply list_elem_of_here|].
      left. right. exists (mkInstruction "b" [JumpTarget "L0"]), "L0".
      repeat split.
Defined.

(** ** When the analysis ends *)

Lemma branches_of_ends instructions : branches_of instructions <> OutOfFuel.
Proof.
  induction instructions as [|[l|i] rest IH]; cbn; try discriminate.
  destruct (branches_of rest); [discriminate|discriminate|congruence].
Qed.

Lemma find_block_by_label_in blocks target T :
  find_block_by_label blocks target = Some T -> T ∈ blocks.
Proof.
  intros H. apply find_some in H as [H _]. now apply list_elem_of_In.
Qed.

Lemma get_block_analysis_forward blocks exit_block :
  indexed blocks ->
  forward blocks ->
  last blocks = Some exit_block ->
  forall fuel nodes X,
    X ∈ blocks ->
    is_Some (lookup_node nodes exit_block) ->
    length blocks <= fuel + index X + 1 ->
    get_block_analysis blocks fuel nodes X <> OutOfFuel.
Proof.
  intros Hidx Hfw Hlast.
  pose proof (indexed_last _ _ Hidx Hlast) as Hmax.
  assert (Hexit : exit_block ∈ blocks).
  { apply last_Some in Hlast as [l ->]. apply elem_of_app. right.
    apply list_elem_of_here. }
  assert (Hkeep : forall f nodes Y r,
             get_block_analysis blocks f nodes Y = Ok r ->
             is_Some (lookup_node nodes exit_block) ->
             is_Some (lookup_node r.2 exit_block)).
  { intros f nodes Y [n ns] Hg [e He]. cbn.
    apply get_block_analysis_extends in Hg as ([added ->] & _).
    exists e. now apply lookup_node_app. }
  induction fuel as [|fuel IH]; intros nodes X HX Hnode Hlen.
  - pose proof (indexed_bound _ _ Hidx HX) as Hlt.
    assert (X = exit_block)
      by (apply (indexed_inj blocks); auto; lia).
    subst X. destruct Hnode as [e He]. cbn. now rewrite He.
  - rewrite get_block_analysis_unfold.
    destruct (lookup_node nodes X) as [n|]; [discriminate|].
    unfold do_block_analysis, mbind, result_bind, from_option, py_assert.
    pose proof (branches_of_ends (instructions X)) as Hbr.
    destruct (branches_of (instructions X)) as [[|branch [|b2 bs]]| |] eqn:Hb;
      try discriminate; [| |congruence].
    + destruct (blocks !! (index X + 1)) as [Y|] eqn:HY; [|discriminate].
      pose proof (Hidx _ _ HY) as HiY.
      assert (HYin : Y ∈ blocks) by (eapply list_elem_of_lookup_2; eauto).
      specialize (IH nodes Y HYin Hnode ltac:(lia)).
      destruct (get_block_analysis blocks fuel nodes Y) as [[ny ns]| |];
        [discriminate|discriminate|congruence].
    + destruct (last (args branch)) as [[| | | | | |target]|] eqn:Hl;
        try discriminate.
      destruct (find_block_by_label blocks target) as [T|] eqn:Hf;
        [|discriminate].
      pose proof (Hfw _ _ _ _ HX Hb Hl Hf) as HlT.
      pose proof (find_block_by_label_in _ _ _ Hf) as HTin.
      pose proof (IH nodes T HTin Hnode ltac:(lia)) as IHT.
      destruct (get_block_analysis blocks fuel nodes T) as [[nt nodes1]| |]
        eqn:Hg; [|discriminate|congruence].
      destruct (String.eqb (mnemonic branch) "b"); [discriminate|].
      destruct (Nat.ltb _ _); [|discriminate].
      destruct (blocks !! (index X + 1)) as [Y|] eqn:HY; [|discriminate].
      pose proof (Hidx _ _ HY) as HiY.
      assert (HYin : Y ∈ blocks) by (eapply list_elem_of_lookup_2; eauto).
      pose proof (Hkeep _ _ _ _ Hg Hnode) as Hnode1. cbn in Hnode1.
      specialize (IH nodes1 Y HYin Hnode1 ltac:(lia)).
      destruct (get_block_analysis blocks fuel nodes1 Y) as [[nf ns]| |];
        [discriminate|discriminate|congruence].
Qed.

(** X15. On a function whose branches all go forward, to a block of
    greater index, the analysis ends, with a result or with an exception:
    the recursion is never deeper than the number of blocks. *)
Theorem do_flow_analysis_forward_ends fuel function blocks :
  build_blocks function = Ok blocks ->
  forward blocks ->
  length blocks <= fuel + 1 ->
  do_flow_analysis fuel function <> OutOfFuel.
Proof.
  intros Hb Hfw Hlen.
  unfold do_flow_analysis, mbind, result_bind, from_option. rewrite Hb.
  destruct (last blocks) as [exit_block|] eqn:Hlast; [|discriminate].
  destruct (blocks !! 0) as [entrance_block|] eqn:Hentry; [|discriminate].
  pose proof (build_blocks_indexed _ _ Hb) as Hidx.
  assert (Hin : entrance_block ∈ blocks)
    by (eapply list_elem_of_lookup_2; eauto).
  pose proof (get_block_analysis_forward blocks exit_block Hidx Hfw Hlast
                fuel [ExitNode exit_block] entrance_block Hin) as Hends.
  destruct (get_block_analysis _ _ _ _) as [[n raw]| |];
    [discriminate|discriminate|].
  exfalso. apply Hends; [|lia|reflexivity].
  exists (ExitNode exit_block). cbn. now rewrite bool_decide_eq_true_2.
Qed.

Lemma skip_blocks_forward : forward skip_blocks.
Proof.
  intros X T branch target HX Hb Hl Hf.
  repeat (apply elem_of_cons in HX as [->|HX]);
    [| | |now apply elem_of_nil in HX];
    vm_compute in Hb; inversion Hb; subst branch.
  vm_compute in Hl. inversion Hl; subst target.
  vm_compute in Hf. inversion Hf; subst T. cbn. lia.
Qed.

Lemma do_flow_analysis_forward_ends_witness :
  do_flow_analysis 2 skip_function <> OutOfFuel.
Proof.
  apply (do_flow_analysis_forward_ends 2 skip_function skip_blocks).
  - reflexivity.
  - exact skip_blocks_forward.
  - cbn. lia.
Defined.

(** ** A function without instructions *)

Lemma build_loop_labels body_iter :
  Forall (fun item => is_instruction item = false) body_iter ->
  forall label,
    exists label',
      build_loop body_iter (mkBuilder [] 0 label []) 
      = Ok (mkBuilder [] 0 label' []).
Proof.
  induction 1 as [|[l|i] rest Hitem _ IH]; intros label.
  - now exists label.
  - cbn. apply IH.
  - discriminate Hitem.
Qed.

(** X16. On a function whose body holds no instruction (it is empty or made
    of labels only) the analysis raises IndexError: there is no block to
    take as the exit block. *)
Theorem do_flow_analysis_no_instruction fuel function :
  Forall (fun item => is_instruction item = false) (body function) ->
  do_flow_analysis fuel function = Err IndexError.
Proof.
  intros H. unfold do_flow_analysis, build_blocks.
  destruct (build_loop_labels _ H None) as [label' ->]. reflexivity.
Qed.

Lemma do_flow_analysis_no_instruction_witness :
  do_flow_analysis 5 (mkFunction "f" [ItemLabel (mkLabel "L1")])
  = Err IndexError.
Proof.
  apply (do_flow_analysis_no_instruction
           5 (mkFunction "f" [ItemLabel (mkLabel "L1")])).
  repeat constructor.
Defined.
(** * Further properties of the stack-frame analysis *)

Lemma find_stack_info_inv flow_analysis info :
  find_stack_info flow_analysis = Ok info ->
  exists start_node raw,
    nodes flow_analysis !! 0 = Some start_node
    /\ stack_info_loop initial_stack_info
         (instructions (node_block start_node)) = Ok raw
    /\ allocated_stack_size info = allocated_stack_size raw
    /\ is_leaf info = is_leaf raw
    /\ return_addr_location info = return_addr_location raw
    /\ callee_save_reg_locations info = callee_save_reg_locations raw
    /\ local_vars_region_bottom info
       = if is_leaf raw then
           match max_value (callee_save_reg_locations raw) with
           | Some m => (m + 4)%Z
           | None => 0%Z
           end
         else (return_addr_location raw + 4)%Z.
Proof.
  unfold find_stack_info, mbind, result_bind, from_option. intros H.
  destruct (nodes flow_analysis !! 0) as [start_node|]; [|discriminate].
  destruct (stack_info_loop _ _) as [raw| |] eqn:Hl; try discriminate.
  inversion H; subst; clear H. exists start_node, raw. cbn. auto 10.
Qed.

(** ** Leaf functions *)

Lemma stack_info_step_leaf info item info' :
  stack_info_step info item = Ok info' ->
  is_leaf info' = is_leaf info && negb (saves_ra item).
Proof.
  unfold stack_info_step, saves_ra, mbind, result_bind, register_name_of,
    arg_at, from_option, py_assert, offset_of.
  destruct item as [l|inst]; [discriminate|].
  destruct (args inst) as [|destination rest] eqn:Ha.
  { intros [= <-]. now rewrite andb_false_r, andb_true_r. }
  destruct (String.eqb_spec (mnemonic inst) "addiu") as [Hm|_].
  { rewrite Hm. cbn [String.eqb Ascii.eqb Bool.eqb andb negb].
    rewrite andb_true_r.
    destruct destination; try discriminate.
    destruct (String.eqb _ "sp"); [|now intros [= <-]].
    destruct ((Register register_name :: rest) !! 2) as [[]|];
      try discriminate.
    now intros [= <-]. }
  destruct (String.eqb (mnemonic inst) "sw");
    [|intros [= <-]; now rewrite andb_true_r].
  destruct destination; try discriminate. cbn [andb].
  destruct (String.eqb register_name "ra").
  { destruct ((Register register_name :: rest) !! 1) as [[| | | |lhs rhs| |]|];
      try discriminate.
    destruct rhs; try discriminate.
    destruct (String.eqb _ "sp"); [|discriminate].
    destruct lhs as [[]|]; try discriminate;
      intros [= <-]; cbn; now rewrite andb_false_r. }
  rewrite andb_true_r.
  destruct (name_is_callee_save register_name); [|now intros [= <-]].
  destruct ((Register register_name :: rest) !! 1) as [[| | | |lhs rhs| |]|];
    try discriminate; try (now intros [= <-]).
  destruct rhs; try (now intros [= <-]).
  destruct (String.eqb _ "sp"); [|now intros [= <-]].
  destruct lhs as [[]|]; try discriminate; now intros [= <-].
Qed.

Lemma stack_info_loop_leaf instructions :
  forall info info',
    stack_info_loop info instructions = Ok info' ->
    is_leaf info' = is_leaf info && negb (existsb saves_ra instructions).
Proof.
  induction instructions as [|item rest IH]; intros info info' H; cbn in H.
  - inversion H; subst. cbn. now rewrite andb_true_r.
  - unfold mbind, result_bind in H.
    destruct (stack_info_step info item) as [info1| |] eqn:Hs;
      try discriminate.
    apply IH in H. apply stack_info_step_leaf in Hs.
    rewrite H, Hs. cbn [existsb]. rewrite negb_orb. now rewrite andb_assoc.
Qed.

(** X17. The function is taken for a leaf exactly when the entry block
    holds no [sw] whose first operand is [$ra]. *)
Theorem find_stack_info_leaf flow_analysis info start_node :
  find_stack_info flow_analysis = Ok info ->
  nodes flow_analysis !! 0 = Some start_node ->
  is_leaf info
  = negb (existsb saves_ra (instructions (node_block start_node))).
Proof.
  intros H Hstart.
  apply find_stack_info_inv in H
    as (start' & raw & Hstart' & Hloop & _ & -> & _).
  rewrite Hstart in Hstart'. inversion Hstart'; subst start'.
  now apply stack_info_loop_leaf in Hloop.
Qed.

Lemma find_stack_info_leaf_witness :
  is_leaf prologue_epilogue_info
  = negb (existsb saves_ra prologue_epilogue_body).
Proof.
  apply (find_stack_info_leaf prologue_epilogue_flow prologue_epilogue_info
           (ExitNode (mkBlock 0 None prologue_epilogue_body)));
    reflexivity.
Defined.

(** ** The callee-save registers *)

Lemma stack_info_step_callee info item info' register_name location :
  stack_info_step info item = Ok info' ->
  callee_save_reg_locations info' !! register_name = Some location ->
  callee_save_reg_locations info !! register_name = Some location
  \/ (name_is_callee_save register_name = true
      /\ saves_register register_name location item).
Proof.
  unfold stack_info_step, mbind, result_bind, register_name_of,
    arg_at, from_option, py_assert.
  destruct item as [l|[m a]]; [discriminate|]. cbn [args mnemonic].
  destruct a as [|destination rest].
  { intros [= <-]. now left. }
  destruct (String.eqb m "addiu").
  { destruct destination; try discriminate.
    destruct (String.eqb _ "sp"); [|intros [= <-]; now left].
    destruct ((Register register_name0 :: rest) !! 2) as [[]|];
      try discriminate.
    intros [= <-]. now left. }
  destruct (String.eqb_spec m "sw") as [Hm|_]; [|intros [= <-]; now left].
  destruct destination as [dest_name| | | | | |]; try discriminate.
  destruct (String.eqb dest_name "ra").
  { destruct rest as [|[| | | |lhs rhs| |] rest']; try discriminate.
    cbn [lookup list_lookup].
    destruct rhs; try discriminate.
    destruct (String.eqb _ "sp"); [|discriminate].
    destruct (offset_of lhs); try discriminate.
    intros [= <-]. now left. }
  destruct (name_is_callee_save dest_name) eqn:Hcs;
    [|intros [= <-]; now left].
  destruct rest as [|[| | | |lhs rhs| |] rest']; cbn [lookup list_lookup];
    try discriminate; try (intros [= <-]; now left).
  destruct rhs as [rhs_name| | | | | |]; try (intros [= <-]; now left).
  destruct (String.eqb_spec rhs_name "sp") as [Hsp|_];
    [|intros [= <-]; now left].
  destruct (offset_of lhs) as [loc| |] eqn:Hoff; try discriminate.
  intros [= <-]. cbn [callee_save_reg_locations].
  destruct (decide (dest_name = register_name)) as [->|Hne].
  - rewrite lookup_insert_eq. intros [= <-]. right.
    split; [exact Hcs|]. exists lhs, rest'. subst. split; [reflexivity|exact Hoff].
  - rewrite lookup_insert_ne by exact Hne. now left.
Qed.

Lemma stack_info_loop_callee instructions :
  forall info info' register_name location,
    stack_info_loop info instructions = Ok info' ->
    callee_save_reg_locations info' !! register_name = Some location ->
    callee_save_reg_locations info !! register_name = Some location
    \/ (name_is_callee_save register_name = true
        /\ exists item,
             item ∈ instructions
             /\ saves_register register_name location item).
Proof.
  induction instructions as [|item rest IH];
    intros info info' r loc H Hr; cbn in H.
  - inversion H; subst. now left.
  - unfold mbind, result_bind in H.
    destruct (stack_info_step info item) as [info1| |] eqn:Hs;
      try discriminate.
    destruct (IH _ _ _ _ H Hr) as [Hold|(Hcs & it & Hin & Hsv)].
    + destruct (stack_info_step_callee _ _ _ _ _ Hs Hold) as [?|[Hcs Hsv]];
        [now left|].
      right. split; [exact Hcs|]. exists item.
      split; [apply list_elem_of_here|exact Hsv].
    + right. split; [exact Hcs|]. exists it.
      split; [now apply list_elem_of_further|exact Hsv].
Qed.

(** X18. Every register recorded in [callee_save_reg_locations] has a name
    that starts with [s0] to [s7], and is recorded at the offset of an
    instruction [sw $r, offset($sp)] of the entry block. *)
Theorem find_stack_info_callee_save
        flow_analysis info start_node register_name location :
  find_stack_info flow_analysis = Ok info ->
  nodes flow_analysis !! 0 = Some start_node ->
  callee_save_reg_locations info !! register_name = Some location ->
  name_is_callee_save register_name = true
  /\ exists item,
       item ∈ instructions (node_block start_node)
       /\ saves_register register_name location item.
Proof.
  intros H Hstart Hr.
  apply find_stack_info_inv in H
    as (start' & raw & Hstart' & Hloop & _ & _ & _ & Hcallee & _).
  rewrite Hstart in Hstart'. inversion Hstart'; subst start'.
  rewrite Hcallee in Hr.
  destruct (stack_info_loop_callee _ _ _ _ _ Hloop Hr) as [Hinit|Hfound];
    [|exact Hfound].
  cbn in Hinit. now rewrite lookup_empty in Hinit.
Qed.

Lemma find_stack_info_callee_save_witness :
  find_stack_info leaf_flow = Ok leaf_info
  /\ name_is_callee_save "s1" = true
  /\ exists item, item ∈ leaf_body /\ saves_register "s1" 8 item.
Proof.
  split; [reflexivity|].
  apply (find_stack_info_callee_save leaf_flow leaf_info
           (ExitNode (mkBlock 0 None leaf_body)) "s1" 8%Z);
    reflexivity.
Defined.

(** ** The slots that are not local variables *)

Lemma max_value_bound (d : gmap string Z) key value :
  d !! key = Some value ->
  exists m, max_value d = Some m /\ (value <= m)%Z.
Proof.
  intros H. apply elem_of_map_to_list in H.
  assert (Hin : value ∈ (map_to_list d).*2).
  { apply list_elem_of_fmap. now exists (key, value). }
  unfold max_value. destruct ((map_to_list d).*2) as [|v vs];
    [now apply elem_of_nil in Hin|].
  eexists. split; [reflexivity|].
  apply elem_of_cons in Hin as [->|Hin].
  - clear. induction vs as [|w vs IH]; cbn; lia.
  - induction vs as [|w vs IH]; [now apply elem_of_nil in Hin|].
    cbn. apply elem_of_cons in Hin as [->|Hin]; [lia|].
    specialize (IH Hin). lia.
Qed.

(** In a function that is not a leaf the region of the local variables
    starts right above the return address, and a callee-save register saved
    above it has its slot inside the region. *)
Lemma find_stack_info_saved_above :
  exists info,
    find_stack_info saved_above_flow = Ok info
    /\ is_leaf info = false
    /\ return_addr_location info = 16%Z
    /\ callee_save_reg_locations info !! "s0" = Some 20%Z
    /\ in_local_var_region info 20 = true.
Proof. eexists. split; [reflexivity|]. repeat split. Qed.

(** X19. Two kinds of saved slots lie outside the region of the local
    variables: in a leaf, no offset at which a callee-save register is
    saved lies in the region; in a function that is not a leaf, the offset
    of the return address does not. The callee-save slots of a function
    that is not a leaf are not covered
    ([find_stack_info_saved_above]). *)
Theorem find_stack_info_saved_slots flow_analysis info :
  find_stack_info flow_analysis = Ok info ->
  if is_leaf info then
    forall register_name location,
      callee_save_reg_locations info !! register_name = Some location ->
      in_local_var_region info location = false
  else
    in_local_var_region info (return_addr_location info) = false.
Proof.
  intros H.
  apply find_stack_info_inv in H
    as (start & raw & _ & _ & _ & Hleaf & Hra & Hcallee & Hbottom).
  unfold in_local_var_region. rewrite Hleaf, Hbottom, Hra, Hcallee.
  destruct (is_leaf raw).
  - intros r loc Hr.
    destruct (max_value_bound _ _ _ Hr) as (m & -> & Hle).
    apply andb_false_iff. left. apply Z.leb_gt. lia.
  - apply andb_false_iff. left. apply Z.leb_gt. lia.
Qed.

Lemma find_stack_info_saved_slots_witness :
  find_stack_info leaf_flow = Ok leaf_info
  /\ in_local_var_region leaf_info 8 = false.
Proof.
  split; [reflexivity|].
  apply (find_stack_info_saved_slots leaf_flow leaf_info eq_refl "s1").
  reflexivity.
Defined.
(** * Further properties of the instruction lifter *)

(** ** Aliases *)

(** X20. An alias is lifted exactly as the mnemonic it stands for, whatever
    the operands and the state: [sltiu] as [slti], [sra] as [srl], [add.d]
    as [addu], and so on; the alias table is applied once and sends no
    mnemonic to another alias. *)
Theorem translate_instruction_alias st m a :
  translate_instruction
    st (ItemInstruction (mkInstruction (true_mnemonic m) a))
  = translate_instruction st (ItemInstruction (mkInstruction m a)).
Proof.
  destruct st as [reg to_store]. unfold translate_instruction.
  cbn [mnemonic args].
  change (match dict_get cases_repeats (true_mnemonic m) with
          | Some t => t
          | None => true_mnemonic m
          end) with (true_mnemonic (true_mnemonic m)).
  change (match dict_get cases_repeats m with
          | Some t => t
          | None => m
          end) with (true_mnemonic m).
  now rewrite true_mnemonic_idempotent.
Qed.

(** ** What an instruction changes *)

Ltac same_keys reg :=
  rewrite ?(dict_has_keys (cases_source_first_expression ∅)
                          (cases_source_first_expression reg)),
          ?(dict_has_keys (cases_source_first_register ∅)
                          (cases_source_first_register reg)),
          ?(dict_has_keys (cases_branches ∅) (cases_branches reg)),
          ?(dict_has_keys (cases_float_comp ∅) (cases_float_comp reg)),
          ?(dict_has_keys (cases_special ∅) (cases_special reg)),
          ?(dict_has_keys (cases_destination_first ∅)
                          (cases_destination_first reg))
    by reflexivity.

Lemma assign_register_frame i case a reg reg' name :
  assign_register i case a reg = Ok reg' ->
  (is_Some (reg !! name) -> is_Some (reg' !! name))
  /\ (a !! i <> Some (Register name) -> reg' !! name = reg !! name).
Proof.
  unfold assign_register, arg_at, mbind, result_bind, from_option.
  destruct (a !! i) as [[n| | | | | |]|] eqn:E; try discriminate.
  destruct (case a) as [v| |]; try discriminate.
  intros [= <-]. split.
  - intros Hs. destruct (decide (n = name)) as [->|Hne].
    + rewrite lookup_insert_eq. eauto.
    + now rewrite lookup_insert_ne.
  - intros Hne. apply lookup_insert_ne. congruence.
Qed.

Lemma translate_instruction_frame reg to_store instr reg' to_store' name :
  translate_instruction (reg, to_store) (ItemInstruction instr)
  = Ok (reg', to_store') ->
  (is_Some (reg !! name) -> is_Some (reg' !! name))
  /\ (written_operand instr <> Some (Register name) ->
      reg' !! name = reg !! name).
Proof.
  unfold written_operand. same_keys reg.
  unfold translate_instruction. cbn [args].
  change (match dict_get cases_repeats (mnemonic instr) with
          | Some t => t
          | None => mnemonic instr
          end) with (true_mnemonic (mnemonic instr)).
  generalize (true_mnemonic (mnemonic instr)). intros m.
  generalize (map unwrap_macro (args instr)). intros a H.
  rewrite !dict_has_get. unfold mbind, result_bind in H.
  destruct (String.eqb m "nop"); [now inversion H|].
  destruct (dict_get (cases_source_first_expression reg) m) as [case|].
  { destruct (case a); now inversion H. }
  destruct (dict_get (cases_source_first_register reg) m) as [case|].
  { destruct (assign_register 1 case a reg) as [r| |] eqn:E;
      inversion H; subst. eapply assign_register_frame; eauto. }
  destruct (dict_has (cases_branches reg) m); [now inversion H|].
  destruct (dict_has cases_float_branches m); [now inversion H|].
  destruct (dict_get cases_jumps m) as [case|].
  { destruct (case a) as [[]| |]; try discriminate;
      destruct (py_assert _); now inversion H. }
  destruct (dict_has (cases_float_comp reg) m); [now inversion H|].
  destruct (dict_get (cases_special reg) m) as [case|].
  { destruct (assign_register 0 case a reg) as [r| |] eqn:E;
      inversion H; subst. eapply assign_register_frame; eauto. }
  destruct (dict_get (cases_destination_first reg) m) as [case|];
    [|discriminate].
  destruct (assign_register 0 case a reg) as [r| |] eqn:E;
    inversion H; subst. eapply assign_register_frame; eauto.
Qed.

Lemma translate_loop_frame instructions :
  forall reg to_store reg' to_store' name,
    translate_loop (reg, to_store) instructions = Ok (reg', to_store') ->
    (is_Some (reg !! name) -> is_Some (reg' !! name))
    /\ ((forall instr,
            ItemInstruction instr ∈ instructions ->
            written_operand instr <> Some (Register name)) ->
        reg' !! name = reg !! name).
Proof.
  induction instructions as [|item rest IH];
    intros reg to_store reg' to_store' name H; cbn [translate_loop] in H.
  - inversion H; subst. auto.
  - unfold mbind at 1, result_bind at 1 in H.
    destruct (translate_instruction (reg, to_store) item)
      as [[reg1 to_store1]| |] eqn:Hi; try discriminate.
    destruct item as [l|instr]; [discriminate Hi|].
    destruct (translate_instruction_frame _ _ _ _ _ name Hi) as [Hs1 Hf1].
    destruct (IH _ _ _ _ name H) as [Hs2 Hf2].
    split; [auto|]. intros Hw.
    rewrite Hf2, Hf1; [reflexivity| |].
    + apply Hw. apply list_elem_of_here.
    + intros i Hin. apply Hw. now apply list_elem_of_further.
Qed.

(** X21. Lifting a block changes no register but those its instructions
    assign to: a register that is not the operand written by an instruction
    of the block (the second operand of [mtc1], the first operand of the
    instructions of the special and the destination-first tables) has at
    the end the contents it had at the start, or is still missing. *)
Theorem translate_block_body_frame block reg reg' to_store name :
  translate_block_body block reg = Ok (reg', to_store) ->
  (forall instr,
      ItemInstruction instr ∈ instructions block ->
      written_operand instr <> Some (Register name)) ->
  reg' !! name = reg !! name.
Proof.
  intros H. now apply (translate_loop_frame _ _ _ _ _ name) in H.
Qed.

Lemma translate_block_body_frame_witness :
  translate_block_body writes_zero_block {[ "a0" := ENone ]}
  = Ok (<["zero" := EArg (NumberLiteral 1)]> {[ "a0" := ENone ]}, [])
  /\ (<["zero" := EArg (NumberLiteral 1)]> {[ "a0" := ENone ]}
      : gmap string Expr) !! "a0"
     = ({[ "a0" := ENone ]} : gmap string Expr) !! "a0".
Proof.
  split; [reflexivity|].
  apply (translate_block_body_frame writes_zero_block {[ "a0" := ENone ]}
           (<["zero" := EArg (NumberLiteral 1)]> {[ "a0" := ENone ]}) []
           "a0" eq_refl).
  intros instr Hin. apply list_elem_of_singleton in Hin.
  inversion Hin; subst. vm_compute. discriminate.
Defined.

(** ** The stores *)





(** ** The stores *)

Lemma store_case_kind reg width is_float a s :
  store_case reg width is_float a = Ok s ->
  (size s, float s) = (width, is_float).
Proof.
  unfold store_case, mbind, result_bind.
  destruct (arg_at a 0); try discriminate.
  destruct (reg_get reg _); try discriminate.
  destruct (arg_at a 1); try discriminate.
  destruct (deref _ reg); try discriminate.
  now intros [= <-].
Qed.

Lemma translate_instruction_stores reg to_store item reg' to_store' :
  translate_instruction (reg, to_store) item = Ok (reg', to_store') ->
  (fun s => (size s, float s)) <$> to_store'
  = ((fun s => (size s, float s)) <$> to_store)
      ++ option_list (store_kind item).
Proof.
  destruct item as [l|instr]; [discriminate|].
  unfold translate_instruction, store_kind. cbn [args].
  change (match dict_get cases_repeats (mnemonic instr) with
          | Some t => t
          | None => mnemonic instr
          end) with (true_mnemonic (mnemonic instr)).
  generalize (true_mnemonic (mnemonic instr)). intros m.
  generalize (map unwrap_macro (args instr)). intros a H.
  unfold mbind, result_bind in H.
  destruct (String.eqb_spec m "nop") as [Hnop|_].
  { rewrite Hnop. cbn. inversion H; subst. now rewrite app_nil_r. }
  unfold cases_source_first_expression in H. cbn [dict_get] in H.
  repeat match type of H with
         | context [if String.eqb m ?k then Some ?h else _] =>
             destruct (String.eqb m k);
             [ destruct (h a) as [s| |] eqn:Hs; try discriminate;
               apply store_case_kind in Hs; inversion H; subst;
               rewrite fmap_app; cbn; now rewrite Hs
             | ]
         end.
  cbn. rewrite app_nil_r.
  destruct (dict_get (cases_source_first_register reg) m) as [case|].
  { destruct (assign_register 1 case a reg); now inversion H. }
  destruct (dict_has (cases_branches reg) m); [now inversion H|].
  destruct (dict_has cases_float_branches m); [now inversion H|].
  destruct (dict_get cases_jumps m) as [case|].
  { destruct (case a) as [[]| |]; try discriminate;
      destruct (py_assert _); now inversion H. }
  destruct (dict_has (cases_float_comp reg) m); [now inversion H|].
  destruct (dict_get (cases_special reg) m) as [case|].
  { destruct (assign_register 0 case a reg); now inversion H. }
  destruct (dict_get (cases_destination_first reg) m) as [case|];
    [|discriminate].
  destruct (assign_register 0 case a reg); now inversion H.
Qed.

Lemma translate_loop_stores instructions :
  forall reg to_store reg' to_store',
    translate_loop (reg, to_store) instructions = Ok (reg', to_store') ->
    (fun s => (size s, float s)) <$> to_store'
    = ((fun s => (size s, float s)) <$> to_store)
        ++ omap store_kind instructions.
Proof.
  induction instructions as [|item rest IH];
    intros reg to_store reg' to_store' H; cbn [translate_loop] in H.
  - inversion H; subst. cbn. now rewrite app_nil_r.
  - unfold mbind at 1, result_bind at 1 in H.
    destruct (translate_instruction (reg, to_store) item)
      as [[reg1 to_store1]| |] eqn:Hi; try discriminate.
    apply IH in H. apply translate_instruction_stores in Hi.
    rewrite H, Hi, <- app_assoc. f_equal. cbn [omap list_omap].
    now destruct (store_kind item).
Qed.

(** X22. The list [to_store] of a lifted block holds one Store for each
    store instruction of the block, in the order of the instructions, with
    the width and the float flag of the mnemonic: 8 for [sb], 16 for [sh],
    32 for [sw], 32 and float for [swc1], 64 and float for [sdc1]. No other
    instruction adds a Store. *)
Theorem translate_block_body_stores block reg reg' to_store :
  translate_block_body block reg = Ok (reg', to_store) ->
  (fun s => (size s, float s)) <$> to_store
  = omap store_kind (instructions block).
Proof. intros H. now apply translate_loop_stores in H. Qed.

Lemma translate_block_body_stores_witness :
  translate_block_body stores_block zero_register_map
  = Ok (zero_register_map, stores_block_stores)
  /\ (fun s => (size s, float s)) <$> stores_block_stores
     = [(8%Z, false); (64%Z, true)].
Proof.
  split; [reflexivity|].
  apply (translate_block_body_stores stores_block zero_register_map
           zero_register_map stores_block_stores).
  reflexivity.
Defined.

(** ** The instructions passed over *)

(** X23. The lifter passes over [nop], the branches, the float branches,
    the float comparisons and [jr], and their aliases: whatever their
    operands and whatever the registers hold, they raise nothing and leave
    the register map and the stores as they are. The handlers of these
    tables are never called. *)
Theorem translate_instruction_passed_over st instr :
  passed_over (mnemonic instr) = true ->
  translate_instruction st (ItemInstruction instr) = Ok st.
Proof.
  destruct st as [reg to_store]. unfold passed_over.
  same_keys reg.
  unfold translate_instruction. cbn [args].
  change (match dict_get cases_repeats (mnemonic instr) with
          | Some t => t
          | None => mnemonic instr
          end) with (true_mnemonic (mnemonic instr)).
  generalize (true_mnemonic (mnemonic instr)). intros m.
  generalize (map unwrap_macro (args instr)). intros a H.
  destruct (String.eqb_spec m "nop") as [Hnop|_]; [reflexivity|].
  assert (Hcases :
            forall k,
              dict_has (cases_branches reg) k
              || dict_has cases_float_branches k
              || dict_has (cases_float_comp reg) k
              || String.eqb k "jr" = true ->
              dict_get (cases_source_first_expression reg) k = None
              /\ dict_get (cases_source_first_register reg) k = None).
  { clear. intros k Hk. unfold dict_has in Hk.
    cbn [dict_get cases_branches cases_float_branches cases_float_comp] in Hk.
    cbn [dict_get cases_source_first_expression cases_source_first_register].
    repeat match type of Hk with
           | context [String.eqb k ?s] =>
               destruct (String.eqb_spec k s) as [Heq|_];
               [rewrite Heq; split; reflexivity|]
           end.
    cbn in Hk. discriminate Hk. }
  cbn [orb] in H. destruct (Hcases m H) as [-> ->].
  destruct (dict_has (cases_branches reg) m); [reflexivity|].
  destruct (dict_has cases_float_branches m); [reflexivity|].
  destruct (String.eqb_spec m "jr") as [->|Hjr]; [reflexivity|].
  assert (Hj : dict_get cases_jumps m = None \/ m = "jal").
  { cbn. destruct (String.eqb_spec m "jal"); [now right|].
    destruct (String.eqb_spec m "jr"); [contradiction|now left]. }
  destruct (dict_has (cases_float_comp reg) m) eqn:Hfc; [|discriminate H].
  destruct Hj as [->| ->]; [reflexivity|discriminate Hfc].
Qed.

Lemma translate_instruction_passed_over_witness :
  translate_instruction (zero_register_map, [])
    (instr "c.lt.d" [Register "f0"; Register "f2"])
  = Ok (zero_register_map, []).
Proof.
  apply (translate_instruction_passed_over (zero_register_map, [])
           (mkInstruction "c.lt.d" [Register "f0"; Register "f2"])).
  reflexivity.
Defined.
(** * Further properties of [translate_to_ast] *)

(** ** Lifting a block ends, and not with [sys.exit] *)

Lemma caught_bind {A B} (r : result A) (f : A -> result B) :
  caught r -> (forall a, caught (f a)) -> caught (r ≫= f).
Proof. destruct r as [a|e|]; cbn; auto. Qed.

Lemma caught_arg_at a i : caught (arg_at a i).
Proof. unfold arg_at. now destruct (a !! i). Qed.

Lemma caught_reg_get reg key : caught (reg_get reg key).
Proof. destruct key; try exact I. cbn. now destruct (reg !! _). Qed.

Lemma caught_assert b : caught (py_assert b).
Proof. now destruct b. Qed.

Lemma caught_register_name_of a : caught (register_name_of a).
Proof. now destruct a. Qed.

Lemma caught_deref arg reg : caught (deref arg reg).
Proof.
  destruct arg as [| | | |lhs rhs| |]; try exact I.
  - apply caught_reg_get.
  - destruct rhs; try exact I. cbn.
    destruct (String.eqb _ _); [exact I|].
    apply caught_bind;
      [apply (caught_reg_get reg (Register register_name))|now intros].
Qed.

Create HintDb caught.

#[local] Hint Resolve caught_arg_at caught_reg_get caught_assert caught_deref
  caught_register_name_of : caught.

Ltac solve_caught :=
  intros;
  first [ exact I
        | solve [auto with caught]
        | apply caught_bind; [solve_caught|intro; solve_caught]
        | match goal with
          | |- caught (match ?x with _ => _ end) => destruct x; solve_caught
          | |- caught (if ?b then _ else _) => destruct b; solve_caught
          end ].

Lemma caught_load_upper args reg : caught (load_upper args reg).
Proof. unfold load_upper. solve_caught. Qed.

Lemma caught_handle_ori args reg : caught (handle_ori args reg).
Proof. unfold handle_ori. solve_caught. Qed.

Lemma caught_handle_addi args reg : caught (handle_addi args reg).
Proof. unfold handle_addi. solve_caught. Qed.

Lemma caught_table_get {A} (d : list (string * handler A)) m h :
  caught_table d -> dict_get d m = Some h -> forall a, caught (h a).
Proof.
  unfold caught_table. induction 1 as [|[k h'] d Hh _ IH]; cbn;
    [discriminate|].
  destruct (String.eqb m k); [|exact IH]. now intros [= <-].
Qed.

Ltac solve_caught_table :=
  unfold caught_table, cases_source_first_expression,
    cases_source_first_register, cases_jumps, cases_special,
    cases_destination_first;
  repeat (apply List.Forall_cons;
          [ cbn [snd]; intros ?;
            unfold store_case, binary_rr, binary_ra, binary_r0, cast_case,
              load_case, read_case;
            first [ apply caught_load_upper | apply caught_handle_ori
                  | apply caught_handle_addi | solve_caught ]
          | ]);
  apply List.Forall_nil.

Lemma caught_source_first_expression reg :
  caught_table (cases_source_first_expression reg).
Proof. solve_caught_table. Qed.

Lemma caught_source_first_register reg :
  caught_table (cases_source_first_register reg).
Proof. solve_caught_table. Qed.

Lemma caught_jumps : caught_table cases_jumps.
Proof. solve_caught_table. Qed.

Lemma caught_special reg : caught_table (cases_special reg).
Proof. solve_caught_table. Qed.

Lemma caught_destination_first reg :
  caught_table (cases_destination_first reg).
Proof. solve_caught_table. Qed.

Lemma caught_assign_register i case args reg :
  (forall a, caught (case a)) -> caught (assign_register i case args reg).
Proof.
  intros H. unfold assign_register.
  apply caught_bind; [apply caught_arg_at|]. intros []; try exact I.
  apply caught_bind; [apply H|now intros].
Qed.

Lemma caught_translate_instruction st item :
  caught (translate_instruction st item).
Proof.
  destruct st as [reg to_store]. destruct item as [l|instr]; [exact I|].
  unfold translate_instruction. cbn [args].
  generalize (match dict_get cases_repeats (mnemonic instr) with
              | Some t => t
              | None => mnemonic instr
              end).
  intros m. generalize (map unwrap_macro (args instr)). intros a.
  destruct (String.eqb m "nop"); [exact I|].
  destruct (dict_get (cases_source_first_expression reg) m) as [case|] eqn:E1.
  { apply caught_bind; [|now intros].
    eapply caught_table_get; eauto using caught_source_first_expression. }
  destruct (dict_get (cases_source_first_register reg) m) as [case|] eqn:E2.
  { apply caught_bind; [|now intros]. apply caught_assign_register.
    eapply caught_table_get; eauto using caught_source_first_register. }
  destruct (dict_has (cases_branches reg) m); [exact I|].
  destruct (dict_has cases_float_branches m); [exact I|].
  destruct (dict_get cases_jumps m) as [case|] eqn:E3.
  { apply caught_bind.
    - eapply caught_table_get; eauto using caught_jumps.
    - intros []; (apply caught_bind; [apply caught_assert|now intros]). }
  destruct (dict_has (cases_float_comp reg) m); [exact I|].
  destruct (dict_get (cases_special reg) m) as [case|] eqn:E4.
  { apply caught_bind; [|now intros]. apply caught_assign_register.
    eapply caught_table_get; eauto using caught_special. }
  destruct (dict_get (cases_destination_first reg) m) as [case|] eqn:E5.
  { apply caught_bind; [|now intros]. apply caught_assign_register.
    eapply caught_table_get; eauto using caught_destination_first. }
  exact I.
Qed.

Lemma caught_translate_loop instructions :
  forall st, caught (translate_loop st instructions).
Proof.
  induction instructions as [|item rest IH]; intros st; [exact I|].
  cbn [translate_loop]. apply caught_bind; [|exact IH].
  apply caught_translate_instruction.
Qed.

Lemma translate_nodes_total nodes :
  forall i, translate_nodes (S i) nodes = Ok (call_of <$> nodes).
Proof.
  induction nodes as [|node rest IH]; intros i; [reflexivity|].
  cbn [translate_nodes Nat.eqb]. rewrite IH, fmap_cons.
  remember (translate_block_body (node_block node) zero_register_map)
    as outcome eqn:Ho.
  assert (Hcall : call_of node
                  = mkCall (node_block node) zero_register_map outcome)
    by (subst outcome; reflexivity).
  assert (Hc : caught outcome)
    by (subst outcome; apply caught_translate_loop).
  rewrite Hcall. clear Ho Hcall.
  destruct outcome as [st|[]|]; try reflexivity; destruct Hc.
Qed.

(** X24. An exception raised while a block is lifted never stops
    [translate_to_ast]: once the flow analysis and the stack-frame analysis
    have returned, every node but the first is lifted, whatever happened to
    the nodes before it. Lifting a block always ends, with a result or with
    an exception that [except Exception] catches. *)
Theorem translate_to_ast_goes_on fuel function flow_analysis info :
  do_flow_analysis fuel function = Ok flow_analysis ->
  find_stack_info flow_analysis = Ok info ->
  translate_to_ast fuel function
  = Ok (info, call_of <$> tail (nodes flow_analysis))
  /\ Forall (fun call => caught (call_outcome call))
            (call_of <$> tail (nodes flow_analysis)).
Proof.
  intros Hfa Hinfo. split.
  - unfold translate_to_ast, mbind, result_bind. rewrite Hfa, Hinfo.
    destruct (nodes flow_analysis) as [|first rest]; [reflexivity|].
    cbn [translate_nodes Nat.eqb tail]. now rewrite translate_nodes_total.
  - apply Forall_fmap, Forall_forall. intros node _. cbn.
    apply caught_translate_loop.
Qed.

Lemma translate_to_ast_goes_on_witness :
  translate_to_ast 4 backward_jump_function
  = Ok (mkStackInfo 0 true 0 0 ∅, call_of <$> tail (nodes backward_flow))
  /\ Forall (fun call => caught (call_outcome call))
            (call_of <$> tail (nodes backward_flow)).
Proof.
  apply (translate_to_ast_goes_on 4 backward_jump_function backward_flow);
    reflexivity.
Defined.
(** * Properties of [decompile] *)

Section DecompileFacts.

Variable literal_eval : string -> option Z.

(** ** The functions of the program *)

Lemma append_to_current_cons item function next rest :
  append_to_current item (function :: next :: rest)
  = match append_to_current item (next :: rest) with
    | Some rest' => Some (function :: rest')
    | None => None
    end.
Proof. reflexivity. Qed.

Lemma append_to_current_names item functions functions' :
  append_to_current item functions = Some functions' ->
  function_name <$> functions' = function_name <$> functions.
Proof.
  revert functions'. induction functions as [|fn rest IH]; intros fs' H;
    [discriminate|].
  destruct rest as [|fn' rest'].
  - cbn in H. now inversion H.
  - rewrite append_to_current_cons in H.
    destruct (append_to_current item (fn' :: rest')) as [fs|] eqn:E;
      [|discriminate H].
    inversion H; subst. rewrite !fmap_cons. f_equal. now apply IH.
Qed.

Lemma startswith_dot_not_glabel line :
  startswith line "." = true -> startswith line "glabel" = false.
Proof.
  destruct line as [|c line]; [discriminate|]. unfold startswith.
  destruct c as [[] [] [] [] [] [] [] []]; cbn; intros H;
    try discriminate H; reflexivity.
Qed.

Lemma decompile_line_names program line program' :
  decompile_line literal_eval program line = Ok program' ->
  filename program' = filename program
  /\ function_name <$> functions program'
     = (function_name <$> functions program)
         ++ option_list (function_line_name line).
Proof.
  unfold decompile_line, function_line_name, new_label, new_instruction,
    mbind, result_bind, from_option.
  generalize (clean line). intros l.
  destruct (String.eqb_spec l "") as [->|_].
  { intros [= <-]. cbn. now rewrite app_nil_r. }
  destruct (startswith l ".") eqn:Hdot.
  { rewrite (startswith_dot_not_glabel _ Hdot). cbn [option_list].
    rewrite app_nil_r. cbn [andb].
    destruct (endswith l ":"); [|now intros [= <-]].
    destruct (append_to_current _ _) as [fs|] eqn:E; [|discriminate].
    intros [= <-]. cbn. split; [reflexivity|].
    now apply append_to_current_names in E. }
  cbn [andb]. destruct (startswith l "glabel").
  { destruct (str_split " " l !! 1) as [n|]; [|discriminate].
    intros [= <-]. cbn. split; [reflexivity|]. now rewrite fmap_app. }
  destruct (parse_instruction literal_eval l) as [i| |]; try discriminate.
  destruct (append_to_current _ _) as [fs|] eqn:E; [|discriminate].
  intros [= <-]. cbn. rewrite app_nil_r. split; [reflexivity|].
  now apply append_to_current_names in E.
Qed.

Lemma decompile_loop_names f :
  forall program program',
    decompile_loop literal_eval program f = Ok program' ->
    filename program' = filename program
    /\ function_name <$> functions program'
       = (function_name <$> functions program)
           ++ omap function_line_name f.
Proof.
  induction f as [|line rest IH]; intros program program' H;
    cbn [decompile_loop] in H.
  - inversion H; subst. cbn. now rewrite app_nil_r.
  - unfold mbind at 1, result_bind at 1 in H.
    destruct (decompile_line literal_eval program line) as [p1| |] eqn:E;
      try discriminate.
    apply decompile_line_names in E as [Hf1 Hn1].
    apply IH in H as [Hf Hn]. split; [congruence|].
    rewrite Hn, Hn1, <- app_assoc. f_equal. cbn [omap list_omap].
    now destruct (function_line_name line).
Qed.

(** X25. The functions of the program [decompile] returns are the ones the
    [glabel] lines of the file name, in the order of the lines, and there
    are at least two of them: [decompile] works on the second function,
    and raises IndexError when the file has fewer. *)
Theorem decompile_functions fuel name f program :
  decompile literal_eval fuel name f = Ok program ->
  filename program = name
  /\ function_name <$> functions program = omap function_line_name f
  /\ 2 <= length (omap function_line_name f).
Proof.
  unfold decompile, mbind, result_bind, from_option. intros H.
  destruct (decompile_loop _ _ _) as [p| |] eqn:E; try discriminate.
  destruct (functions p !! 1) as [fn|] eqn:E1; [|discriminate].
  destruct (do_flow_analysis fuel fn); try discriminate.
  inversion H; subst p; clear H.
  apply decompile_loop_names in E as [Hf Hn]. cbn in Hf, Hn.
  split; [exact Hf|]. split; [exact Hn|].
  rewrite <- Hn, length_fmap. apply lookup_lt_Some in E1. lia.
Qed.

(** ** What must come first *)

Lemma decompile_loop_ignored prefix :
  Forall (fun line => is_ignored line = true) prefix ->
  forall program rest,
    decompile_loop literal_eval program (prefix ++ rest)
    = decompile_loop literal_eval program rest.
Proof.
  induction 1 as [|line prefix Hline _ IH]; intros program rest;
    [reflexivity|].
  cbn [app decompile_loop].
  assert (Hl : decompile_line literal_eval program line = Ok program).
  { unfold decompile_line. unfold is_ignored in Hline.
    destruct (String.eqb (clean line) ""); [reflexivity|].
    cbn [orb] in Hline. apply andb_true_iff in Hline as [-> Hend].
    apply negb_true_iff in Hend. now rewrite Hend. }
  rewrite Hl. apply IH.
Qed.

(** X26. A file has to start with a function: when the first line that is
    neither blank, nor a comment, nor an assembler directive is a label or
    an instruction, [decompile] raises (AttributeError for the label, an
    exception of the parser or AssertionError for the instruction), for
    there is no current function to add it to. *)
Theorem decompile_function_first fuel name prefix line rest :
  Forall (fun line => is_ignored line = true) prefix ->
  is_ignored line = false ->
  startswith (clean line) "glabel" = false ->
  forall program,
    decompile literal_eval fuel name (prefix ++ line :: rest) <> Ok program.
Proof.
  intros Hprefix Hline Hgl program.
  unfold decompile. rewrite (decompile_loop_ignored _ Hprefix).
  cbn [decompile_loop].
  assert (Hl : forall p,
             decompile_line literal_eval (mkProgram name []) line <> Ok p).
  { intros p. unfold decompile_line, is_ignored in *.
    destruct (String.eqb (clean line) ""); [discriminate Hline|].
    cbn [orb] in Hline. rewrite Hgl.
    destruct (startswith (clean line) ".").
    - cbn [andb negb] in *. apply negb_false_iff in Hline. rewrite Hline.
      discriminate.
    - cbn [andb].
      destruct (parse_instruction literal_eval (clean line)); discriminate. }
  destruct (decompile_line literal_eval (mkProgram name []) line) as [p| |];
    [now specialize (Hl p)|discriminate|discriminate].
Qed.

End DecompileFacts.

Lemma decompile_functions_witness :
  decompile literal_eval_hex 2 "a.s" two_functions_file
  = Ok two_functions_program
  /\ function_name <$> functions two_functions_program
     = omap function_line_name two_functions_file.
Proof.
  split; [reflexivity|].
  apply (decompile_functions literal_eval_hex 2 "a.s" two_functions_file
           two_functions_program).
  reflexivity.
Defined.

Lemma decompile_function_first_witness :
  is_ignored "  jr $ra" = false
  /\ startswith (clean "  jr $ra") "glabel" = false
  /\ forall program,
       decompile literal_eval_hex 2 "a.s"
         (["# a file"; ""] ++ "  jr $ra" :: ["glabel f"; "nop"])
       <> Ok program.
Proof.
  split; [reflexivity|]. split; [reflexivity|].
  apply (decompile_function_first literal_eval_hex 2 "a.s"
           ["# a file"; ""] "  jr $ra" ["glabel f"; "nop"]).
  - repeat constructor.
  - reflexivity.
  - reflexivity.
Defined.

(** * Printing a program and reading it again *)

(** ** Strings *)

Lemma append_assoc s1 s2 s3 : (s1 +:+ s2) +:+ s3 = s1 +:+ (s2 +:+ s3).
Proof.
  induction s1 as [|c s1 IH]; [reflexivity|].
  change (String c ((s1 +:+ s2) +:+ s3) = String c (s1 +:+ (s2 +:+ s3))).
  now rewrite IH.
Qed.

Lemma plain_text_app s t :
  plain_text (s +:+ t) = plain_text s && plain_text t.
Proof. unfold plain_text. now rewrite list_ascii_app, forallb_app. Qed.

Lemma plain_text_chars s :
  plain_text s = true ->
  ("#"%char ∉ list_ascii_of_string s)
  /\ ("*"%char ∉ list_ascii_of_string s)
  /\ ("010"%char ∉ list_ascii_of_string s).
Proof.
  unfold plain_text. intros H. rewrite forallb_forall in H.
  repeat split; intros Hin; apply list_elem_of_In, H in Hin; discriminate Hin.
Qed.

Lemma all_chars_plain valid w :
  (forall c, char_in c valid = true -> plain_char c = true) ->
  all_chars valid w = true -> plain_text w = true.
Proof.
  intros Hv. unfold plain_text.
  induction w as [|c w IH]; cbn; intros H; [reflexivity|].
  apply andb_true_iff in H as [Hc Hw]. now rewrite (Hv c Hc), IH.
Qed.

Lemma word_char_plain c : char_in c valid_word = true -> plain_char c = true.
Proof.
  destruct c as [[] [] [] [] [] [] [] []]; vm_compute; intros H;
    try discriminate H; reflexivity.
Qed.

Lemma number_char_plain c :
  char_in c valid_number = true -> plain_char c = true.
Proof.
  destruct c as [[] [] [] [] [] [] [] []]; vm_compute; intros H;
    try discriminate H; reflexivity.
Qed.

Lemma Argument_str_plain a :
  canonical a = true -> plain_text (Argument_str a) = true.
Proof.
  induction a as [n|n|m x IHx|z|lhs IHl x IHx|op lhs IHl rhs IHr|n];
    intros Hc; cbn [canonical] in Hc; cbn [Argument_str];
    rewrite ?plain_text_app.
  - now rewrite (all_chars_plain valid_word n word_char_plain Hc).
  - destruct n as [|c n]; [discriminate|]. cbn [symbol_name_ok] in Hc.
    apply andb_true_iff in Hc as [_ Hc].
    exact (all_chars_plain valid_word _ word_char_plain Hc).
  - apply andb_true_iff in Hc as [Hm Hx]. rewrite (IHx Hx).
    apply orb_true_iff in Hm as [Hm|Hm]; apply String.eqb_eq in Hm;
      subst m; reflexivity.
  - exact (all_chars_plain valid_number _ number_char_plain (hex_valid z)).
  - apply andb_true_iff in Hc as [Hl Hx].
    destruct lhs as [l|]; rewrite ?plain_text_app.
    + apply andb_true_iff in Hl as [_ Hl].
      inversion IHl as [l' IHl'|]; subst. now rewrite (IHl' Hl), (IHx Hx).
    + now rewrite (IHx Hx).
  - apply andb_true_iff in Hc as [Hc Hr].
    apply andb_true_iff in Hc as [Hc Hl].
    apply andb_true_iff in Hc as [Hop _].
    destruct rhs as [| | |n| | |]; try discriminate.
    rewrite (IHl Hl), (IHr eq_refl).
    repeat (apply orb_true_iff in Hop as [Hop|Hop]);
      apply String.eqb_eq in Hop; subst op; reflexivity.
  - now rewrite (all_chars_plain valid_word n word_char_plain Hc).
Qed.

Lemma join_plain sep pieces :
  plain_text sep = true ->
  Forall (fun s => plain_text s = true) pieces ->
  plain_text (join sep pieces) = true.
Proof.
  intros Hsep. induction 1 as [|piece pieces Hp Hall IH]; [reflexivity|].
  destruct pieces as [|next pieces]; [exact Hp|].
  change (join sep (piece :: next :: pieces))
    with (piece +:+ sep +:+ join sep (next :: pieces)).
  now rewrite !plain_text_app, Hp, Hsep, IH.
Qed.

(** ** Lines *)

Lemma one_line_app s t : one_line (s +:+ t) = one_line s && one_line t.
Proof. unfold one_line. now rewrite list_ascii_app, forallb_app. Qed.

Lemma plain_text_one_line s : plain_text s = true -> one_line s = true.
Proof.
  unfold plain_text, one_line. rewrite !forallb_forall. intros H c Hc.
  specialize (H c Hc). revert H. unfold plain_char.
  destruct (Ascii.eqb c "#"), (Ascii.eqb c "*"), (Ascii.eqb c "010"),
    (Ascii.eqb c "013"); cbn; congruence.
Qed.

Lemma one_line_cons c s :
  one_line (String c s) = true ->
  Ascii.eqb c "010" = false /\ Ascii.eqb c "013" = false
  /\ one_line s = true.
Proof.
  unfold one_line. cbn [list_ascii_of_string forallb]. intros H.
  apply andb_true_iff in H as [Hc H].
  apply negb_true_iff, orb_false_iff in Hc as [Hlf Hcr]. now repeat split.
Qed.

Lemma lines_of_line s t :
  one_line s = true ->
  lines_of (s +:+ newline +:+ t) = s :: lines_of t.
Proof.
  induction s as [|c s IH]; intros H.
  - reflexivity.
  - apply one_line_cons in H as (Hlf & Hcr & H).
    change (String c s +:+ newline +:+ t)
      with (String c (s +:+ newline +:+ t)).
    cbn [lines_of]. now rewrite Hlf, Hcr, IH.
Qed.

Lemma lines_of_last s :
  one_line s = true -> s <> "" -> lines_of s = [s].
Proof.
  induction s as [|c s IH]; intros H Hne; [congruence|].
  apply one_line_cons in H as (Hlf & Hcr & H).
  cbn [lines_of]. rewrite Hlf, Hcr.
  destruct s as [|d s]; [reflexivity|].
  now rewrite IH.
Qed.

(** ** Comments *)

Lemma remove_block_comment_plain l :
  "*"%char ∉ l -> remove_block_comment l = l.
Proof.
  induction l as [|c rest IH]; intros H; [reflexivity|].
  apply not_elem_of_cons in H as [Hc H].
  cbn [remove_block_comment].
  destruct rest as [|next inside]; [reflexivity|].
  apply not_elem_of_cons in H as H'. destruct H' as [Hn _].
  destruct (Ascii.eqb_spec next "*"); [congruence|].
  rewrite andb_false_r. now rewrite IH.
Qed.

Lemma remove_line_comment_plain l :
  "#"%char ∉ l -> remove_line_comment l = l.
Proof.
  induction l as [|c rest IH]; intros H; [reflexivity|].
  apply not_elem_of_cons in H as [Hc H].
  cbn [remove_line_comment].
  destruct (Ascii.eqb_spec c "#"); [congruence|]. now rewrite IH.
Qed.

Lemma clean_plain s : plain_text s = true -> clean s = strip s.
Proof.
  intros H. apply plain_text_chars in H as (Hh & Hs & _). unfold clean.
  rewrite remove_block_comment_plain, remove_line_comment_plain by assumption.
  now rewrite string_of_list_ascii_of_string.
Qed.

Lemma clean_comment s : clean ("# " +:+ s) = "".
Proof.
  unfold clean. change ("# " +:+ s) with (String "#" (String " " s)).
  cbn [list_ascii_of_string].
  assert (H : forall l, exists l',
               remove_block_comment ("#"%char :: l) = "#"%char :: l').
  { intros [|c l]; cbn; eauto. }
  destruct (H (" "%char :: list_ascii_of_string s)) as [l' ->].
  reflexivity.
Qed.

Lemma prefix_solid p m x :
  " "%char ∉ list_ascii_of_string p ->
  solid (list_ascii_of_string m) ->
  String.prefix p (m +:+ String " " x) = String.prefix p m.
Proof.
  revert m. induction p as [|a p IH]; intros m Hp Hm; [now destruct m|].
  cbn [list_ascii_of_string] in Hp. apply not_elem_of_cons in Hp as [Ha Hp].
  destruct m as [|b m].
  - change ("" +:+ String " " x) with (String " " x). cbn.
    destruct (ascii_dec a " "); [congruence|reflexivity].
  - change (String b m +:+ String " " x) with (String b (m +:+ String " " x)).
    cbn [String.prefix]. destruct (ascii_dec a b); [|reflexivity].
    apply IH; [exact Hp|]. now apply Forall_inv_tail in Hm.
Qed.

(** ** The current function *)

Lemma append_to_current_last item functions n done :
  append_to_current item (functions ++ [mkFunction n done])
  = Some (functions ++ [mkFunction n (done ++ [item])]).
Proof.
  induction functions as [|fn rest IH]; [reflexivity|].
  destruct rest as [|next rest].
  - reflexivity.
  - change ((fn :: next :: rest) ++ [mkFunction n done])
      with (fn :: next :: (rest ++ [mkFunction n done])).
    rewrite append_to_current_cons.
    change (next :: (rest ++ [mkFunction n done]))
      with ((next :: rest) ++ [mkFunction n done]).
    now rewrite IH.
Qed.

Lemma strip_chars_label n :
  bare_ends ".:" n = true -> strip_chars ".:" ("." +:+ n +:+ ":") = n.
Proof.
  unfold bare_ends, strip_chars. intros H.
  rewrite !list_ascii_app. cbn [list_ascii_of_string app].
  change (lstrip_chars ".:" ("."%char :: list_ascii_of_string n ++ [":"%char]))
    with (lstrip_chars ".:" (list_ascii_of_string n ++ [":"%char])).
  rewrite <- (string_of_list_ascii_of_string n) at 2.
  destruct (list_ascii_of_string n) as [|c l] eqn:E; [reflexivity|].
  apply andb_true_iff in H as [Hc Hd]. apply negb_true_iff in Hc.
  cbn [app lstrip_chars]. rewrite Hc.
  change (c :: l ++ [":"%char]) with ((c :: l) ++ [":"%char]).
  rewrite rev_app_distr. cbn [rev app].
  change (lstrip_chars ".:" (":"%char :: rev l ++ [c]))
    with (lstrip_chars ".:" (rev l ++ [c])).
  change (rev l ++ [c]) with (rev (c :: l)) in *.
  destruct (rev (c :: l)) as [|d l'] eqn:E'.
  { apply (f_equal (@length ascii)) in E'. rewrite length_rev in E'.
    discriminate E'. }
  apply negb_true_iff in Hd. cbn [lstrip_chars]. rewrite Hd.
  now rewrite <- E', rev_involutive.
Qed.

Lemma prefix_empty s : String.prefix "" s = true.
Proof. now destruct s. Qed.

(** ** One line at a time *)

Section PrintedLines.

Variable literal_eval : string -> option Z.
Hypothesis literal_eval_hex_ok : forall z, literal_eval (hex z) = Some z.

Lemma decompile_line_blank program :
  decompile_line literal_eval program "" = Ok program.
Proof. reflexivity. Qed.

Lemma decompile_line_comment program s :
  decompile_line literal_eval program ("# " +:+ s) = Ok program.
Proof. unfold decompile_line. now rewrite clean_comment. Qed.

Lemma decompile_line_glabel program n :
  function_name_ok n = true ->
  decompile_line literal_eval program ("glabel " +:+ n)
  = Ok (new_function n program).
Proof.
  unfold function_name_ok. intros H. apply andb_true_iff in H as [Hn Hp].
  destruct (mnemonic_ok_solid n Hn) as [Hne Hs].
  unfold decompile_line.
  rewrite clean_plain by (rewrite plain_text_app, Hp; reflexivity).
  rewrite strip_tight.
  - change ("glabel " +:+ n) with ("glabel" +:+ String " " n).
    rewrite str_split_app
      by (apply (bool_decide_unpack _); vm_compute; exact I).
    rewrite str_split_plain by now apply solid_no_space.
    reflexivity.
  - now exists "g"%char, (list_ascii_of_string ("label " +:+ n)).
  - rewrite list_ascii_app. now apply ends_solid_app.
Qed.

Lemma decompile_line_label fs fname n done label_name :
  label_name_ok label_name = true ->
  decompile_line literal_eval
    (mkProgram fname (fs ++ [mkFunction n done]))
    (Label_str (mkLabel label_name))
  = Ok (mkProgram fname
          (fs ++ [mkFunction n (done ++ [ItemLabel (mkLabel label_name)])])).
Proof.
  unfold label_name_ok. intros H. apply andb_true_iff in H as [Hp Hb].
  unfold decompile_line, Label_str. cbn [name].
  rewrite clean_plain by (rewrite !plain_text_app, Hp; reflexivity).
  assert (Hstrip : strip ("  ." +:+ label_name +:+ ":")
                   = "." +:+ label_name +:+ ":").
  { change ("  ." +:+ label_name +:+ ":")
      with (String " " (String " " ("." +:+ label_name +:+ ":"))).
    unfold strip. cbn [list_ascii_of_string]. rewrite !lstrip_space.
    rewrite lstrip_solid, rstrip_solid.
    - apply string_of_list_ascii_of_string.
    - exists (list_ascii_of_string ("." +:+ label_name)), ":"%char.
      split; [|reflexivity].
      now rewrite !list_ascii_app, app_assoc.
    - now exists "."%char, (list_ascii_of_string (label_name +:+ ":")). }
  rewrite Hstrip, strip_chars_label by exact Hb.
  assert (Hend : endswith ("." +:+ label_name +:+ ":") ":" = true).
  { unfold endswith. rewrite !list_ascii_app.
    cbn [list_ascii_of_string app rev].
    rewrite rev_app_distr. cbn [rev app string_of_list_ascii].
    cbn [String.prefix]. destruct (ascii_dec ":" ":"); [|congruence].
    apply prefix_empty. }
  change ("." +:+ label_name +:+ ":")
    with (String "." (label_name +:+ ":")) in *.
  rewrite Hend. cbn [String.eqb startswith String.prefix andb].
  destruct (ascii_dec "." "."); [|congruence].
  rewrite prefix_empty. cbn [andb]. unfold new_label. cbn [functions filename].
  now rewrite append_to_current_last.
Qed.

Lemma decompile_line_instruction fs fname n done instruction :
  instruction_ok instruction = true ->
  decompile_line literal_eval
    (mkProgram fname (fs ++ [mkFunction n done]))
    (Instruction_str instruction)
  = Ok (mkProgram fname
          (fs ++ [mkFunction n (done ++ [ItemInstruction instruction])])).
Proof.
  unfold instruction_ok. intros H.
  apply andb_true_iff in H as [H Hargs].
  apply andb_true_iff in H as [H Hgl].
  apply andb_true_iff in H as [H Hdot].
  apply andb_true_iff in H as [Hm Hp].
  apply negb_true_iff in Hgl, Hdot.
  destruct instruction as [m arguments]. cbn [mnemonic args] in *.
  assert (Hall : Forall (fun a => canonical a = true) arguments).
  { apply Forall_forall. intros a Ha. rewrite forallb_forall in Hargs.
    now apply Hargs, list_elem_of_In. }
  destruct (mnemonic_ok_solid m Hm) as [Hne Hs].
  unfold decompile_line, Instruction_str. cbn [mnemonic args].
  rewrite clean_plain.
  2:{ rewrite !plain_text_app, Hp. cbn [andb].
      apply join_plain; [reflexivity|].
      apply Forall_fmap. eapply Forall_impl; [exact Hall|].
      intros a Ha. now apply Argument_str_plain. }
  destruct (printed_line_strip m (Argument_str <$> arguments) Hm
              (printed_arguments_end _ Hall)) as (-> & Hstart & Hend).
  set (line := match Argument_str <$> arguments with
               | [] => m
               | _ :: _ => m +:+ " " +:+ join ", " (Argument_str <$> arguments)
               end) in *.
  assert (Hnot : String.eqb line "" = false).
  { destruct Hstart as (c & rest & Hl & _). destruct line; [discriminate Hl|].
    reflexivity. }
  assert (Hpre : forall p,
             " "%char ∉ list_ascii_of_string p ->
             startswith line p = startswith m p).
  { intros p Hp'. unfold startswith, line.
    destruct (Argument_str <$> arguments); [reflexivity|].
    now apply prefix_solid. }
  rewrite Hnot, !Hpre, Hdot, Hgl
    by (apply (bool_decide_unpack _); vm_compute; exact I).
  cbn [andb]. unfold parse_instruction.
  rewrite strip_tight by assumption.
  unfold line. rewrite stripped_line_cut by exact Hm.
  rewrite (parse_pieces literal_eval m arguments literal_eval_hex_ok Hall).
  cbn [mbind result_bind]. unfold new_instruction. cbn [functions filename].
  now rewrite append_to_current_last.
Qed.

Lemma decompile_line_item fs fname n done item :
  item_ok item = true ->
  decompile_line literal_eval
    (mkProgram fname (fs ++ [mkFunction n done])) (BodyItem_str item)
  = Ok (mkProgram fname (fs ++ [mkFunction n (done ++ [item])])).
Proof.
  destruct item as [[l]|i]; cbn [item_ok BodyItem_str name]; intros H.
  - now apply decompile_line_label.
  - now apply decompile_line_instruction.
Qed.

Lemma item_line item :
  item_ok item = true -> one_line (BodyItem_str item) = true.
Proof.
  intros H. apply plain_text_one_line.
  destruct item as [[l]|[m arguments]];
    cbn [item_ok BodyItem_str name] in *.
  - unfold label_name_ok in H. apply andb_true_iff in H as [Hp _].
    unfold Label_str. cbn [name]. now rewrite !plain_text_app, Hp.
  - unfold instruction_ok in H. cbn [mnemonic args] in H.
    apply andb_true_iff in H as [H Hargs].
    apply andb_true_iff in H as [H _].
    apply andb_true_iff in H as [H _].
    apply andb_true_iff in H as [_ Hp].
    unfold Instruction_str. cbn [mnemonic args].
    rewrite !plain_text_app, Hp. cbn [andb].
    apply join_plain; [reflexivity|].
    apply Forall_fmap, Forall_forall. intros a Ha.
    rewrite forallb_forall in Hargs.
    apply Argument_str_plain, Hargs. now apply list_elem_of_In.
Qed.

(** ** One function at a time *)

Lemma decompile_loop_line program s t :
  one_line s = true ->
  decompile_loop literal_eval program (lines_of (s +:+ newline +:+ t))
  = program' ← decompile_line literal_eval program s;
    decompile_loop literal_eval program' (lines_of t).
Proof. intros H. now rewrite lines_of_line. Qed.

Lemma decompile_loop_last program s :
  one_line s = true ->
  decompile_loop literal_eval program (lines_of s)
  = decompile_line literal_eval program s.
Proof.
  intros H. destruct (String.eqb_spec s "") as [->|Hne]; [reflexivity|].
  rewrite lines_of_last by assumption. cbn [decompile_loop].
  now destruct (decompile_line literal_eval program s).
Qed.

Lemma decompile_body fs fname n items :
  Forall (fun item => item_ok item = true) items ->
  forall done,
    (forall t,
        decompile_loop literal_eval
          (mkProgram fname (fs ++ [mkFunction n done]))
          (lines_of (join newline (BodyItem_str <$> items)
                       +:+ newline +:+ t))
        = decompile_loop literal_eval
            (mkProgram fname (fs ++ [mkFunction n (done ++ items)]))
            (lines_of t))
    /\ decompile_loop literal_eval
         (mkProgram fname (fs ++ [mkFunction n done]))
         (lines_of (join newline (BodyItem_str <$> items)))
       = Ok (mkProgram fname (fs ++ [mkFunction n (done ++ items)])).
Proof.
  induction 1 as [|item items Hitem Hall IH]; intros done.
  - rewrite app_nil_r. split; [|reflexivity]. intros t.
    change (join newline (BodyItem_str <$> []) +:+ newline +:+ t)
      with ("" +:+ newline +:+ t).
    rewrite decompile_loop_line by reflexivity.
    now rewrite decompile_line_blank.
  - pose proof (item_line item Hitem) as Hline.
    pose proof (decompile_line_item fs fname n done item Hitem) as Hstep.
    replace (done ++ item :: items) with ((done ++ [item]) ++ items)
      by now rewrite <- app_assoc.
    destruct items as [|next items].
    + rewrite app_nil_r. cbn [fmap list_fmap join]. split.
      * intros t. now rewrite decompile_loop_line, Hstep.
      * now rewrite decompile_loop_last.
    + destruct (IH (done ++ [item])) as [IHa IHb].
      change (join newline (BodyItem_str <$> item :: next :: items))
        with (BodyItem_str item +:+ newline
              +:+ join newline (BodyItem_str <$> next :: items)).
      split.
      * intros t. rewrite !append_assoc.
        rewrite decompile_loop_line, Hstep by exact Hline.
        cbn [mbind result_bind]. apply IHa.
      * rewrite decompile_loop_line, Hstep by exact Hline.
        cbn [mbind result_bind]. apply IHb.
Qed.

Lemma decompile_function fs fname function :
  function_ok function = true ->
  (forall t,
      decompile_loop literal_eval (mkProgram fname fs)
        (lines_of (Function_str function +:+ newline +:+ t))
      = decompile_loop literal_eval (mkProgram fname (fs ++ [function]))
          (lines_of t))
  /\ decompile_loop literal_eval (mkProgram fname fs)
       (lines_of (Function_str function))
     = Ok (mkProgram fname (fs ++ [function])).
Proof.
  destruct function as [n items]. unfold function_ok.
  cbn [function_name body]. intros H. apply andb_true_iff in H as [Hn Hitems].
  assert (Hall : Forall (fun item => item_ok item = true) items).
  { apply Forall_forall. intros item Hin. rewrite forallb_forall in Hitems.
    now apply Hitems, list_elem_of_In. }
  assert (Hline : one_line ("glabel " +:+ n) = true).
  { apply plain_text_one_line. unfold function_name_ok in Hn.
    apply andb_true_iff in Hn as [_ Hp]. now rewrite plain_text_app, Hp. }
  pose proof (decompile_line_glabel (mkProgram fname fs) n Hn) as Hstep.
  destruct (decompile_body fs fname n items Hall []) as [Ha Hb].
  cbn [app] in Ha, Hb.
  unfold Function_str. cbn [function_name body].
  rewrite <- (append_assoc "glabel " n).
  split.
  - intros t. rewrite !append_assoc.
    rewrite <- (append_assoc "glabel " n).
    rewrite decompile_loop_line, Hstep by exact Hline.
    cbn [mbind result_bind]. apply Ha.
  - rewrite decompile_loop_line, Hstep by exact Hline.
    cbn [mbind result_bind]. apply Hb.
Qed.

Lemma decompile_function_list fname functions :
  Forall (fun function => function_ok function = true) functions ->
  forall fs,
    decompile_loop literal_eval (mkProgram fname fs)
      (lines_of (join (newline +:+ newline) (Function_str <$> functions)))
    = Ok (mkProgram fname (fs ++ functions)).
Proof.
  induction 1 as [|function rest Hf Hall IH]; intros fs.
  - now rewrite app_nil_r.
  - destruct (decompile_function fs fname function Hf) as [Ha Hb].
    destruct rest as [|next rest]; [exact Hb|].
    change (join (newline +:+ newline)
                 (Function_str <$> function :: next :: rest))
      with (Function_str function +:+ (newline +:+ newline)
            +:+ join (newline +:+ newline) (Function_str <$> next :: rest)).
    rewrite append_assoc, Ha.
    change (newline +:+ join (newline +:+ newline)
                             (Function_str <$> next :: rest))
      with ("" +:+ newline
            +:+ join (newline +:+ newline) (Function_str <$> next :: rest)).
    rewrite decompile_loop_line, decompile_line_blank by reflexivity.
    cbn [mbind result_bind]. rewrite IH. now rewrite <- app_assoc.
Qed.

(** X27. What [Program.__str__] prints is read back by [decompile] as the
    same program, from a file opened in text mode as [main] opens it, where
    a line ends at a line feed, at a carriage return or at both: the lines
    of the text give the functions, labels and instructions of the program
    again, in order, when the file name holds no line feed and no carriage
    return, the names of functions, labels and mnemonics are free of white
    space (carriage return included) and of comment characters, the
    mnemonics do not start with a dot or with [glabel], the arguments are
    canonical, [ast.literal_eval] evaluates the literals [hex] prints, and
    the flow analysis of the second function, which [decompile] runs,
    returns. *)
Theorem decompile_round_trip fuel program function flow_analysis :
  printable program = true ->
  functions program !! 1 = Some function ->
  do_flow_analysis fuel function = Ok flow_analysis ->
  decompile literal_eval fuel (filename program)
            (lines_of (Program_str program))
  = Ok program.
Proof.
  destruct program as [fname fs]. unfold printable.
  cbn [filename functions]. intros H Hsecond Hflow.
  apply andb_true_iff in H as [Hname Hfs].
  assert (Hline : one_line ("# " +:+ fname) = true).
  { now rewrite one_line_app, Hname. }
  assert (Hall : Forall (fun function => function_ok function = true) fs).
  { apply Forall_forall. intros fn Hin. rewrite forallb_forall in Hfs.
    now apply Hfs, list_elem_of_In. }
  unfold decompile, Program_str. cbn [filename functions].
  rewrite <- (append_assoc "# " fname).
  rewrite decompile_loop_line, decompile_line_comment by exact Hline.
  cbn [mbind result_bind].
  rewrite (decompile_function_list fname fs Hall []). cbn [app].
  cbn [mbind result_bind functions]. rewrite Hsecond.
  cbn [from_option mbind result_bind]. now rewrite Hflow.
Qed.

End PrintedLines.

Lemma decompile_round_trip_witness :
  decompile literal_eval_hex 2 "a.s"
            (lines_of (Program_str two_functions_program))
  = Ok two_functions_program.
Proof.
  apply (decompile_round_trip literal_eval_hex literal_eval_hex_spec 2
           two_functions_program
           (mkFunction "second"
              [ instr "addiu" [Register "v0"; Register "zero"; NumberLiteral 1];
                ItemLabel (mkLabel "L1");
                instr "jr" [Register "ra"]; instr "nop" [] ])
           (mkFlowAnalysis
              [ BasicNode
                  (mkBlock 0 None
                     [instr "addiu" [Register "v0"; Register "zero";
                                     NumberLiteral 1]])
                  (ExitNode (mkBlock 1 (Some (mkLabel "L1"))
                               [instr "jr" [Register "ra"]; instr "nop" []]));
                ExitNode (mkBlock 1 (Some (mkLabel "L1"))
                            [instr "jr" [Register "ra"]; instr "nop" []]) ]));
    reflexivity.
Defined.
(** * [main] *)

(** X28. Once [decompile] has returned, [main] can only fail in the
    stack-frame analysis: the second function is there, its flow analysis,
    which [translate_to_ast] runs again, returns as it did in [decompile],
    and no exception raised while a block is lifted gets out of
    [translate_to_ast]. *)
Theorem main_after_decompile literal_eval fuel name f program :
  decompile literal_eval fuel name f = Ok program ->
  exists function flow_analysis,
    functions program !! 1 = Some function
    /\ do_flow_analysis fuel function = Ok flow_analysis
    /\ main literal_eval fuel name f
       = (_ ← find_stack_info flow_analysis; Ok tt).
Proof.
  intros H. unfold main. rewrite H. cbn [mbind result_bind].
  unfold decompile, mbind, result_bind, from_option in H.
  destruct (decompile_loop _ _ _) as [p| |]; try discriminate.
  destruct (functions p !! 1) as [function|] eqn:Hsecond; [|discriminate].
  destruct (do_flow_analysis fuel function) as [flow_analysis| |] eqn:Hflow;
    try discriminate.
  inversion H; subst p; clear H.
  exists function, flow_analysis. split; [exact Hsecond|].
  split; [exact Hflow|].
  rewrite Hsecond. cbn [from_option mbind result_bind].
  unfold translate_to_ast. rewrite Hflow. cbn [mbind result_bind].
  destruct (find_stack_info flow_analysis) as [info| |]; try reflexivity.
  cbn [mbind result_bind].
  destruct (nodes flow_analysis) as [|first rest]; [reflexivity|].
  cbn [translate_nodes Nat.eqb]. now rewrite translate_nodes_total.
Qed.

Lemma main_after_decompile_witness :
  decompile literal_eval_hex 2 "a.s" two_functions_file
  = Ok two_functions_program
  /\ main literal_eval_hex 2 "a.s" two_functions_file = Ok tt
  /\ exists function flow_analysis,
       functions two_functions_program !! 1 = Some function
       /\ do_flow_analysis 2 function = Ok flow_analysis
       /\ main literal_eval_hex 2 "a.s" two_functions_file
          = (_ ← find_stack_info flow_analysis; Ok tt).
Proof.
  split; [reflexivity|]. split; [reflexivity|].
  apply (main_after_decompile literal_eval_hex 2 "a.s" two_functions_file
           two_functions_program).
  reflexivity.
Defined.
